(** * Notes application: store, derived view, persistence and editor session

    A shallow embedding of [notes_frontend/src/App.js].  The React component
    [App] owns three pieces of state ([notes], [selectedId], [query]); its
    handlers [createNote], [deleteNote], [updateNote] and [selectNote] are
    embedded as functions on that state, the derived values [filteredNotes]
    and [selectedNote] as pure functions of it.  The [useState] initialiser
    and the persistence effect are embedded over JSON texts, and
    [NoteEditor], with its debounce timer, as a timed transition system.
    Definitions come first, properties after them. *)

From Stdlib Require Import List ZArith NArith Lia Bool String Ascii.
From Stdlib Require Import Permutation Sorted.
From Stdlib Require Import Floats.SpecFloat.
From Stdlib Require DecimalFacts DecimalPos.
Import ListNotations.

Open Scope Z_scope.

Set Warnings "-register-all".

(** ** JavaScript strings

    A JavaScript string is a sequence of UTF-16 code units. *)

Definition code_unit := N.
Definition jsstring := list code_unit.

Definition str_eq_dec : forall a b : jsstring, {a = b} + {a <> b} :=
  list_eq_dec N.eq_dec.

(** A source literal, read one code unit per character (ASCII literals only). *)
Definition lit (s : string) : jsstring :=
  map N_of_ascii (list_ascii_of_string s).

(** ** Data model *)

(** The [Note] typedef of App.js. [updatedAt] holds a [Date.now()] reading:
    an integer number of milliseconds. *)
Record Note := mkNote {
  id : jsstring;
  title : jsstring;
  content : jsstring;
  updatedAt : Z
}.

(** The argument of [updateNote]: an object that may carry [title] and
    [content]. *)
Record Patch := mkPatch {
  p_title : option jsstring;
  p_content : option jsstring
}.

(** The three [useState] cells of [App]. *)
Record AppState := mkApp {
  notes : list Note;
  selectedId : option jsstring;   (* [null] is [None] *)
  query : jsstring
}.

(** What a handler hands back to its caller. *)
Inductive retval :=
| Undefined
| RetString (s : jsstring).

(** ** Store operations *)

(** [selectedId === id], with [selectedId] a string or [null]. *)
Definition strict_eq_sel (sel : option jsstring) (i : jsstring) : bool :=
  match sel with
  | Some s => if str_eq_dec s i then true else false
  | None => false
  end.

Definition id_is (i : jsstring) (n : Note) : bool :=
  if str_eq_dec (id n) i then true else false.

(** [notes.find((n) => n.id === selectedId) || null] *)
Definition selectedNote (st : AppState) : option Note :=
  match selectedId st with
  | Some s => find (id_is s) (notes st)
  | None => None
  end.

(** The object literal built by [createNote]. *)
Definition newNote (fresh : jsstring) (now : Z) : Note :=
  {| id := fresh; title := lit "Untitled note"; content := []; updatedAt := now |}.

(** [createNote]: [fresh] is what [cryptoRandomId()] answered and [now] what
    [Date.now()] answered.  The body ends without a [return] statement. *)
Definition createNote (fresh : jsstring) (now : Z) (st : AppState)
  : retval * AppState :=
  (Undefined,
   {| notes := newNote fresh now :: notes st;
      selectedId := Some fresh;
      query := query st |}).

(** [deleteNote] *)
Definition deleteNote (i : jsstring) (st : AppState) : AppState :=
  {| notes := filter (fun n => negb (id_is i n)) (notes st);
     selectedId := if strict_eq_sel (selectedId st) i then None else selectedId st;
     query := query st |}.

(** [{ ...n, ...patch, updatedAt: Date.now() }] *)
Definition merge (n : Note) (patch : Patch) (now : Z) : Note :=
  {| id := id n;
     title := match p_title patch with Some t => t | None => title n end;
     content := match p_content patch with Some c => c | None => content n end;
     updatedAt := now |}.

(** [updateNote].  Handlers run to completion at one instant of the model's
    clock, so every [Date.now()] of one call reads the same [now]. *)
Definition updateNote (now : Z) (i : jsstring) (patch : Patch) (st : AppState)
  : AppState :=
  {| notes := map (fun n => if id_is i n then merge n patch now else n) (notes st);
     selectedId := selectedId st;
     query := query st |}.

(** [selectNote] *)
Definition selectNote (i : option jsstring) (st : AppState) : AppState :=
  {| notes := notes st; selectedId := i; query := query st |}.

(** ** Sequences of store operations

    A run of the store: each operation carries what the environment answered
    while it ran ([cryptoRandomId()], [Date.now()]). *)

Inductive Op :=
| OpCreate (fresh : jsstring) (now : Z)
| OpUpdate (now : Z) (i : jsstring) (patch : Patch)
| OpDelete (i : jsstring).

Definition apply_op (op : Op) (st : AppState) : AppState :=
  match op with
  | OpCreate fresh now => snd (createNote fresh now st)
  | OpUpdate now i patch => updateNote now i patch st
  | OpDelete i => deleteNote i st
  end.

Definition run_ops (ops : list Op) (st : AppState) : AppState :=
  fold_left (fun s op => apply_op op s) ops st.

Definition ids (st : AppState) : list jsstring := map id (notes st).

(** Every identifier handed out by [cryptoRandomId()] is absent from the
    collection at the moment it is handed out. *)
Fixpoint fresh_ids (ops : list Op) (st : AppState) : Prop :=
  match ops with
  | [] => True
  | op :: ops' =>
      match op with
      | OpCreate fresh _ => ~ In fresh (ids st)
      | _ => True
      end /\ fresh_ids ops' (apply_op op st)
  end.

(** The [Date.now()] readings of a run, in the order they are taken. *)
Fixpoint readings (ops : list Op) : list Z :=
  match ops with
  | [] => []
  | OpCreate _ now :: ops' => now :: readings ops'
  | OpUpdate now _ _ :: ops' => now :: readings ops'
  | OpDelete _ :: ops' => readings ops'
  end.

(** No reading is earlier than [t], and none is earlier than the one before. *)
Fixpoint nondecreasing_from (t : Z) (l : list Z) : Prop :=
  match l with
  | [] => True
  | x :: l' => t <= x /\ nondecreasing_from x l'
  end.

Definition clock_nondecreasing (l : list Z) : Prop :=
  match l with
  | [] => True
  | x :: l' => nondecreasing_from x l'
  end.

(** No stored timestamp is later than [t]. *)
Definition stamped_by (t : Z) (st : AppState) : Prop :=
  forall n, In n (notes st) -> updatedAt n <= t.

(** ** Derived view *)

(** The code units [String.prototype.trim] removes: ECMAScript's WhiteSpace
    and LineTerminator. *)
Definition is_white_space (c : code_unit) : bool :=
  ((9 <=? c) && (c <=? 13) || (c =? 32) || (c =? 160) || (c =? 5760) ||
   (8192 <=? c) && (c <=? 8202) || (c =? 8232) || (c =? 8233) ||
   (c =? 8239) || (c =? 8287) || (c =? 12288) || (c =? 65279))%N.

Fixpoint trim_start (s : jsstring) : jsstring :=
  match s with
  | c :: s' => if is_white_space c then trim_start s' else s
  | [] => []
  end.

Definition trim (s : jsstring) : jsstring :=
  rev (trim_start (rev (trim_start s))).

Fixpoint starts_with (q s : jsstring) : bool :=
  match q, s with
  | [], _ => true
  | _ :: _, [] => false
  | a :: q', b :: s' => (a =? b)%N && starts_with q' s'
  end.

(** [s.includes(q)] *)
Fixpoint includes (s q : jsstring) : bool :=
  starts_with q s ||
  match s with
  | [] => false
  | _ :: s' => includes s' q
  end.

(** [Array.prototype.sort(comparefn)].  For a comparator that orders the
    elements consistently ECMAScript fixes the result: the elements in
    ascending order of the comparator, equal ones in their original order.
    Insertion from the right computes it. *)
Fixpoint insert {A} (comparefn : A -> A -> Z) (x : A) (l : list A) : list A :=
  match l with
  | [] => [x]
  | y :: l' => if comparefn x y <=? 0 then x :: l else y :: insert comparefn x l'
  end.

Definition Array_sort {A} (comparefn : A -> A -> Z) (l : list A) : list A :=
  fold_right (insert comparefn) [] l.

(** [x] may stand before [y]: the comparator is not positive on them. *)
Definition before {A} (comparefn : A -> A -> Z) (x y : A) : Prop :=
  comparefn x y <= 0.

(** [(a, b) => b.updatedAt - a.updatedAt] *)
Definition by_recency (a b : Note) : Z := updatedAt b - updatedAt a.

Section View.

(** [String.prototype.toLowerCase] is the platform's Unicode case mapping;
    the view is embedded over any such function. *)
Variable toLowerCase : jsstring -> jsstring.

(** The predicate handed to [notes.filter]. *)
Definition matches (q : jsstring) (n : Note) : bool :=
  includes (toLowerCase (title n)) q || includes (toLowerCase (content n)) q.

(** The [useMemo] body of [filteredNotes]. *)
Definition filteredNotes (st : AppState) : list Note :=
  let q := toLowerCase (trim (query st)) in
  let items :=
    if (0 <? List.length q)%nat then filter (matches q) (notes st) else notes st in
  Array_sort by_recency items.

End View.

(** ASCII case folding, to run the view on examples. *)
Definition ascii_lower (s : jsstring) : jsstring :=
  map (fun c => if ((65 <=? c) && (c <=? 90))%N then (c + 32)%N else c) s.

(** Most recently updated first. *)
Definition newer_first (a b : Note) : Prop := updatedAt b <= updatedAt a.

(** ** Persistence: JSON texts

    [localStorage] holds the collection as the text [JSON.stringify] makes of
    it, and [JSON.parse] reads it back.  Both are the platform's; they are
    embedded here after ECMA-262 (JSON.stringify without replacer and
    indentation, JSON.parse without reviver).

    Numbers are IEEE 754 binary64 values.  The collection carries
    [Date.now()] readings, integers: a Number that is an integer of
    magnitude up to 2^53 - 1 (negative zero apart) is held as [JNum], by the
    integer itself; every other Number (a fraction, an integer beyond that
    range, negative zero, an infinity) is held as [JDbl], by its binary64
    representation. *)

Inductive json :=
| JNull
| JBool (b : bool)
| JNum (z : Z)
| JDbl (x : spec_float)
| JStr (s : jsstring)
| JArr (l : list json)
| JObj (l : list (jsstring * json)).

(** An induction principle that reaches the values inside arrays and
    objects. *)
Fixpoint json_nested_ind (P : json -> Prop)
  (Hnull : P JNull) (Hbool : forall b, P (JBool b))
  (Hnum : forall z, P (JNum z)) (Hdbl : forall x, P (JDbl x))
  (Hstr : forall s, P (JStr s))
  (Harr : forall l, Forall P l -> P (JArr l))
  (Hobj : forall l, Forall (fun kv => P (snd kv)) l -> P (JObj l))
  (v : json) {struct v} : P v :=
  match v with
  | JNull => Hnull
  | JBool b => Hbool b
  | JNum z => Hnum z
  | JDbl x => Hdbl x
  | JStr s => Hstr s
  | JArr l =>
      Harr l ((fix all (l : list json) : Forall P l :=
                 match l with
                 | [] => Forall_nil P
                 | x :: l' =>
                     Forall_cons x
                       (json_nested_ind P Hnull Hbool Hnum Hdbl Hstr Harr Hobj x)
                       (all l')
                 end) l)
  | JObj l =>
      Hobj l ((fix all (l : list (jsstring * json))
                 : Forall (fun kv => P (snd kv)) l :=
                 match l with
                 | [] => Forall_nil _
                 | kv :: l' =>
                     Forall_cons kv
                       (json_nested_ind P Hnull Hbool Hnum Hdbl Hstr Harr Hobj (snd kv))
                       (all l')
                 end) l)
  end.

Definition max_safe_integer : N := 9007199254740991.

(** *** JSON.stringify *)

Definition hex_digit (n : N) : code_unit :=
  (if n <? 10 then 48 + n else 87 + n)%N.

(** [\uXXXX], lower-case hexadecimal. *)
Definition unicode_escape (c : code_unit) : jsstring :=
  [92; 117; hex_digit (c / 4096); hex_digit ((c / 256) mod 16);
   hex_digit ((c / 16) mod 16); hex_digit (c mod 16)]%N.

Definition is_high_surrogate (c : code_unit) : bool :=
  ((55296 <=? c) && (c <=? 56319))%N.

Definition is_low_surrogate (c : code_unit) : bool :=
  ((56320 <=? c) && (c <=? 57343))%N.

(** The two-character escapes of QuoteJSONString: backspace, tab, line feed,
    form feed, carriage return, double quote, backslash. *)
Definition short_escape (c : code_unit) : option code_unit :=
  (if c =? 8 then Some 98
   else if c =? 9 then Some 116
   else if c =? 10 then Some 110
   else if c =? 12 then Some 102
   else if c =? 13 then Some 114
   else if c =? 34 then Some 34
   else if c =? 92 then Some 92
   else None)%N.

(** QuoteJSONString walks the code points of the string: a surrogate pair is
    copied, a lone surrogate is escaped. *)
Fixpoint quote_body (s : jsstring) : jsstring :=
  match s with
  | [] => []
  | c :: s' =>
      match short_escape c with
      | Some e => 92%N :: e :: quote_body s'
      | None =>
          if (c <? 32)%N then unicode_escape c ++ quote_body s'
          else if is_high_surrogate c then
            match s' with
            | d :: s'' =>
                if is_low_surrogate d then c :: d :: quote_body s''
                else unicode_escape c ++ quote_body s'
            | [] => unicode_escape c
            end
          else if is_low_surrogate c then unicode_escape c ++ quote_body s'
          else c :: quote_body s'
      end
  end.

Definition QuoteJSONString (s : jsstring) : jsstring :=
  34%N :: quote_body s ++ [34%N].

Definition digit_unit (d : N) : code_unit := (48 + d)%N.

Fixpoint uint_units (d : Decimal.uint) : jsstring :=
  match d with
  | Decimal.Nil => []
  | Decimal.D0 d => digit_unit 0 :: uint_units d
  | Decimal.D1 d => digit_unit 1 :: uint_units d
  | Decimal.D2 d => digit_unit 2 :: uint_units d
  | Decimal.D3 d => digit_unit 3 :: uint_units d
  | Decimal.D4 d => digit_unit 4 :: uint_units d
  | Decimal.D5 d => digit_unit 5 :: uint_units d
  | Decimal.D6 d => digit_unit 6 :: uint_units d
  | Decimal.D7 d => digit_unit 7 :: uint_units d
  | Decimal.D8 d => digit_unit 8 :: uint_units d
  | Decimal.D9 d => digit_unit 9 :: uint_units d
  end.

(** Number::toString of an integer: its decimal numeral. *)
Definition NumberToString (z : Z) : jsstring :=
  match z with
  | Z0 => [48%N]
  | Zpos p => uint_units (Pos.to_uint p)
  | Zneg p => 45%N :: uint_units (Pos.to_uint p)
  end.

(** *** Numbers that are not safe integers *)

(** binary64: 53 bits of precision, exponents below 1024. *)
Definition prec : Z := 53.
Definition emax : Z := 1024.

(** The Number value for [m * 10 ^ e], with [m > 0]: the binary64 value
    nearest to it, the one with an even significand when two are equally
    near, an infinity beyond the range.  (For a numeral of more than 20
    significant digits ECMA-262 lets an engine round the numeral first; the
    engines return this value, one of those allowed.) *)
Definition Number_of_decimal (negative : bool) (m : positive) (e : Z) : spec_float :=
  match e with
  | Zneg k =>
      let '(q, e2, l) := SFdiv_core_binary prec emax (Zpos m) 0 (Zpos (10 ^ k)) 0 in
      binary_round_aux prec emax negative q e2 l
  | _ => binary_round prec emax negative (m * Z.to_pos (10 ^ e)) 0
  end.

(** The integer a Number is, if it is one; negative zero is none. *)
Definition Number_integer (x : spec_float) : option Z :=
  match x with
  | S754_zero false => Some 0
  | S754_finite s m e =>
      match e with
      | Zneg k =>
          if Zpos m mod 2 ^ Zpos k =? 0
          then Some (cond_Zopp s (Zpos m / 2 ^ Zpos k))
          else None
      | _ => Some (cond_Zopp s (Zpos m * 2 ^ e))
      end
  | _ => None
  end.

(** A Number as the embedding holds it. *)
Definition json_of_Number (x : spec_float) : json :=
  match Number_integer x with
  | Some z => if Z.abs z <=? Z.of_N max_safe_integer then JNum z else JDbl x
  | None => JDbl x
  end.

(** The positive Number [m * 2 ^ e] as a fraction of integers. *)
Definition Number_fraction (m : positive) (e : Z) : Z * Z :=
  match e with
  | Zneg k => (Zpos m, 2 ^ Zpos k)
  | _ => (Zpos m * 2 ^ e, 1)
  end.

(** A fraction times [10 ^ p]. *)
Definition scale10 (nd : Z * Z) (p : Z) : Z * Z :=
  match p with
  | Zneg k => (fst nd, snd nd * 10 ^ Zpos k)
  | _ => (fst nd * 10 ^ p, snd nd)
  end.

(** The [n] with [10 ^ (n - 1) <= x < 10 ^ n]; for a binary64 value [n] lies
    between -323 and 309. *)
Definition decade (nd : Z * Z) : Z :=
  let in_decade n :=
    let '(a, b) := scale10 nd (1 - n) in (b <=? a) && (a <? 10 * b) in
  match find in_decade (map (fun i => Z.of_nat i - 340) (seq 0 700)) with
  | Some n => n
  | None => 0
  end.

(** Number::toString, step 5, for one [k]: the decimals [s * 10 ^ (n - k)]
    of [k] digits next to [x] on either side, as pairs [(n, s)], the nearer
    one first, the even [s] first when they are equally near. *)
Definition digit_candidates (nd : Z * Z) (n0 k : Z) : list (Z * Z) :=
  let '(a, b) := scale10 nd (k - n0) in
  let lo := a / b in
  let r := a mod b in
  let below := (n0, lo) in
  let above := if lo + 1 =? 10 ^ k then (n0 + 1, 10 ^ (k - 1)) else (n0, lo + 1) in
  if r =? 0 then [below]
  else
    match 2 * r ?= b with
    | Lt => [below; above]
    | Gt => [above; below]
    | Eq => if Z.even lo then [below; above] else [above; below]
    end.

(** The least [k] of [ks], with [n] and [s], for which a decimal of [k]
    digits has [x] as its Number value. *)
Fixpoint shortest_from (x : spec_float) (nd : Z * Z) (n0 : Z) (ks : list Z)
  : option (Z * Z * Z) :=
  match ks with
  | [] => None
  | k :: ks' =>
      match find (fun c => SFeqb (Number_of_decimal false (Z.to_pos (snd c)) (fst c - k)) x)
                 (digit_candidates nd n0 k) with
      | Some c => Some (fst c, k, snd c)
      | None => shortest_from x nd n0 ks'
      end
  end.

(** Number::toString (radix 10) of a binary64 value: steps 1 to 4 for NaN,
    the zeros, the sign and the infinities; step 5 by search (seventeen
    digits tell any two binary64 values apart, so a [k] among 1 .. 17 is
    found); steps 6 to 11 for the layout: plain digits when [n] is between
    -5 and 21, scientific notation otherwise. *)
Definition Number_toString (x : spec_float) : jsstring :=
  match x with
  | S754_nan => lit "NaN"
  | S754_zero _ => lit "0"
  | S754_infinity s => if s then lit "-Infinity" else lit "Infinity"
  | S754_finite s m e =>
      let nd := Number_fraction m e in
      match shortest_from (S754_finite false m e) nd (decade nd)
              (map Z.of_nat (seq 1 17)) with
      | None => lit "NaN"
      | Some (n, k, sd) =>
          let ds := NumberToString sd in
          let zeros (c : Z) := repeat 48%N (Z.to_nat c) in
          let exponent :=
            101%N :: (if n <? 0 then 45%N else 43%N)
                  :: NumberToString (Z.abs (n - 1)) in
          let body :=
            if (k <=? n) && (n <=? 21) then ds ++ zeros (n - k)
            else if (0 <? n) && (n <=? 21)
                 then firstn (Z.to_nat n) ds ++ 46%N :: skipn (Z.to_nat n) ds
            else if (-6 <? n) && (n <=? 0)
                 then 48%N :: 46%N :: zeros (- n) ++ ds
            else match ds with
                 | [] => []
                 | d :: rest =>
                     if k =? 1 then d :: exponent else d :: 46%N :: rest ++ exponent
                 end in
          if s then 45%N :: body else body
      end
  end.

(** SerializeJSONProperty on a Number: its string when it is finite, [null]
    otherwise. *)
Definition Number_JSON (x : spec_float) : jsstring :=
  match x with
  | S754_zero _ | S754_finite _ _ _ => Number_toString x
  | _ => lit "null"
  end.

Fixpoint join_comma (parts : list jsstring) : jsstring :=
  match parts with
  | [] => []
  | [p] => p
  | p :: rest => p ++ 44%N :: join_comma rest
  end.

Fixpoint JSON_stringify (v : json) : jsstring :=
  match v with
  | JNull => lit "null"
  | JBool true => lit "true"
  | JBool false => lit "false"
  | JNum z => NumberToString z
  | JDbl x => Number_JSON x
  | JStr s => QuoteJSONString s
  | JArr l => 91%N :: join_comma (map JSON_stringify l) ++ [93%N]
  | JObj l =>
      123%N ::
      join_comma
        (map (fun kv => QuoteJSONString (fst kv) ++ 58%N :: JSON_stringify (snd kv)) l)
      ++ [125%N]
  end.

(** One member of an object as JSON.stringify writes it. *)
Definition member_text (kv : jsstring * json) : jsstring :=
  QuoteJSONString (fst kv) ++ 58%N :: JSON_stringify (snd kv).

(** *** JSON.parse *)

Inductive outcome (A : Type) : Type :=
| Parsed (a : A)
| SyntaxError
| OutOfFuel.

Arguments Parsed {A} a.
Arguments SyntaxError {A}.
Arguments OutOfFuel {A}.

Definition bind {A B} (m : outcome A) (k : A -> outcome B) : outcome B :=
  match m with
  | Parsed a => k a
  | SyntaxError => SyntaxError
  | OutOfFuel => OutOfFuel
  end.

Notation "x <- m ;; k" := (bind m (fun x => k))
  (at level 61, m at next level, right associativity).
Notation "' pat <- m ;; k" := (bind m (fun x => match x with pat => k end))
  (at level 61, pat pattern, m at next level, right associativity).

(** JSON white space: tab, line feed, carriage return, space. *)
Definition is_json_ws (c : code_unit) : bool :=
  ((c =? 9) || (c =? 10) || (c =? 13) || (c =? 32))%N.

Fixpoint skip_ws (s : jsstring) : jsstring :=
  match s with
  | c :: s' => if is_json_ws c then skip_ws s' else s
  | [] => []
  end.

Definition hex_value (c : code_unit) : option N :=
  (if (48 <=? c) && (c <=? 57) then Some (c - 48)
   else if (97 <=? c) && (c <=? 102) then Some (c - 87)
   else if (65 <=? c) && (c <=? 70) then Some (c - 55)
   else None)%N.

(** The character after a backslash, [u] apart. *)
Definition unescape (e : code_unit) : option code_unit :=
  (if e =? 34 then Some 34
   else if e =? 47 then Some 47
   else if e =? 92 then Some 92
   else if e =? 98 then Some 8
   else if e =? 102 then Some 12
   else if e =? 110 then Some 10
   else if e =? 114 then Some 13
   else if e =? 116 then Some 9
   else None)%N.

(** The characters of a string, after its opening quote, up to and including
    the closing one. *)
Fixpoint parse_chars (s : jsstring) : outcome (jsstring * jsstring) :=
  match s with
  | [] => SyntaxError
  | c :: r =>
      if (c =? 34)%N then Parsed ([], r)
      else if (c =? 92)%N then
        match r with
        | [] => SyntaxError
        | e :: r1 =>
            if (e =? 117)%N then
              match r1 with
              | h1 :: h2 :: h3 :: h4 :: r2 =>
                  match hex_value h1, hex_value h2, hex_value h3, hex_value h4 with
                  | Some a, Some b, Some c', Some d =>
                      '(t, rest) <- parse_chars r2 ;;
                      Parsed ((4096 * a + 256 * b + 16 * c' + d)%N :: t, rest)
                  | _, _, _, _ => SyntaxError
                  end
              | _ => SyntaxError
              end
            else
              match unescape e with
              | Some c' => '(t, rest) <- parse_chars r1 ;; Parsed (c' :: t, rest)
              | None => SyntaxError
              end
        end
      else if (c <? 32)%N then SyntaxError
      else '(t, rest) <- parse_chars r ;; Parsed (c :: t, rest)
  end.

Definition is_digit (c : code_unit) : bool := ((48 <=? c) && (c <=? 57))%N.

(** The longest run of digits at the front, and what follows it. *)
Fixpoint span_digits (s : jsstring) : jsstring * jsstring :=
  match s with
  | c :: s' =>
      if is_digit c then let (ds, r) := span_digits s' in (c :: ds, r)
      else ([], s)
  | [] => ([], [])
  end.

Definition digit_step (acc d : N) : N := (10 * acc + (d - 48))%N.

Definition digits_value (ds : jsstring) : N :=
  fold_left digit_step ds 0%N.

(** Digits as a decimal numeral of the Standard Library. *)
Fixpoint units_uint (ds : jsstring) : Decimal.uint :=
  match ds with
  | [] => Decimal.Nil
  | c :: ds' =>
      let d := units_uint ds' in
      match (c - 48)%N with
      | 0%N => Decimal.D0 d
      | 1%N => Decimal.D1 d
      | 2%N => Decimal.D2 d
      | 3%N => Decimal.D3 d
      | 4%N => Decimal.D4 d
      | 5%N => Decimal.D5 d
      | 6%N => Decimal.D6 d
      | 7%N => Decimal.D7 d
      | 8%N => Decimal.D8 d
      | _ => Decimal.D9 d
      end
  end.

(** The fraction of a numeral: [.] and at least one digit, or nothing. *)
Definition parse_fraction (r : jsstring) : outcome (jsstring * jsstring) :=
  match r with
  | c :: r1 =>
      if (c =? 46)%N then
        match span_digits r1 with
        | ([], _) => SyntaxError
        | (fs, r2) => Parsed (fs, r2)
        end
      else Parsed ([], r)
  | [] => Parsed ([], r)
  end.

(** The exponent of a numeral: [e] or [E], a sign maybe, at least one
    digit; or nothing. *)
Definition parse_exponent (r : jsstring) : outcome (Z * jsstring) :=
  match r with
  | c :: r1 =>
      if ((c =? 101) || (c =? 69))%N then
        let (minus, r2) :=
          match r1 with
          | sg :: r2 =>
              if (sg =? 45)%N then (true, r2)
              else if (sg =? 43)%N then (false, r2)
              else (false, r1)
          | [] => (false, r1)
          end in
        match span_digits r2 with
        | ([], _) => SyntaxError
        | (es, r3) =>
            let x := Z.of_N (digits_value es) in
            Parsed (if minus then - x else x, r3)
        end
      else Parsed (0, r)
  | [] => Parsed (0, r)
  end.

(** The value of the numeral [-? m * 10 ^ e].  When [m * 10 ^ e] is itself
    an integer of magnitude up to 2^53 - 1 it is a Number and is the value;
    otherwise the value is the Number nearest to it. *)
Definition number_value (negative : bool) (m : N) (e : Z) : json :=
  match m with
  | N0 => if negative then JDbl (S754_zero true) else JNum 0
  | Npos p =>
      let exact :=
        match e with
        | Zneg k =>
            if (m mod 10 ^ Npos k =? 0)%N then Some (m / 10 ^ Npos k)%N else None
        | _ => Some (m * 10 ^ Z.to_N e)%N
        end in
      match exact with
      | Some v =>
          if (v <=? max_safe_integer)%N
          then JNum (if negative then - Z.of_N v else Z.of_N v)
          else json_of_Number (Number_of_decimal negative p e)
      | None => json_of_Number (Number_of_decimal negative p e)
      end
  end.

(** A numeral: a minus sign maybe, an integer part without a leading zero,
    a fraction maybe, an exponent maybe. *)
Definition parse_number (s : jsstring) : outcome (json * jsstring) :=
  let (negative, s1) :=
    match s with
    | c :: r => if (c =? 45)%N then (true, r) else (false, s)
    | [] => (false, s)
    end in
  let (ds, r) := span_digits s1 in
  match ds with
  | [] => SyntaxError
  | d :: ds' =>
      if (d =? 48)%N && negb (match ds' with [] => true | _ => false end)
      then SyntaxError
      else
        '(fs, r1) <- parse_fraction r ;;
        '(ex, r2) <- parse_exponent r1 ;;
        Parsed (number_value negative (digits_value (ds ++ fs))
                  (ex - Z.of_nat (List.length fs)), r2)
  end.

(** The rest of a literal name ([true], [false], [null]). *)
Definition expect (name : jsstring) (s : jsstring) (v : json)
  : outcome (json * jsstring) :=
  if starts_with name s then Parsed (v, skipn (List.length name) s)
  else SyntaxError.

(** Property keys that are array indices: canonical numerals up to 2^32 - 2.
    An object lists them first, in ascending order. *)
Definition array_index (k : jsstring) : option N :=
  match k with
  | [] => None
  | d :: ds =>
      if forallb is_digit k &&
         (negb (d =? 48)%N || match ds with [] => true | _ => false end)
      then if (digits_value k <=? 4294967294)%N then Some (digits_value k) else None
      else None
  end.

Definition index_after (n : N) (k : jsstring) : Prop :=
  match array_index k with
  | Some m => (n < m)%N
  | None => True
  end.

(** Keys in the order an object lists them: array indices first, ascending,
    then the other keys, none twice. *)
Fixpoint keys_listed (ks : list jsstring) : Prop :=
  match ks with
  | [] => True
  | k :: ks' =>
      match array_index k with
      | Some n => Forall (index_after n) ks'
      | None => Forall (fun k' => array_index k' = None /\ k' <> k) ks'
      end /\ keys_listed ks'
  end.

Definition keys (o : list (jsstring * json)) : list jsstring := map fst o.

Definition key_is (k : jsstring) (kv : jsstring * json) : bool :=
  if str_eq_dec (fst kv) k then true else false.

Fixpoint obj_insert_index (n : N) (k : jsstring) (v : json)
  (o : list (jsstring * json)) : list (jsstring * json) :=
  match o with
  | [] => [(k, v)]
  | kv :: o' =>
      match array_index (fst kv) with
      | Some m => if (m <? n)%N then kv :: obj_insert_index n k v o'
                  else (k, v) :: o
      | None => (k, v) :: o
      end
  end.

(** CreateDataProperty on an ordinary object: an existing key keeps its
    place and takes the new value; a new array index goes among the array
    indices; any other new key goes last. *)
Definition obj_set (k : jsstring) (v : json) (o : list (jsstring * json))
  : list (jsstring * json) :=
  if existsb (key_is k) o
  then map (fun kv => if key_is k kv then (k, v) else kv) o
  else match array_index k with
       | Some n => obj_insert_index n k v o
       | None => o ++ [(k, v)]
       end.

Definition obj_of_members (ms : list (jsstring * json)) : list (jsstring * json) :=
  fold_left (fun o kv => obj_set (fst kv) (snd kv) o) ms [].

Definition is_char (k : N) (s : jsstring) : bool :=
  match s with
  | c :: _ => (c =? k)%N
  | [] => false
  end.

(** Recursive descent; [fuel] bounds the number of nested calls. *)
Fixpoint parse_value (fuel : nat) (s : jsstring) : outcome (json * jsstring) :=
  match fuel with
  | O => OutOfFuel
  | S f =>
      match skip_ws s with
      | [] => SyntaxError
      | c :: r =>
          if (c =? 123)%N then
            if is_char 125 (skip_ws r) then Parsed (JObj [], tl (skip_ws r))
            else '(ms, r') <- parse_members f r ;;
                 Parsed (JObj (obj_of_members ms), r')
          else if (c =? 91)%N then
            if is_char 93 (skip_ws r) then Parsed (JArr [], tl (skip_ws r))
            else '(vs, r') <- parse_elements f r ;; Parsed (JArr vs, r')
          else if (c =? 34)%N then
            '(str, r') <- parse_chars r ;; Parsed (JStr str, r')
          else if (c =? 116)%N then expect (lit "rue") r (JBool true)
          else if (c =? 102)%N then expect (lit "alse") r (JBool false)
          else if (c =? 110)%N then expect (lit "ull") r JNull
          else parse_number (c :: r)
      end
  end
with parse_elements (fuel : nat) (s : jsstring) : outcome (list json * jsstring) :=
  match fuel with
  | O => OutOfFuel
  | S f =>
      '(v, r) <- parse_value f s ;;
      if is_char 44 (skip_ws r) then
        '(vs, r') <- parse_elements f (tl (skip_ws r)) ;; Parsed (v :: vs, r')
      else if is_char 93 (skip_ws r) then Parsed ([v], tl (skip_ws r))
      else SyntaxError
  end
with parse_members (fuel : nat) (s : jsstring)
  : outcome (list (jsstring * json) * jsstring) :=
  match fuel with
  | O => OutOfFuel
  | S f =>
      if is_char 34 (skip_ws s) then
        '(k, r1) <- parse_chars (tl (skip_ws s)) ;;
        if is_char 58 (skip_ws r1) then
          '(v, r2) <- parse_value f (tl (skip_ws r1)) ;;
          if is_char 44 (skip_ws r2) then
            '(ms, r') <- parse_members f (tl (skip_ws r2)) ;;
            Parsed ((k, v) :: ms, r')
          else if is_char 125 (skip_ws r2) then Parsed ([(k, v)], tl (skip_ws r2))
          else SyntaxError
        else SyntaxError
      else SyntaxError
  end.

(** [JSON.parse(text)]: one value, white space around it, nothing else.
    Of two nested calls of the descent at least one consumes a character, so
    twice the length of the text is fuel enough ([JSON_parse_fuel] below). *)
Definition JSON_parse (text : jsstring) : outcome json :=
  '(v, r) <- parse_value (2 * List.length text + 1) text ;;
  match skip_ws r with
  | [] => Parsed v
  | _ => SyntaxError
  end.

(** *** load and save *)

(** What [localStorage.getItem(STORAGE_KEY)] does: it throws (storage
    denied), answers [null] (no item), or answers the stored text. *)
Inductive storage_read :=
| ReadThrows
| ReadNull
| ReadString (raw : jsstring).

Inductive completion :=
| Returns (v : json)
| Throws
| NotModelled.

(** The [try] block of the [useState] initialiser:
    [raw ? JSON.parse(raw) : []], where [null] and the empty string are
    falsy. *)
Definition load_try (r : storage_read) : completion :=
  match r with
  | ReadThrows => Throws
  | ReadNull => Returns (JArr [])
  | ReadString [] => Returns (JArr [])
  | ReadString raw =>
      match JSON_parse raw with
      | Parsed v => Returns v
      | SyntaxError => Throws
      | OutOfFuel => NotModelled
      end
  end.

(** [try { ... } catch { return []; }] *)
Definition load (r : storage_read) : completion :=
  match load_try r with
  | Throws => Returns (JArr [])
  | c => c
  end.

(** The text the persistence effect hands to [localStorage.setItem]. *)
Definition save (v : json) : jsstring := JSON_stringify v.

(** A Note as the object [createNote] builds: the properties [id], [title],
    [content], [updatedAt], in this order, which the spread in [updateNote]
    keeps, and no other.  (An object read from a stored text that lists its
    properties in another order, or has further ones, keeps them in the
    store; it is not of this form.) *)
Definition json_of_note (n : Note) : json :=
  JObj [(lit "id", JStr (id n));
        (lit "title", JStr (title n));
        (lit "content", JStr (content n));
        (lit "updatedAt", JNum (updatedAt n))].

Definition json_of_notes (ns : list Note) : json :=
  JArr (map json_of_note ns).

(** The persisted layout: an array of objects with string fields [id],
    [title], [content] and a number field [updatedAt]. *)
Definition field (k : jsstring) (o : list (jsstring * json)) : option json :=
  option_map snd (find (key_is k) o).

Definition has_note_shape (v : json) : bool :=
  match v with
  | JObj o =>
      match field (lit "id") o, field (lit "title") o,
            field (lit "content") o, field (lit "updatedAt") o with
      | Some (JStr _), Some (JStr _), Some (JStr _), Some (JNum _ | JDbl _) => true
      | _, _, _, _ => false
      end
  | _ => false
  end.

Definition has_collection_shape (v : json) : bool :=
  match v with
  | JArr l => forallb has_note_shape l
  | _ => false
  end.

(** The Note that the store operations see in an object of that shape. *)
Definition note_of_json (v : json) : option Note :=
  match v with
  | JObj o =>
      match field (lit "id") o, field (lit "title") o,
            field (lit "content") o, field (lit "updatedAt") o with
      | Some (JStr i), Some (JStr t), Some (JStr c), Some (JNum u) =>
          Some (mkNote i t c u)
      | _, _, _, _ => None
      end
  | _ => None
  end.

Fixpoint notes_of_list (l : list json) : option (list Note) :=
  match l with
  | [] => Some []
  | v :: l' =>
      match note_of_json v, notes_of_list l' with
      | Some n, Some ns => Some (n :: ns)
      | _, _ => None
      end
  end.

Definition notes_of_json (v : json) : option (list Note) :=
  match v with
  | JArr l => notes_of_list l
  | _ => None
  end.

(** *** Values the store can hold *)

Definition str_wf (s : jsstring) : Prop := Forall (fun c => (c < 65536)%N) s.

(** Strings are sequences of 16-bit code units, numbers are integers every
    one of which is a Number (the data model has no other), and the members
    of an object are in the order an object lists them. *)
Fixpoint json_wf (v : json) : Prop :=
  match v with
  | JNull | JBool _ => True
  | JNum z => - Z.of_N max_safe_integer <= z <= Z.of_N max_safe_integer
  | JDbl _ => False
  | JStr s => str_wf s
  | JArr l => fold_right (fun x acc => json_wf x /\ acc) True l
  | JObj l =>
      keys_listed (keys l) /\
      fold_right (fun kv acc => str_wf (fst kv) /\ json_wf (snd kv) /\ acc) True l
  end.

Definition note_wf (n : Note) : Prop :=
  str_wf (id n) /\ str_wf (title n) /\ str_wf (content n) /\
  - Z.of_N max_safe_integer <= updatedAt n <= Z.of_N max_safe_integer.

Fixpoint size (v : json) : nat :=
  match v with
  | JArr l => S (fold_right (fun x acc => S (size x + acc)) O l)
  | JObj l => S (fold_right (fun kv acc => S (size (snd kv) + acc)) O l)
  | _ => 1%nat
  end.

Definition sizes (l : list json) : nat :=
  fold_right (fun x acc => S (size x + acc)) O l.

Definition member_sizes (l : list (jsstring * json)) : nat :=
  fold_right (fun kv acc => S (size (snd kv) + acc)) O l.

Definition all_wf (l : list json) : Prop :=
  fold_right (fun x acc => json_wf x /\ acc) True l.

Definition members_wf (l : list (jsstring * json)) : Prop :=
  fold_right (fun kv acc => str_wf (fst kv) /\ json_wf (snd kv) /\ acc) True l.

(** What may follow a numeral without being read as part of it. *)
Definition ends_numeral (rest : jsstring) : Prop :=
  match rest with
  | [] => True
  | c :: _ => (c = 44 \/ c = 93 \/ c = 125)%N
  end.

(** ** Editor session

    [NoteEditor] is rendered by [App] for the selected Note, keyed by its id.
    It holds the buffer ([title], [content]) and, through its second effect,
    one pending timer.  The model's clock counts milliseconds and
    [Date.now()] reads it; handlers, renders and effects take no time. *)

(** The pending [setTimeout]: when it is due, and what its callback
    [() => onChange({ title, content })] closed over.  [onChange] is
    [(patch) => updateNote(selectedNote.id, patch)] of the render of [App]
    that passed it down. *)
Record Timer := mkTimer {
  due : Z;
  t_target : jsstring;
  t_title : jsstring;
  t_content : jsstring
}.

Record Editor := mkEditor {
  e_key : jsstring;
  e_title : jsstring;
  e_content : jsstring;
  e_timer : Timer
}.

(** One call of the store's update operation made by a timer. *)
Record Commit := mkCommit {
  c_time : Z;
  c_id : jsstring;
  c_title : jsstring;
  c_content : jsstring
}.

Record World := mkWorld {
  appState : AppState;
  editor : option Editor;
  commits : list Commit
}.

(** [x || ''] on a string. *)
Definition or_empty (x : jsstring) : jsstring :=
  match x with
  | [] => []
  | _ => x
  end.

(** The second effect of [NoteEditor]:
    [setTimeout(() => onChange({ title, content }), 200)]. *)
Definition debounce_effect (t : Z) (key ti co : jsstring) : Timer :=
  {| due := t + 200; t_target := key; t_title := ti; t_content := co |}.

(** A [NoteEditor] is mounted for [n] at time [t]: the two [useState]
    initialisers, the first effect (it sets the state to the values it has)
    and the second effect. *)
Definition mount (t : Z) (n : Note) : Editor :=
  {| e_key := id n;
     e_title := or_empty (title n);
     e_content := or_empty (content n);
     e_timer := debounce_effect t (id n) (or_empty (title n)) (or_empty (content n)) |}.

(** The second effect runs again: its cleanup clears the pending timer and
    a new one is set. *)
Definition rearm (t : Z) (e : Editor) : Editor :=
  {| e_key := e_key e;
     e_title := e_title e;
     e_content := e_content e;
     e_timer := debounce_effect t (e_key e) (e_title e) (e_content e) |}.

(** [App] renders at time [t].  Without a selected Note the editor, if any,
    is unmounted and its cleanup clears the timer.  An editor with the key
    of the selected Note is kept; the [onChange] it receives is a new
    function, a dependency of the second effect, which therefore runs again.
    Otherwise a new editor is mounted. *)
Definition render_app (t : Z) (st : AppState) (prev : option Editor)
  : option Editor :=
  match selectedNote st with
  | None => None
  | Some n =>
      match prev with
      | Some e => if str_eq_dec (e_key e) (id n) then Some (rearm t e)
                  else Some (mount t n)
      | None => Some (mount t n)
      end
  end.

Inductive Field := FTitle | FContent.

Inductive Event :=
| Edit (f : Field) (value : jsstring)
| Select (i : jsstring)
| Create (fresh : jsstring)
| Delete (i : jsstring)
| SetQuery (q : jsstring).

(** [setTitle] / [setContent] from an input's [onChange]: a value equal to
    the state is dropped; any other is stored, [NoteEditor] renders again
    and the second effect, which depends on the buffer, runs again. *)
Definition edit (t : Z) (f : Field) (value : jsstring) (e : Editor) : Editor :=
  match f with
  | FTitle =>
      if str_eq_dec (e_title e) value then e
      else rearm t (mkEditor (e_key e) value (e_content e) (e_timer e))
  | FContent =>
      if str_eq_dec (e_content e) value then e
      else rearm t (mkEditor (e_key e) (e_title e) value (e_timer e))
  end.

Definition sel_eq_dec : forall a b : option jsstring, {a = b} + {a <> b}.
Proof. decide equality. apply str_eq_dec. Defined.

(** One user event at time [t]. *)
Definition handle (t : Z) (ev : Event) (w : World) : World :=
  match ev with
  | Edit f value =>
      {| appState := appState w;
         editor := option_map (edit t f value) (editor w);
         commits := commits w |}
  | Select i =>
      if sel_eq_dec (selectedId (appState w)) (Some i) then w
      else
        let st := selectNote (Some i) (appState w) in
        {| appState := st; editor := render_app t st (editor w); commits := commits w |}
  | Create fresh =>
      let st := snd (createNote fresh t (appState w)) in
      {| appState := st; editor := render_app t st (editor w); commits := commits w |}
  | Delete i =>
      let st := deleteNote i (appState w) in
      {| appState := st; editor := render_app t st (editor w); commits := commits w |}
  | SetQuery q =>
      if str_eq_dec (query (appState w)) q then w
      else
        let st := {| notes := notes (appState w); selectedId := selectedId (appState w);
                     query := q |} in
        {| appState := st; editor := render_app t st (editor w); commits := commits w |}
  end.

(** The pending timer fires: its callback calls [updateNote], [App] renders
    again. *)
Definition fire (e : Editor) (w : World) : World :=
  let tm := e_timer e in
  let st := updateNote (due tm) (t_target tm)
              (mkPatch (Some (t_title tm)) (Some (t_content tm))) (appState w) in
  {| appState := st;
     editor := render_app (due tm) st (editor w);
     commits := commits w ++
                [mkCommit (due tm) (t_target tm) (t_title tm) (t_content tm)] |}.

(** Time passes up to [t], timers due by then fire in turn. *)
Fixpoint elapse_fuel (fuel : nat) (t : Z) (w : World) : World :=
  match fuel with
  | O => w
  | S fuel' =>
      match editor w with
      | Some e => if due (e_timer e) <=? t then elapse_fuel fuel' t (fire e w) else w
      | None => w
      end
  end.

(** From [t0] on, with no timer overdue at [t0]: successive timers are 200
    apart, so no more than [t - t0 + 1] of them fire by [t]. *)
Definition elapse (t0 t : Z) (w : World) : World :=
  elapse_fuel (Z.to_nat (t - t0) + 1) t w.

(** A session: events with their times, in order; before each event the
    timers due by then have fired. *)
Fixpoint session (t0 : Z) (evs : list (Z * Event)) (w : World) : World :=
  match evs with
  | [] => w
  | (t, ev) :: evs' => session t evs' (handle t ev (elapse t0 t w))
  end.

(** The editor [e] of [w] is bound to the selected Note [n], and its timer
    closed over its buffer. *)
Definition bound (w : World) (e : Editor) (n : Note) : Prop :=
  editor w = Some e /\
  selectedNote (appState w) = Some n /\
  e_key e = id n /\
  e_timer e = debounce_effect (due (e_timer e) - 200) (e_key e) (e_title e) (e_content e).

(** An editor is mounted exactly when a Note is selected, and it is bound
    to that Note. *)
Definition world_ok (w : World) : Prop :=
  match editor w with
  | Some e => exists n, bound w e n
  | None => selectedNote (appState w) = None
  end.

(** The commits of [k] timers in a row, the first due at [d]. *)
Definition periodic_commits (d : Z) (i ti co : jsstring) (k : nat) : list Commit :=
  map (fun j => mkCommit (d + 200 * Z.of_nat j) i ti co) (seq 0 k).

(** The empty application: no Notes, no selection, no query, no editor. *)
Definition empty_world : World :=
  {| appState := mkApp [] None []; editor := None; commits := [] |}.

(** The scenario of the debounce property: a Note is created and bound 100
    time units before the first edit; E1 at 0 and E2 at 100 type into its
    title. *)
Definition two_edits : list (Z * Event) :=
  [(-100, Create (lit "n1"));
   (0, Edit FTitle (lit "A"));
   (100, Edit FTitle (lit "AB"))].

(** ** Patches in sequence *)

(** [{ ...p1, ...p2 }]: the one patch two spreads in a row amount to. *)
Definition patch_over (p1 p2 : Patch) : Patch :=
  {| p_title := match p_title p2 with Some t => Some t | None => p_title p1 end;
     p_content := match p_content p2 with Some c => Some c | None => p_content p1 end |}.

(** ** Sidebar and top bar *)

(** [n.title?.trim() || 'Untitled'], the text of a list item. *)
Definition display_title (n : Note) : jsstring :=
  match trim (title n) with
  | [] => lit "Untitled"
  | t => t
  end.

(** [n.title || 'Untitled'], the tooltip of a list item. *)
Definition tooltip (n : Note) : jsstring :=
  match title n with
  | [] => lit "Untitled"
  | t => t
  end.

(** [n.content?.slice(0, 80) || 'No content'] *)
Definition snippet (n : Note) : jsstring :=
  match firstn 80 (content n) with
  | [] => lit "No content"
  | s => s
  end.

(** [k > 1 ? 's' : ''] *)
Definition plural (k : Z) : jsstring := if 1 <? k then lit "s" else [].

(** [timeAgo(ts)], with [now] what [Date.now()] answers.  The code computes
    in binary64, the embedding in integers.  They agree where [now], [ts] and
    [now - ts] are of magnitude up to 2^53 - 1: the difference is then exact,
    and [Math.floor(x / c)] is the quotient rounded down, because a quotient
    of such an integer by 1000, when it is not an integer, is further from the
    integers than the division rounds.  Beyond that range the code rounds and
    the embedding does not. *)
Definition timeAgo (now ts : Z) : jsstring :=
  let diff := now - ts in
  let s := diff / 1000 in
  if s <? 60 then lit "just now"
  else
    let m := s / 60 in
    if m <? 60 then NumberToString m ++ lit " min" ++ plural m ++ lit " ago"
    else
      let h := m / 60 in
      if h <? 24 then NumberToString h ++ lit " hour" ++ plural h ++ lit " ago"
      else
        let d := h / 24 in
        NumberToString d ++ lit " day" ++ plural d ++ lit " ago".

(** *** Dates *)

(** [new Date(t)]: TimeClip keeps a time value within 8.64e15 milliseconds of
    the epoch; any other makes an invalid date. *)
Definition valid_time (t : Z) : bool := Z.abs t <=? 8640000000000000.

Definition msPerDay : Z := 86400000.

(** DayFromYear of ECMA-262: the day number of the first day of year [y]. *)
Definition DayFromYear (y : Z) : Z :=
  365 * (y - 1970) + (y - 1969) / 4 - (y - 1901) / 100 + (y - 1601) / 400.

(** YearFromTime, for the day [d]: the largest [y] with
    [DayFromYear y <= d].  A year has 365.2425 days on average, which places
    it next to [1970 + 400 d / 146097]. *)
Definition YearFromDay (d : Z) : Z :=
  let y := 1970 + 400 * d / 146097 in
  if DayFromYear (y + 1) <=? d then y + 1
  else if DayFromYear y <=? d then y
  else y - 1.

(** MonthFromTime and DateFromTime: month (from 0) and day of the month
    (from 1) of the day [d] of a year, [leap] being 1 in a leap year. *)
Definition month_and_date (d leap : Z) : Z * Z :=
  if d <? 31 then (0, d + 1)
  else if d <? 59 + leap then (1, d - 30)
  else if d <? 90 + leap then (2, d - 58 - leap)
  else if d <? 120 + leap then (3, d - 89 - leap)
  else if d <? 151 + leap then (4, d - 119 - leap)
  else if d <? 181 + leap then (5, d - 150 - leap)
  else if d <? 212 + leap then (6, d - 180 - leap)
  else if d <? 243 + leap then (7, d - 211 - leap)
  else if d <? 273 + leap then (8, d - 242 - leap)
  else if d <? 304 + leap then (9, d - 272 - leap)
  else if d <? 334 + leap then (10, d - 303 - leap)
  else (11, d - 333 - leap).

(** A number that is not negative, in at least [w] digits. *)
Definition padded (w : nat) (z : Z) : jsstring :=
  let ds := NumberToString z in
  repeat 48%N (w - List.length ds) ++ ds.

(** [Date.prototype.toISOString] of a valid date with time value [t]:
    [YYYY-MM-DDTHH:mm:ss.sssZ], the year with a sign and six digits when it
    is not between 0 and 9999. *)
Definition toISOString (t : Z) : jsstring :=
  let day := t / msPerDay in
  let y := YearFromDay day in
  let leap := DayFromYear (y + 1) - DayFromYear y - 365 in
  let (m, d) := month_and_date (day - DayFromYear y) leap in
  let year :=
    if (0 <=? y) && (y <=? 9999) then padded 4 y
    else (if y <? 0 then 45%N else 43%N) :: padded 6 (Z.abs y) in
  year ++ 45%N :: padded 2 (m + 1) ++ 45%N :: padded 2 d ++
  84%N :: padded 2 (t / 3600000 mod 24) ++
  58%N :: padded 2 (t / 60000 mod 60) ++
  58%N :: padded 2 (t / 1000 mod 60) ++
  46%N :: padded 3 (t mod 1000) ++ [90%N].

(** One [<li>] of the list that [Sidebar] renders: its key, whether it has
    the class [active], the title, tool tip, snippet, [dateTime] attribute
    and relative time it shows. *)
Record Row := mkRow {
  row_key : jsstring;
  row_active : bool;
  row_title : jsstring;
  row_tooltip : jsstring;
  row_snippet : jsstring;
  row_dateTime : jsstring;
  row_time : jsstring
}.

Definition row_of (now : Z) (sel : option jsstring) (n : Note) : Row :=
  {| row_key := id n;
     row_active := strict_eq_sel sel (id n);
     row_title := display_title n;
     row_tooltip := tooltip n;
     row_snippet := snippet n;
     row_dateTime := toISOString (updatedAt n);
     row_time := timeAgo now (updatedAt n) |}.

(** The callback of [notes.map]: [new Date(n.updatedAt).toISOString()]
    throws a RangeError when the date is invalid, and nothing is rendered
    then ([None]). *)
Definition Sidebar_row (now : Z) (sel : option jsstring) (n : Note) : option Row :=
  if valid_time (updatedAt n) then Some (row_of now sel n) else None.

(** [notes.map(callback)], left at the first exception. *)
Fixpoint render_all (callback : Note -> option Row) (l : list Note)
  : option (list Row) :=
  match l with
  | [] => Some []
  | n :: l' =>
      match callback n with
      | None => None
      | Some r =>
          match render_all callback l' with
          | None => None
          | Some rs => Some (r :: rs)
          end
      end
  end.

Section Panels.

Variable toLowerCase : jsstring -> jsstring.

(** The list items of [Sidebar], over the [filteredNotes] that [App] passes
    down; [now] is what [Date.now()] answers during the render. *)
Definition Sidebar_rows (now : Z) (st : AppState) : option (list Row) :=
  render_all (Sidebar_row now (selectedId st)) (filteredNotes toLowerCase st).

(** [notes.length === 0 && <li className="empty">...</li>] in [Sidebar]. *)
Definition Sidebar_empty (st : AppState) : bool :=
  (List.length (filteredNotes toLowerCase st) =? 0)%nat.

End Panels.

(** [total={notes.length}], shown by [TopBar] as "Total: N". *)
Definition TopBar_total (st : AppState) : nat := List.length (notes st).

(** White space only, as [trim] sees it. *)
Definition blank (ws : jsstring) : Prop :=
  Forall (fun c => is_white_space c = true) ws.

(** ** What the search is to compute *)





(** ** Rate of commits *)

(** [b] is committed at least 200 time units after [a]. *)
Definition apart (a b : Commit) : Prop := c_time a + 200 <= c_time b.

(** At clock [t]: the commits made so far are [apart] from one another,
    none is later than [t], and the pending timer, if any, is due 200 or more
    after each of them. *)
Definition paced (t : Z) (w : World) : Prop :=
  StronglySorted apart (commits w) /\
  (forall c, In c (commits w) -> c_time c <= t) /\
  (forall e, editor w = Some e ->
             forall c, In c (commits w) -> c_time c + 200 <= due (e_timer e)).

(** The application as it starts with the collection [ns]: nothing selected,
    no query, no editor. *)
Definition start (ns : list Note) : World :=
  {| appState := mkApp ns None []; editor := None; commits := [] |}.

(** ** Values of a run the store can persist *)

Definition patch_wf (p : Patch) : Prop :=
  match p_title p with Some t => str_wf t | None => True end /\
  match p_content p with Some c => str_wf c | None => True end.

Definition safe_time (t : Z) : Prop :=
  - Z.of_N max_safe_integer <= t <= Z.of_N max_safe_integer.

Definition op_wf (op : Op) : Prop :=
  match op with
  | OpCreate fresh now => str_wf fresh /\ safe_time now
  | OpUpdate now _ p => patch_wf p /\ safe_time now
  | OpDelete _ => True
  end.

(** ** Sample data *)

Definition dangling_store : AppState :=
  {| notes := [mkNote (lit "a") (lit "Shopping") (lit "milk") 100];
     selectedId := Some (lit "gone");
     query := [] |}.

Definition two_notes : AppState :=
  {| notes := [mkNote (lit "b") (lit "Work") [] 200;
               mkNote (lit "a") (lit "Shopping") [] 100];
     selectedId := None;
     query := [] |}.

Definition sample_run1 : list Op :=
  [OpUpdate 300 (lit "a") (mkPatch (Some (lit "Groceries")) None);
   OpCreate (lit "c") 300].

Definition sample_run2 : list Op :=
  [OpDelete (lit "b"); OpUpdate 450 (lit "c") (mkPatch None (Some (lit "x")))].

Definition sample_notes : list Note :=
  [mkNote (lit "n-2") (lit "Work") (lit "call back") 1730000000200;
   mkNote (lit "n-1") (34 :: 92 :: 10 :: 55357 :: 56832 :: 55357 :: lit "Shop")%N
          [] 1730000000100].

Definition selecting_a : AppState := selectNote (Some (lit "a")) two_notes.

(** The world after the two edits of [two_edits], its editor and the Note
    it is bound to. *)
Definition typing_world : World := session (-100) two_edits empty_world.

Definition typing_editor : Editor :=
  mkEditor (lit "n1") (lit "AB") [] (mkTimer 300 (lit "n1") (lit "AB") []).

Definition typing_note : Note := mkNote (lit "n1") (lit "Untitled note") [] (-100).

(** A first run of the store, from the empty collection. *)
Definition first_run : list Op :=
  [OpCreate (lit "n1") 1730000000000;
   OpUpdate 1730000000200 (lit "n1")
     (mkPatch (Some (lit "Groceries")) (Some (lit "milk")));
   OpCreate (lit "n2") 1730000000300;
   OpDelete (lit "n3")].

(** A session with a pause long enough for two timers to fire. *)
Definition paused_session : list (Z * Event) :=
  [(-100, Create (lit "n1"));
   (0, Edit FTitle (lit "A"));
   (500, Edit FTitle (lit "AB"))].

(** * Properties *)

(** ** Basic facts *)

Lemma id_is_true i n : id_is i n = true <-> id n = i.
Proof. unfold id_is. destruct (str_eq_dec (id n) i); split; congruence. Qed.

Lemma id_is_false i n : id_is i n = false <-> id n <> i.
Proof. unfold id_is. destruct (str_eq_dec (id n) i); split; congruence. Qed.

Lemma strict_eq_sel_true sel i : strict_eq_sel sel i = true <-> sel = Some i.
Proof.
  unfold strict_eq_sel. destruct sel as [s|]; [|split; discriminate].
  destruct (str_eq_dec s i); split; congruence.
Qed.

Lemma filter_absent i (l : list Note) :
  (forall n, In n l -> id n <> i) ->
  filter (fun n => negb (id_is i n)) l = l.
Proof.
  induction l as [|a l IH]; intros H; simpl; [reflexivity|].
  assert (Ha : id_is i a = false) by (apply id_is_false, H; now left).
  rewrite Ha; simpl. f_equal. apply IH. intros n Hn. apply H. now right.
Qed.

Lemma find_id_absent i (l : list Note) :
  (forall n, In n l -> id n <> i) -> find (id_is i) l = None.
Proof.
  induction l as [|a l IH]; intros H; simpl; [reflexivity|].
  assert (Ha : id_is i a = false) by (apply id_is_false, H; now left).
  rewrite Ha. apply IH. intros n Hn. apply H. now right.
Qed.

(** ** createNote *)

Lemma selectedNote_createNote fresh now st :
  selectedNote (snd (createNote fresh now st)) = Some (newNote fresh now).
Proof.
  unfold selectedNote; simpl.
  assert (H : id_is fresh (newNote fresh now) = true) by now apply id_is_true.
  now rewrite H.
Qed.

(** C2 (as amended): [createNote] hands nothing back ([undefined]); the
    identifier of the Note it inserted is the new selection, and that Note,
    with the default title and empty content, is the head of the collection,
    in front of the former Notes. *)
Theorem createNote_selects_inserted (fresh : jsstring) (now : Z) (st : AppState) :
  fst (createNote fresh now st) = Undefined /\
  notes (snd (createNote fresh now st)) = newNote fresh now :: notes st /\
  id (newNote fresh now) = fresh /\
  selectedId (snd (createNote fresh now st)) = Some fresh /\
  selectedNote (snd (createNote fresh now st)) = Some (newNote fresh now).
Proof.
  repeat split. apply selectedNote_createNote.
Qed.

(** C2 as stated does not hold: on the empty store, with [cryptoRandomId()]
    answering "n1", the inserted Note has id "n1" and the call returns
    [undefined], not that id. *)
Lemma createNote_returns_no_id :
  let r := createNote (lit "n1") 1000 (mkApp [] None []) in
  map id (notes (snd r)) = [lit "n1"] /\
  fst r = Undefined /\
  fst r <> RetString (lit "n1").
Proof. simpl. repeat split. discriminate. Qed.

(** ** deleteNote *)

Lemma deleteNote_In i st n :
  In n (notes (deleteNote i st)) <-> In n (notes st) /\ id n <> i.
Proof.
  unfold deleteNote; simpl. rewrite filter_In.
  rewrite negb_true_iff, id_is_false. tauto.
Qed.

Lemma deleteNote_absent i st :
  (forall n, In n (notes st) -> id n <> i) ->
  notes (deleteNote i st) = notes st.
Proof. intros H. unfold deleteNote; simpl. now apply filter_absent. Qed.

Lemma deleteNote_removes_one i st l1 n l2 :
  notes st = l1 ++ n :: l2 -> id n = i ->
  (forall m, In m (l1 ++ l2) -> id m <> i) ->
  notes (deleteNote i st) = l1 ++ l2.
Proof.
  intros E Hn Hrest. unfold deleteNote; simpl. rewrite E.
  rewrite filter_app; simpl.
  assert (Hi : id_is i n = true) by now apply id_is_true.
  rewrite Hi; simpl. rewrite <- filter_app. now apply filter_absent.
Qed.

Lemma selectedNote_cleared st :
  selectedId st = None -> selectedNote st = None.
Proof. unfold selectedNote. now intros ->. Qed.

(** C5: [deleteNote i] keeps exactly the Notes whose id differs from [i]
    (with a single Note of that id, the collection is the same with that Note
    taken out); it leaves the collection as it is when no Note has that id,
    and the whole state when moreover [i] is not the selection; when [i] is
    the selection the selection becomes [null] and [selectedNote] is then
    [null]; any other selection is left as it was.  The function is total:
    no call fails. *)
Theorem deleteNote_spec (i : jsstring) (st : AppState) :
  (forall n, In n (notes (deleteNote i st)) <-> In n (notes st) /\ id n <> i) /\
  (forall l1 n l2, notes st = l1 ++ n :: l2 -> id n = i ->
     (forall m, In m (l1 ++ l2) -> id m <> i) ->
     notes (deleteNote i st) = l1 ++ l2) /\
  ((forall n, In n (notes st) -> id n <> i) ->
     notes (deleteNote i st) = notes st /\
     (selectedId st <> Some i -> deleteNote i st = st)) /\
  (selectedId st = Some i ->
     selectedId (deleteNote i st) = None /\ selectedNote (deleteNote i st) = None) /\
  (selectedId st <> Some i ->
     selectedId (deleteNote i st) = selectedId st).
Proof.
  split; [intros n; apply deleteNote_In|].
  split; [apply deleteNote_removes_one|].
  split.
  { intros Habs. split; [now apply deleteNote_absent|].
    intros Hsel. unfold deleteNote. rewrite (filter_absent i _ Habs).
    destruct (strict_eq_sel (selectedId st) i) eqn:H.
    - apply strict_eq_sel_true in H. contradiction.
    - now destruct st. }
  split.
  - intros Hsel.
    assert (E : selectedId (deleteNote i st) = None).
    { unfold deleteNote; simpl.
      assert (H : strict_eq_sel (selectedId st) i = true)
        by now apply strict_eq_sel_true.
      now rewrite H. }
    split; [exact E | now apply selectedNote_cleared].
  - intros Hsel. unfold deleteNote; simpl.
    destruct (strict_eq_sel (selectedId st) i) eqn:H; [|reflexivity].
    apply strict_eq_sel_true in H. contradiction.
Qed.

(** C9: when the selection is [i] and no Note has id [i] (a dangling
    selection), [deleteNote i] sets the selection to [null] and leaves the
    collection, and the query, as they were. *)
Theorem deleteNote_clears_dangling_selection (i : jsstring) (st : AppState) :
  selectedId st = Some i ->
  (forall n, In n (notes st) -> id n <> i) ->
  selectedNote st = None /\
  deleteNote i st = {| notes := notes st; selectedId := None; query := query st |}.
Proof.
  intros Hsel Habs. split.
  - unfold selectedNote. rewrite Hsel. now apply find_id_absent.
  - unfold deleteNote.
    assert (H : strict_eq_sel (selectedId st) i = true)
      by now apply strict_eq_sel_true.
    rewrite H. f_equal. now apply filter_absent.
Qed.

Lemma deleteNote_clears_dangling_selection_witness :
  selectedNote dangling_store = None /\
  deleteNote (lit "gone") dangling_store =
    {| notes := notes dangling_store; selectedId := None; query := [] |}.
Proof.
  apply (deleteNote_clears_dangling_selection (lit "gone") dangling_store).
  - reflexivity.
  - intros n [<-|[]]. vm_compute. discriminate.
Defined.

(** ** updateNote *)

Lemma updateNote_nth now i patch st k :
  nth_error (notes (updateNote now i patch st)) k =
  option_map (fun n => if id_is i n then merge n patch now else n)
             (nth_error (notes st) k).
Proof. unfold updateNote; simpl. apply nth_error_map. Qed.

Lemma updateNote_absent now i patch st :
  (forall n, In n (notes st) -> id n <> i) ->
  updateNote now i patch st = st.
Proof.
  intros H. unfold updateNote. destruct st as [l s q]; simpl in *. f_equal.
  induction l as [|a l IH]; simpl; [reflexivity|].
  assert (Ha : id_is i a = false) by (apply id_is_false, H; now left).
  rewrite Ha. f_equal. apply IH. intros n Hn. apply H. now right.
Qed.

(** C6: [updateNote now i patch] rewrites the collection position by
    position; a Note whose id is [i] keeps its id, takes the title and the
    content of the patch where the patch has them and keeps its own where it
    has not, and takes [now] as [updatedAt]; every other Note stays as it is;
    selection and query stay as they are; and when no Note has id [i] the
    whole state is unchanged.  The function is total: no call fails. *)
Theorem updateNote_spec (now : Z) (i : jsstring) (patch : Patch) (st : AppState) :
  List.length (notes (updateNote now i patch st)) = List.length (notes st) /\
  (forall k n, nth_error (notes st) k = Some n -> id n = i ->
     exists n', nth_error (notes (updateNote now i patch st)) k = Some n' /\
       id n' = i /\
       updatedAt n' = now /\
       (forall t, p_title patch = Some t -> title n' = t) /\
       (p_title patch = None -> title n' = title n) /\
       (forall c, p_content patch = Some c -> content n' = c) /\
       (p_content patch = None -> content n' = content n)) /\
  (forall k n, nth_error (notes st) k = Some n -> id n <> i ->
     nth_error (notes (updateNote now i patch st)) k = Some n) /\
  selectedId (updateNote now i patch st) = selectedId st /\
  query (updateNote now i patch st) = query st /\
  ((forall n, In n (notes st) -> id n <> i) -> updateNote now i patch st = st).
Proof.
  split; [unfold updateNote; simpl; apply length_map|].
  split.
  { intros k n Hk Hn. rewrite updateNote_nth, Hk; simpl.
    assert (Hi : id_is i n = true) by now apply id_is_true.
    rewrite Hi. eexists; split; [reflexivity|].
    unfold merge; simpl.
    repeat split; try assumption.
    - intros t Ht. now rewrite Ht.
    - intros Ht. now rewrite Ht.
    - intros c Hc. now rewrite Hc.
    - intros Hc. now rewrite Hc. }
  split.
  { intros k n Hk Hn. rewrite updateNote_nth, Hk; simpl.
    assert (Hi : id_is i n = false) by now apply id_is_false.
    now rewrite Hi. }
  repeat split. apply updateNote_absent.
Qed.

(** ** Invariants of runs *)

Lemma ids_createNote fresh now st :
  ids (snd (createNote fresh now st)) = fresh :: ids st.
Proof. reflexivity. Qed.

Lemma ids_updateNote now i patch st :
  ids (updateNote now i patch st) = ids st.
Proof.
  unfold ids, updateNote; simpl. rewrite map_map. apply map_ext.
  intros n. now destruct (id_is i n).
Qed.

Lemma unique_ids_filter (keep : Note -> bool) (ns : list Note) :
  NoDup (map id ns) -> NoDup (map id (filter keep ns)).
Proof.
  intros Hnd. induction ns as [|n ns IH]; simpl; [constructor|].
  inversion Hnd as [|x xs Hnin Hnd']; subst.
  destruct (keep n); simpl; [|now apply IH].
  constructor; [|now apply IH].
  intros Hin. apply Hnin. apply in_map_iff in Hin as (m & Hm & Hin).
  apply in_map_iff. exists m. split; [assumption|].
  apply filter_In in Hin. tauto.
Qed.

Lemma apply_op_unique_ids op st :
  match op with OpCreate fresh _ => ~ In fresh (ids st) | _ => True end ->
  NoDup (ids st) -> NoDup (ids (apply_op op st)).
Proof.
  destruct op as [fresh now|now i patch|i]; cbn [apply_op]; intros Hf Hnd.
  - rewrite ids_createNote. now constructor.
  - now rewrite ids_updateNote.
  - unfold ids, deleteNote; simpl. now apply unique_ids_filter.
Qed.

Lemma run_ops_unique_ids ops : forall st,
  NoDup (ids st) -> fresh_ids ops st -> NoDup (ids (run_ops ops st)).
Proof.
  induction ops as [|op ops IH]; intros st Hnd Hf; simpl; [assumption|].
  destruct Hf as [Hf1 Hf2]. apply IH; [|assumption].
  now apply apply_op_unique_ids.
Qed.

Lemma run_ops_app ops1 ops2 st :
  run_ops (ops1 ++ ops2) st = run_ops ops2 (run_ops ops1 st).
Proof. unfold run_ops. apply fold_left_app. Qed.

Lemma nondecreasing_from_weaken t t' l :
  t' <= t -> nondecreasing_from t l -> nondecreasing_from t' l.
Proof. destruct l; simpl; [trivial|]. intros H [H1 H2]. split; [lia|assumption]. Qed.

Lemma same_id_same_note (l : list Note) n n' :
  NoDup (map id l) -> In n l -> In n' l -> id n' = id n -> n' = n.
Proof.
  induction l as [|a l IH]; [contradiction|].
  simpl. intros Hnd Hn Hn' Hid.
  inversion Hnd as [|x xs Hnin Hnd']; subst.
  destruct Hn as [->|Hn], Hn' as [->|Hn']; trivial.
  - exfalso. apply Hnin. rewrite <- Hid. now apply in_map.
  - exfalso. apply Hnin. rewrite Hid. now apply in_map.
  - now apply IH.
Qed.

Lemma fresh_ids_app ops1 : forall ops2 st,
  fresh_ids (ops1 ++ ops2) st <->
  fresh_ids ops1 st /\ fresh_ids ops2 (run_ops ops1 st).
Proof.
  induction ops1 as [|op ops1 IH]; intros ops2 st; simpl; [tauto|].
  rewrite IH. tauto.
Qed.

Lemma stamped_by_weaken t t' st :
  t <= t' -> stamped_by t st -> stamped_by t' st.
Proof. intros H Hs n Hn. apply Hs in Hn. lia. Qed.

Lemma stamped_createNote t fresh now st :
  stamped_by t st -> t <= now -> stamped_by now (snd (createNote fresh now st)).
Proof.
  intros Hs Ht n [<-|Hn]; simpl; [lia|]. apply Hs in Hn. lia.
Qed.

Lemma stamped_updateNote t now i patch st :
  stamped_by t st -> t <= now -> stamped_by now (updateNote now i patch st).
Proof.
  intros Hs Ht n Hn. apply in_map_iff in Hn as (m & <- & Hm).
  apply Hs in Hm. destruct (id_is i m); simpl; lia.
Qed.

Lemma stamped_deleteNote t i st :
  stamped_by t st -> stamped_by t (deleteNote i st).
Proof. intros Hs n Hn. apply deleteNote_In in Hn as [Hn _]. now apply Hs. Qed.

(** After a first part of a run, the clock has reached every stored
    timestamp, and the rest of the run reads it no earlier. *)
Lemma stamped_split ops1 : forall ops2 t st,
  stamped_by t st ->
  nondecreasing_from t (readings (ops1 ++ ops2)) ->
  exists t1, stamped_by t1 (run_ops ops1 st) /\
             nondecreasing_from t1 (readings ops2).
Proof.
  induction ops1 as [|op ops1 IH]; intros ops2 t st Hs Hc.
  - exists t. now split.
  - destruct op as [fresh now|now i patch|i]; simpl in Hc |- *.
    + destruct Hc as [Ht Hc]. apply (IH ops2 now); [|exact Hc].
      now apply stamped_createNote with t.
    + destruct Hc as [Ht Hc]. apply (IH ops2 now); [|exact Hc].
      now apply stamped_updateNote with t.
    + apply (IH ops2 t); [|exact Hc]. now apply stamped_deleteNote.
Qed.

(** A Note found after a run was there before it, untouched, or carries a
    reading taken during the run. *)
Lemma later_or_same ops : forall t st n',
  nondecreasing_from t (readings ops) ->
  In n' (notes (run_ops ops st)) ->
  In n' (notes st) \/ t <= updatedAt n'.
Proof.
  induction ops as [|op ops IH]; intros t st n' Hc Hn'; [now left|].
  destruct op as [fresh now|now i patch|i]; simpl in Hc, Hn'.
  - destruct Hc as [Ht Hc].
    destruct (IH now _ n' Hc Hn') as [[<-|H]|H]; simpl; auto; right; lia.
  - destruct Hc as [Ht Hc].
    destruct (IH now _ n' Hc Hn') as [H|H]; [|right; lia].
    apply in_map_iff in H as (m & <- & Hm).
    destruct (id_is i m); [right; simpl; lia | now left].
  - destruct (IH t _ n' Hc Hn') as [H|H]; [|now right].
    apply deleteNote_In in H as [H _]. now left.
Qed.

(** C8 (as amended): start from a collection with pairwise distinct ids, no
    Note of which is stamped later than [t]; run [ops1] and then [ops2],
    where every created id is absent from the collection when it is handed
    out, and the readings of the clock are not earlier than [t] and do not
    decrease.  Then the ids of the collection reached are pairwise distinct,
    and a Note present after [ops1] is not stamped later than the Note with
    its id present after [ops2]. *)
Theorem run_ops_invariants (st : AppState) (t : Z) (ops1 ops2 : list Op) :
  NoDup (ids st) ->
  fresh_ids (ops1 ++ ops2) st ->
  stamped_by t st ->
  nondecreasing_from t (readings (ops1 ++ ops2)) ->
  NoDup (ids (run_ops (ops1 ++ ops2) st)) /\
  (forall n n',
     In n (notes (run_ops ops1 st)) ->
     In n' (notes (run_ops (ops1 ++ ops2) st)) ->
     id n' = id n ->
     updatedAt n <= updatedAt n').
Proof.
  intros Hnd Hf Hs Hc. split; [now apply run_ops_unique_ids|].
  intros n n' Hn Hn' Hid.
  destruct (stamped_split ops1 ops2 t st Hs Hc) as (t1 & Hs1 & Hc2).
  rewrite run_ops_app in Hn'.
  destruct (later_or_same ops2 t1 _ n' Hc2 Hn') as [H|H].
  - apply fresh_ids_app in Hf as [Hf1 _].
    pose proof (run_ops_unique_ids ops1 st Hnd Hf1) as Hnd1.
    rewrite (same_id_same_note _ _ _ Hnd1 Hn H Hid). lia.
  - apply Hs1 in Hn. lia.
Qed.

Lemma run_ops_invariants_witness :
  NoDup (ids (run_ops (sample_run1 ++ sample_run2) two_notes)) /\
  (forall n n',
     In n (notes (run_ops sample_run1 two_notes)) ->
     In n' (notes (run_ops (sample_run1 ++ sample_run2) two_notes)) ->
     id n' = id n ->
     updatedAt n <= updatedAt n').
Proof.
  apply (run_ops_invariants two_notes 200 sample_run1 sample_run2).
  - repeat constructor; simpl; intuition discriminate.
  - simpl. intuition discriminate.
  - intros n [<-|[<-|[]]]; simpl; lia.
  - simpl. lia.
Defined.

(** C8 as stated does not hold: the ids of the starting collection are
    distinct, nothing is created, the single reading of the clock is a
    non-decreasing sequence; the Note "a" is stamped 1000 before the update
    and 500 after it. *)
Lemma updatedAt_can_decrease :
  let st := mkApp [mkNote (lit "a") (lit "memo") [] 1000] None [] in
  let ops := [OpUpdate 500 (lit "a") (mkPatch None None)] in
  NoDup (ids st) /\
  fresh_ids ops st /\
  clock_nondecreasing (readings ops) /\
  notes st = [mkNote (lit "a") (lit "memo") [] 1000] /\
  notes (run_ops ops st) = [mkNote (lit "a") (lit "memo") [] 500] /\
  500 < 1000.
Proof.
  cbv zeta. repeat split.
  repeat constructor. simpl. tauto.
Qed.

(** ** Array.prototype.sort *)

Section Sorting.

Context {A : Type}.
Variable comparefn : A -> A -> Z.

Hypothesis before_trans : forall x y z,
  before comparefn x y -> before comparefn y z -> before comparefn x z.
Hypothesis before_total : forall x y,
  before comparefn x y \/ before comparefn y x.

Lemma insert_perm x l : Permutation (insert comparefn x l) (x :: l).
Proof.
  induction l as [|y l IH]; simpl; [reflexivity|].
  destruct (comparefn x y <=? 0); [reflexivity|].
  rewrite IH. apply perm_swap.
Qed.

Lemma Array_sort_perm l : Permutation (Array_sort comparefn l) l.
Proof.
  induction l as [|x l IH]; simpl; [reflexivity|].
  rewrite insert_perm. now constructor.
Qed.

Lemma insert_sorted x l :
  StronglySorted (before comparefn) l -> StronglySorted (before comparefn) (insert comparefn x l).
Proof.
  induction l as [|y l IH]; simpl; intros Hs.
  - repeat constructor.
  - inversion Hs as [|y' l' Hs' Hall]; subst.
    destruct (comparefn x y <=? 0) eqn:E.
    + constructor; [assumption|]. apply Z.leb_le in E.
      constructor; [exact E|].
      eapply Forall_impl; [|exact Hall]. intros z Hz.
      now apply before_trans with y.
    + constructor; [now apply IH|].
      apply Z.leb_gt in E.
      assert (Hyx : before comparefn y x).
      { destruct (before_total x y) as [H|H]; [unfold before in H; lia|exact H]. }
      eapply Permutation_Forall; [symmetry; apply insert_perm|].
      now constructor.
Qed.

Lemma Array_sort_sorted l : StronglySorted (before comparefn) (Array_sort comparefn l).
Proof.
  induction l as [|x l IH]; simpl; [constructor|]. now apply insert_sorted.
Qed.

Lemma insert_head x l :
  Forall (before comparefn x) l -> insert comparefn x l = x :: l.
Proof.
  destruct l as [|y l]; simpl; [reflexivity|]. intros H.
  inversion H as [|y' l' Hxy _]; subst.
  unfold before in Hxy. apply Z.leb_le in Hxy. now rewrite Hxy.
Qed.


Lemma filter_insert (p : A -> bool) x l :
  StronglySorted (before comparefn) l ->
  filter p (insert comparefn x l) =
  if p x then insert comparefn x (filter p l) else filter p l.
Proof.
  induction l as [|y l IH]; simpl; intros Hs.
  - now destruct (p x).
  - inversion Hs as [|y' l' Hs' Hall]; subst.
    destruct (comparefn x y <=? 0) eqn:E; simpl.
    + destruct (p x) eqn:Px; [|reflexivity].
      destruct (p y) eqn:Py; simpl; [now rewrite E|].
      symmetry. apply insert_head.
      apply Z.leb_le in E.
      apply Forall_forall. intros z Hz. apply filter_In in Hz as [Hz _].
      rewrite Forall_forall in Hall.
      apply before_trans with y; [exact E | now apply Hall].
    + rewrite (IH Hs').
      destruct (p y) eqn:Py; simpl; [|reflexivity].
      destruct (p x); [|reflexivity]. now rewrite E.
Qed.

Lemma filter_Array_sort (p : A -> bool) l :
  filter p (Array_sort comparefn l) = Array_sort comparefn (filter p l).
Proof.
  induction l as [|x l IH]; simpl; [reflexivity|].
  rewrite filter_insert by apply Array_sort_sorted.
  rewrite IH. now destruct (p x).
Qed.

End Sorting.

(** ** filteredNotes *)

Lemma by_recency_trans x y z :
  before by_recency x y -> before by_recency y z -> before by_recency x z.
Proof. unfold before, by_recency. lia. Qed.

Lemma by_recency_total x y : before by_recency x y \/ before by_recency y x.
Proof. unfold before, by_recency. lia. Qed.

Lemma before_by_recency x y : before by_recency x y <-> newer_first x y.
Proof. unfold before, by_recency, newer_first. lia. Qed.

Lemma sorted_by_recency l :
  StronglySorted newer_first (Array_sort by_recency l).
Proof.
  pose proof (Array_sort_sorted by_recency by_recency_trans by_recency_total l) as H.
  induction H as [|x l' Hs IH Hall]; constructor; [assumption|].
  eapply Forall_impl; [|exact Hall]. intros z. apply before_by_recency.
Qed.


(** ** What includes and trim compute *)

Lemma trim_start_split s :
  exists ws, s = ws ++ trim_start s /\ blank ws /\
             is_white_space (hd 0%N (trim_start s)) = false.
Proof.
  induction s as [|c s (ws & E & Hws & Hhd)].
  - exists []. repeat split. constructor.
  - cbn [trim_start]. destruct (is_white_space c) eqn:Ec.
    + exists (c :: ws). cbn [app]. split; [now f_equal|].
      split; [now constructor|exact Hhd].
    + exists []. repeat split; [constructor|exact Ec].
Qed.

Lemma trim_split s :
  exists ws1 ws2,
    s = ws1 ++ trim s ++ ws2 /\ blank ws1 /\ blank ws2 /\
    (trim s <> [] ->
     is_white_space (hd 0%N (trim s)) = false /\
     is_white_space (last (trim s) 0%N) = false).
Proof.
  destruct (trim_start_split s) as (ws1 & E1 & H1 & Hh1).
  destruct (trim_start_split (rev (trim_start s))) as (ws2 & E2 & H2 & Hh2).
  unfold trim. set (u := trim_start s) in *.
  set (v := trim_start (rev u)) in *.
  assert (Eu : u = rev v ++ rev ws2).
  { rewrite <- rev_app_distr, <- E2. now rewrite rev_involutive. }
  exists ws1, (rev ws2). split; [now rewrite <- Eu|].
  split; [exact H1|]. split; [now apply Forall_rev|].
  intros Hne. split.
  - destruct (rev v) as [|c t] eqn:Ev; [contradiction|].
    rewrite Eu in Hh1. exact Hh1.
  - destruct v as [|c v']; [contradiction|].
    cbn [rev]. rewrite last_last. exact Hh2.
Qed.








Section ViewProperties.

Variable toLowerCase : jsstring -> jsstring.


End ViewProperties.

(** The scenario of the documentation: A (updatedAt 100, "Shopping") and
    B (updatedAt 200, "Work"). *)
Example filteredNotes_scenario :
  let A := mkNote (lit "a") (lit "Shopping") [] 100 in
  let B := mkNote (lit "b") (lit "Work") [] 200 in
  filteredNotes ascii_lower (mkApp [A; B] None []) = [B; A] /\
  filteredNotes ascii_lower (mkApp [A; B] None (lit " Shop ")) = [A] /\
  filteredNotes ascii_lower (mkApp [A; B] None (lit "  hOPPi")) = [A] /\
  filteredNotes ascii_lower (mkApp [A; B] None (lit "o")) = [B; A] /\
  filteredNotes ascii_lower (mkApp [A; B] None (lit "Sh op")) = [].
Proof. vm_compute. repeat split; reflexivity. Qed.


(** ** JSON texts: strings *)

Lemma hex_value_digit n : (n < 16)%N -> hex_value (hex_digit n) = Some n.
Proof.
  intros H. unfold hex_digit, hex_value.
  destruct (n <? 10)%N eqn:E.
  - apply N.ltb_lt in E.
    assert (H1 : ((48 <=? 48 + n) && (48 + n <=? 57))%N = true).
    { apply andb_true_iff. split; apply N.leb_le; lia. }
    rewrite H1. f_equal. lia.
  - apply N.ltb_ge in E.
    assert (H1 : ((48 <=? 87 + n) && (87 + n <=? 57))%N = false).
    { apply andb_false_iff. right. apply N.leb_gt. lia. }
    assert (H2 : ((97 <=? 87 + n) && (87 + n <=? 102))%N = true).
    { apply andb_true_iff. split; apply N.leb_le; lia. }
    rewrite H1, H2. f_equal. lia.
Qed.

Lemma parse_chars_unicode_escape c s :
  (c < 65536)%N ->
  parse_chars (unicode_escape c ++ s) =
  ('(t, rest) <- parse_chars s ;; Parsed (c :: t, rest)).
Proof.
  intros H. unfold unicode_escape. cbn [app parse_chars].
  change (92 =? 34)%N with false. change (92 =? 92)%N with true.
  change (117 =? 117)%N with true. cbv iota.
  assert (H1 : (c / 4096 < 16)%N) by (apply N.Div0.div_lt_upper_bound; lia).
  assert (H2 : ((c / 256) mod 16 < 16)%N) by (apply N.mod_lt; lia).
  assert (H3 : ((c / 16) mod 16 < 16)%N) by (apply N.mod_lt; lia).
  assert (H4 : (c mod 16 < 16)%N) by (apply N.mod_lt; lia).
  rewrite !hex_value_digit by assumption.
  replace (4096 * (c / 4096) + 256 * ((c / 256) mod 16) +
           16 * ((c / 16) mod 16) + c mod 16)%N with c; [reflexivity|].
  pose proof (N.div_mod c 16 ltac:(lia)).
  pose proof (N.div_mod (c / 16) 16 ltac:(lia)).
  pose proof (N.div_mod (c / 256) 16 ltac:(lia)).
  replace (c / 256)%N with (c / 16 / 16)%N in *
    by (rewrite N.Div0.div_div; reflexivity).
  replace (c / 4096)%N with (c / 16 / 16 / 16)%N
    by (rewrite !N.Div0.div_div; reflexivity).
  assert ((c / 16 / 16 / 16) mod 16 = c / 16 / 16 / 16)%N.
  { apply N.mod_small. rewrite !N.Div0.div_div. 
    apply N.Div0.div_lt_upper_bound. lia. }
  lia.
Qed.

Lemma parse_chars_literal c s :
  (c =? 34)%N = false -> (c =? 92)%N = false -> (c <? 32)%N = false ->
  parse_chars (c :: s) = ('(t, rest) <- parse_chars s ;; Parsed (c :: t, rest)).
Proof. intros H1 H2 H3. cbn [parse_chars]. now rewrite H1, H2, H3. Qed.

Lemma parse_chars_short_escape c e s :
  short_escape c = Some e ->
  parse_chars (92%N :: e :: s) =
  ('(t, rest) <- parse_chars s ;; Parsed (c :: t, rest)).
Proof.
  unfold short_escape. intros H.
  repeat match type of H with
  | (if (c =? ?k)%N then _ else _) = _ =>
      let E := fresh "E" in
      destruct (c =? k)%N eqn:E;
      [apply N.eqb_eq in E; subst c; injection H as <-; reflexivity|]
  end.
  discriminate.
Qed.

Lemma short_escape_none c :
  short_escape c = None -> (c =? 34)%N = false /\ (c =? 92)%N = false.
Proof.
  unfold short_escape. intros H.
  repeat match type of H with
  | (if (c =? ?k)%N then _ else _) = _ =>
      let E := fresh "E" in destruct (c =? k)%N eqn:E; [discriminate|]
  end.
  now split.
Qed.

Lemma low_surrogate_literal d :
  is_low_surrogate d = true ->
  (d =? 34)%N = false /\ (d =? 92)%N = false /\ (d <? 32)%N = false.
Proof.
  unfold is_low_surrogate. intros H. apply andb_true_iff in H as [H _].
  apply N.leb_le in H.
  repeat split; [apply N.eqb_neq | apply N.eqb_neq | apply N.ltb_ge]; lia.
Qed.

Lemma parse_chars_quote_body n : forall s rest,
  (List.length s <= n)%nat -> str_wf s ->
  parse_chars (quote_body s ++ 34%N :: rest) = Parsed (s, rest).
Proof.
  induction n as [|n IH]; intros s rest Hlen Hwf;
    destruct s as [|c s']; simpl in Hlen; try lia; try reflexivity.
  inversion Hwf as [|c' s0 Hc Hwf']; subst.
  assert (Hlen' : (List.length s' <= n)%nat) by lia.
  cbn [quote_body]. destruct (short_escape c) as [e|] eqn:Es.
  { cbn [app]. rewrite (parse_chars_short_escape c e _ Es).
    now rewrite (IH s' rest Hlen' Hwf'). }
  destruct (short_escape_none c Es) as [E34 E92].
  destruct (c <? 32)%N eqn:E32.
  { rewrite <- app_assoc, parse_chars_unicode_escape by assumption.
    now rewrite (IH s' rest Hlen' Hwf'). }
  destruct (is_high_surrogate c).
  { destruct s' as [|d s''].
    - rewrite parse_chars_unicode_escape by assumption. reflexivity.
    - destruct (is_low_surrogate d) eqn:Ed.
      + destruct (low_surrogate_literal d Ed) as (D34 & D92 & D32).
        inversion Hwf' as [|d' s1 Hd Hwf'']; subst.
        cbn [app]. rewrite (parse_chars_literal c _ E34 E92 E32).
        rewrite (parse_chars_literal d _ D34 D92 D32).
        rewrite (IH s'' rest); [reflexivity| simpl in Hlen'; lia | assumption].
      + rewrite <- app_assoc, parse_chars_unicode_escape by assumption.
        now rewrite (IH (d :: s'') rest Hlen' Hwf'). }
  destruct (is_low_surrogate c).
  { rewrite <- app_assoc, parse_chars_unicode_escape by assumption.
    now rewrite (IH s' rest Hlen' Hwf'). }
  cbn [app]. rewrite (parse_chars_literal c _ E34 E92 E32).
  now rewrite (IH s' rest Hlen' Hwf').
Qed.

Lemma parse_chars_quoted s rest :
  str_wf s -> parse_chars (quote_body s ++ 34%N :: rest) = Parsed (s, rest).
Proof. apply (parse_chars_quote_body (List.length s)). lia. Qed.

(** ** JSON texts: numerals *)

Lemma uint_units_digits d : forallb is_digit (uint_units d) = true.
Proof. induction d; simpl; trivial. Qed.

Lemma span_digits_app ds rest :
  forallb is_digit ds = true ->
  fst (span_digits rest) = [] ->
  span_digits (ds ++ rest) = (ds, rest).
Proof.
  induction ds as [|c ds IH]; simpl; intros Hd Hr.
  - destruct rest as [|c r]; [reflexivity|]. simpl in *.
    destruct (is_digit c); [|reflexivity].
    destruct (span_digits r); discriminate.
  - apply andb_true_iff in Hd as [Hc Hd]. rewrite Hc, (IH Hd Hr). reflexivity.
Qed.

Lemma ends_numeral_span rest :
  ends_numeral rest ->
  fst (span_digits rest) = [] /\
  parse_fraction rest = Parsed ([], rest) /\
  parse_exponent rest = Parsed (0, rest).
Proof.
  destruct rest as [|c r]; simpl; [now repeat split|].
  intros [-> | [-> | ->]]; now repeat split.
Qed.

Lemma number_value_integer (negative : bool) p :
  (Npos p <= max_safe_integer)%N ->
  number_value negative (Npos p) (0 - Z.of_nat (@List.length code_unit [])) =
  JNum (if negative then Zneg p else Zpos p).
Proof.
  intros Hmax. cbn [List.length Z.of_nat Z.sub Z.add Z.opp number_value Z.to_N].
  change (10 ^ 0)%N with 1%N. rewrite N.mul_1_r.
  apply N.leb_le in Hmax. rewrite Hmax. now destruct negative.
Qed.

Lemma digits_value_acc d : forall acc,
  fold_left digit_step (uint_units d) (Npos acc) = Npos (Pos.of_uint_acc d acc).
Proof.
  induction d; intros acc; cbn [uint_units fold_left Pos.of_uint_acc];
    try reflexivity;
    rewrite <- IHd; f_equal; unfold digit_step, digit_unit; lia.
Qed.

Lemma digits_value_uint d : digits_value (uint_units d) = Pos.of_uint d.
Proof.
  unfold digits_value.
  induction d; cbn [uint_units fold_left Pos.of_uint]; try reflexivity;
    first [exact IHd | exact (digits_value_acc d _)].
Qed.

Lemma to_uint_no_leading_zero p d : Pos.to_uint p <> Decimal.D0 d.
Proof.
  intros E.
  pose proof (DecimalPos.Unsigned.to_of (Pos.to_uint p)) as H.
  rewrite DecimalPos.Unsigned.of_to in H. cbn [N.to_uint] in H.
  rewrite E, DecimalFacts.unorm_D0 in H.
  unfold Decimal.unorm in H.
  destruct (Decimal.nzhead d) as [|u|u|u|u|u|u|u|u|u|u] eqn:En;
    try discriminate.
  - apply (DecimalPos.Unsigned.to_uint_nonzero p).
    rewrite E. exact H.
  - apply (DecimalFacts.nzhead_nonzero d u). exact En.
Qed.

Lemma to_uint_head p :
  exists c ds, uint_units (Pos.to_uint p) = c :: ds /\
               is_digit c = true /\ (c =? 48)%N = false.
Proof.
  pose proof (to_uint_no_leading_zero p) as Hz.
  pose proof (DecimalPos.Unsigned.to_uint_nonnil p) as Hn.
  destruct (Pos.to_uint p) as [|d|d|d|d|d|d|d|d|d|d]; simpl;
    try (eexists; eexists; repeat split; reflexivity).
  - contradiction.
  - exfalso. now apply (Hz d).
Qed.

Lemma parse_number_digits (negative : bool) p rest :
  (Npos p <= max_safe_integer)%N ->
  ends_numeral rest ->
  parse_number ((if negative then [45%N] else []) ++ uint_units (Pos.to_uint p) ++ rest) =
  Parsed (JNum (if negative then Zneg p else Zpos p), rest).
Proof.
  intros Hmax Hend.
  destruct (ends_numeral_span rest Hend) as (Hs & Hf & He).
  destruct (to_uint_head p) as (c & ds & E & Hc & Hz).
  assert (Hminus : (c =? 45)%N = false).
  { unfold is_digit in Hc. apply andb_true_iff in Hc as [Hc _].
    apply N.leb_le in Hc. apply N.eqb_neq. lia. }
  assert (Hspan : span_digits (c :: ds ++ rest) = (c :: ds, rest)).
  { change (c :: ds ++ rest) with ((c :: ds) ++ rest).
    apply span_digits_app; [|exact Hs]. rewrite <- E. apply uint_units_digits. }
  assert (Hval : digits_value (c :: ds) = Npos p).
  { rewrite <- E, digits_value_uint. apply DecimalPos.Unsigned.of_to. }
  unfold parse_number. rewrite E.
  destruct negative; cbn [app].
  - change (45 =? 45)%N with true. cbv iota. rewrite Hspan, Hz, Hf.
    cbn [andb bind]. rewrite He. cbn [bind]. rewrite app_nil_r, Hval.
    now rewrite (number_value_integer true p Hmax).
  - rewrite Hminus. rewrite Hspan, Hz, Hf.
    cbn [andb bind]. rewrite He. cbn [bind]. rewrite app_nil_r, Hval.
    now rewrite (number_value_integer false p Hmax).
Qed.

Lemma parse_number_NumberToString z rest :
  - Z.of_N max_safe_integer <= z <= Z.of_N max_safe_integer ->
  ends_numeral rest ->
  parse_number (NumberToString z ++ rest) = Parsed (JNum z, rest).
Proof.
  intros Hz Hend. destruct z as [|p|p]; unfold NumberToString.
  - destruct (ends_numeral_span rest Hend) as (Hs & Hf & He).
    unfold parse_number. cbn [app]. change (48 =? 45)%N with false.
    cbv beta iota.
    pose proof (span_digits_app [48%N] rest eq_refl Hs) as Hspan.
    cbn [app] in Hspan. rewrite Hspan. change (48 =? 48)%N with true.
    cbn [andb negb]. rewrite Hf. cbn [bind]. rewrite He. reflexivity.
  - apply (parse_number_digits false p rest); [lia|assumption].
  - apply (parse_number_digits true p rest); [lia|assumption].
Qed.

Lemma NumberToString_head z :
  exists c s, NumberToString z = c :: s /\ (is_digit c = true \/ c = 45%N).
Proof.
  destruct z as [|p|p]; simpl.
  - exists 48%N, []. split; [reflexivity|now left].
  - destruct (to_uint_head p) as (c & ds & E & Hc & _).
    exists c, ds. split; [exact E|now left].
  - eexists; eexists. split; [reflexivity|now right].
Qed.

(** ** JSON texts: objects *)

Lemma digit_cases c :
  is_digit c = true ->
  (c = 48 \/ c = 49 \/ c = 50 \/ c = 51 \/ c = 52 \/
   c = 53 \/ c = 54 \/ c = 55 \/ c = 56 \/ c = 57)%N.
Proof.
  unfold is_digit. intros H. apply andb_true_iff in H as [H1 H2].
  apply N.leb_le in H1, H2. lia.
Qed.

Lemma uint_units_of_units ds :
  forallb is_digit ds = true -> uint_units (units_uint ds) = ds.
Proof.
  induction ds as [|c ds IH]; [reflexivity|]. cbn [forallb].
  intros H. apply andb_true_iff in H as [Hc Hds].
  specialize (IH Hds).
  destruct (digit_cases c Hc) as [-> | [-> | [-> | [-> | [-> | [-> | [-> | [-> | [-> | ->]]]]]]]]];
    cbn [units_uint N.sub Pos.sub]; simpl; now rewrite IH.
Qed.

Lemma array_index_canonical k n :
  array_index k = Some n ->
  forallb is_digit k = true /\
  Decimal.unorm (units_uint k) = units_uint k /\
  n = digits_value k.
Proof.
  unfold array_index. destruct k as [|d ds]; [discriminate|].
  destruct (forallb is_digit (d :: ds)) eqn:Hd; [|discriminate].
  cbn [andb].
  destruct (negb (d =? 48)%N || match ds with [] => true | _ => false end) eqn:Hz;
    [|discriminate].
  destruct (digits_value (d :: ds) <=? 4294967294)%N; [|discriminate].
  intros [= <-]. split; [reflexivity|]. split; [|reflexivity].
  cbn [forallb] in Hd. apply andb_true_iff in Hd as [Hc _].
  apply orb_true_iff in Hz as [Hz|Hz].
  - apply negb_true_iff, N.eqb_neq in Hz.
    destruct (digit_cases d Hc) as [-> | [-> | [-> | [-> | [-> | [-> | [-> | [-> | [-> | ->]]]]]]]]];
      try contradiction; reflexivity.
  - destruct ds; [|discriminate].
    destruct (digit_cases d Hc) as [-> | [-> | [-> | [-> | [-> | [-> | [-> | [-> | [-> | ->]]]]]]]]];
      reflexivity.
Qed.

Lemma array_index_inj k k' n :
  array_index k = Some n -> array_index k' = Some n -> k = k'.
Proof.
  intros H H'.
  apply array_index_canonical in H as (Hd & Hu & Hn).
  apply array_index_canonical in H' as (Hd' & Hu' & Hn').
  rewrite <- (uint_units_of_units k Hd), <- (uint_units_of_units k' Hd').
  f_equal. rewrite <- Hu, <- Hu'.
  apply DecimalPos.Unsigned.of_inj.
  rewrite <- !digits_value_uint.
  rewrite (uint_units_of_units k Hd), (uint_units_of_units k' Hd'). congruence.
Qed.

Lemma key_is_true k kv : key_is k kv = true <-> fst kv = k.
Proof. unfold key_is. destruct (str_eq_dec (fst kv) k); split; congruence. Qed.

Lemma existsb_key_false k o :
  (forall k', In k' (keys o) -> k' <> k) -> existsb (key_is k) o = false.
Proof.
  induction o as [|kv o IH]; [reflexivity|]. intros H. cbn [existsb].
  rewrite IH by (intros k' Hk'; apply H; now right).
  destruct (key_is k kv) eqn:E; [|reflexivity].
  apply key_is_true in E. exfalso. apply (H (fst kv)); [now left|exact E].
Qed.

Lemma existsb_key_true k o :
  existsb (key_is k) o = false -> ~ In k (keys o).
Proof.
  induction o as [|kv o IH]; [tauto|]. cbn [existsb keys map In].
  intros H. apply orb_false_iff in H as [H1 H2]. intros [Hk|Hk].
  - apply key_is_true in Hk. congruence.
  - now apply IH.
Qed.

Lemma keys_listed_last ks k :
  keys_listed (ks ++ [k]) ->
  forall k', In k' ks ->
    k' <> k /\
    match array_index k with
    | Some n => exists m, array_index k' = Some m /\ (m < n)%N
    | None => True
    end.
Proof.
  induction ks as [|k0 ks IH]; [contradiction|].
  cbn [app keys_listed]. intros [Hhead Htail] k' [<-|Hk'];
    [|now apply IH].
  destruct (array_index k0) as [m|] eqn:E0.
  - rewrite Forall_app in Hhead. destruct Hhead as [_ Hk].
    inversion Hk as [|x l Hx _]; subst. unfold index_after in Hx.
    destruct (array_index k) as [n|] eqn:Ek.
    + split; [intros ->; rewrite E0 in Ek; injection Ek as ->; lia|].
      now exists m.
    + split; [intros ->; congruence|exact I].
  - rewrite Forall_app in Hhead. destruct Hhead as [_ Hk].
    inversion Hk as [|x l [Hx1 Hx2] _]; subst.
    rewrite Hx1. split; [congruence|exact I].
Qed.

Lemma keys_listed_app_l ks1 ks2 : keys_listed (ks1 ++ ks2) -> keys_listed ks1.
Proof.
  induction ks1 as [|k ks1 IH]; [constructor|]. cbn [app keys_listed].
  intros [Hhead Htail]. split; [|now apply IH].
  destruct (array_index k); rewrite Forall_app in Hhead; tauto.
Qed.

Lemma obj_insert_index_last n k v o :
  (forall kv, In kv o -> exists m, array_index (fst kv) = Some m /\ (m < n)%N) ->
  obj_insert_index n k v o = o ++ [(k, v)].
Proof.
  induction o as [|kv o IH]; [reflexivity|]. intros H. cbn [obj_insert_index app].
  destruct (H kv (or_introl eq_refl)) as (m & -> & Hm).
  apply N.ltb_lt in Hm. rewrite Hm. f_equal. apply IH.
  intros kv' Hkv'. apply H. now right.
Qed.

Lemma obj_set_last k v o :
  keys_listed (keys o ++ [k]) -> obj_set k v o = o ++ [(k, v)].
Proof.
  intros H. pose proof (keys_listed_last _ _ H) as Hl.
  unfold obj_set. rewrite existsb_key_false by (intros k' Hk'; now apply Hl).
  destruct (array_index k) as [n|] eqn:Ek; [|reflexivity].
  apply obj_insert_index_last. intros kv Hkv.
  apply (Hl (fst kv)). unfold keys. now apply in_map.
Qed.

Lemma obj_of_members_listed_acc rest : forall acc,
  keys_listed (keys (acc ++ rest)) ->
  fold_left (fun o kv => obj_set (fst kv) (snd kv) o) rest acc = acc ++ rest.
Proof.
  induction rest as [|[k v] rest IH]; intros acc H; [now rewrite app_nil_r|].
  cbn [fold_left fst snd].
  assert (E : acc ++ (k, v) :: rest = (acc ++ [(k, v)]) ++ rest)
    by now rewrite <- app_assoc.
  rewrite E in H |- *.
  rewrite obj_set_last.
  - now apply IH.
  - unfold keys in *. rewrite !map_app in H. cbn [map fst] in H.
    now apply keys_listed_app_l in H.
Qed.

(** A list of members in listing order is what the object made of it
    lists. *)
Lemma obj_of_members_listed o :
  keys_listed (keys o) -> obj_of_members o = o.
Proof. intros H. apply (obj_of_members_listed_acc o []). exact H. Qed.

Lemma keys_replace k v o :
  keys (map (fun kv => if key_is k kv then (k, v) else kv) o) = keys o.
Proof.
  unfold keys. rewrite map_map. apply map_ext. intros kv.
  destruct (key_is k kv) eqn:E; [|reflexivity].
  apply key_is_true in E. now rewrite E.
Qed.

Lemma keys_insert_index n k v o k' :
  In k' (keys (obj_insert_index n k v o)) -> k' = k \/ In k' (keys o).
Proof.
  induction o as [|kv o IH]; cbn [obj_insert_index keys map In fst].
  - intros [<-|[]]. now left.
  - destruct (array_index (fst kv)) as [m|].
    + destruct (m <? n)%N; cbn [map In fst].
      * intros [H|H]; [now right; left|]. destruct (IH H); auto.
      * intros [H|H]; auto.
    + cbn [map In fst]. intros [H|H]; auto.
Qed.

Lemma keys_listed_insert_index n k v o :
  array_index k = Some n ->
  ~ In k (keys o) ->
  keys_listed (keys o) ->
  keys_listed (keys (obj_insert_index n k v o)).
Proof.
  intros Ek. induction o as [|kv o IH]; intros Hin Hl.
  - cbn. rewrite Ek. repeat constructor.
  - cbn [keys map keys_listed] in Hl. destruct Hl as [Hhead Htail].
    assert (Hne : fst kv <> k) by (intros E; apply Hin; now left).
    assert (Hin' : ~ In k (keys o)) by (intros E; apply Hin; now right).
    cbn [obj_insert_index].
    destruct (array_index (fst kv)) as [m|] eqn:Em.
    + destruct (m <? n)%N eqn:Hmn.
      * cbn [keys map keys_listed fst]. rewrite Em. split; [|now apply IH].
        apply Forall_forall. intros k' Hk'.
        apply keys_insert_index in Hk' as [->|Hk'].
        -- unfold index_after. rewrite Ek. now apply N.ltb_lt.
        -- rewrite Forall_forall in Hhead. now apply Hhead.
      * apply N.ltb_ge in Hmn.
        assert (Hlt : (n < m)%N).
        { destruct (N.eq_dec n m) as [->|]; [|lia].
          exfalso. apply Hne. now apply (array_index_inj _ _ m). }
        cbn [keys map keys_listed fst]. rewrite Ek, Em.
        split; [|split; assumption].
        constructor; [unfold index_after; now rewrite Em|].
        eapply Forall_impl; [|exact Hhead].
        intros k'. unfold index_after. destruct (array_index k'); [lia|trivial].
    + cbn [keys map keys_listed fst]. rewrite Ek, Em.
      split; [|split; assumption].
      constructor; [unfold index_after; now rewrite Em|].
      eapply Forall_impl; [|exact Hhead].
      intros k' [Hk' _]. unfold index_after. now rewrite Hk'.
Qed.

Lemma keys_listed_snoc ks k :
  array_index k = None -> ~ In k ks -> keys_listed ks -> keys_listed (ks ++ [k]).
Proof.
  intros Ek. induction ks as [|k0 ks IH]; intros Hin Hl.
  - cbn. rewrite Ek. repeat constructor.
  - cbn [app keys_listed] in *. destruct Hl as [Hhead Htail].
    split; [|apply IH; [intros E; apply Hin; now right|assumption]].
    destruct (array_index k0); rewrite Forall_app; (split; [assumption|]);
      constructor; try constructor.
    + unfold index_after. now rewrite Ek.
    + exact Ek.
    + intros ->. apply Hin. now left.
Qed.

Lemma obj_set_listed k v o :
  keys_listed (keys o) -> keys_listed (keys (obj_set k v o)).
Proof.
  intros Hl. unfold obj_set. destruct (existsb (key_is k) o) eqn:E.
  - now rewrite keys_replace.
  - apply existsb_key_true in E.
    destruct (array_index k) as [n|] eqn:Ek.
    + now apply keys_listed_insert_index.
    + unfold keys. rewrite map_app. now apply keys_listed_snoc.
Qed.

Lemma obj_of_members_keys ms : keys_listed (keys (obj_of_members ms)).
Proof.
  unfold obj_of_members.
  assert (H : forall acc, keys_listed (keys acc) ->
    keys_listed (keys (fold_left (fun o kv => obj_set (fst kv) (snd kv) o) ms acc))).
  { induction ms as [|kv ms IH]; intros acc Hacc; [exact Hacc|].
    cbn [fold_left]. now apply IH, obj_set_listed. }
  apply H. exact I.
Qed.

(** Making an object of the members an object lists gives that object. *)
Lemma obj_of_members_idempotent ms :
  obj_of_members (obj_of_members ms) = obj_of_members ms.
Proof. apply obj_of_members_listed, obj_of_members_keys. Qed.

(** ** JSON texts: values *)

Lemma numeral_head c :
  is_digit c = true \/ c = 45%N ->
  is_json_ws c = false /\ (c =? 93)%N = false.
Proof.
  intros [Hc| ->]; [|now split].
  unfold is_digit in Hc. apply andb_true_iff in Hc as [H1 H2].
  apply N.leb_le in H1, H2. unfold is_json_ws.
  split; [|apply N.eqb_neq; lia].
  repeat (apply orb_false_iff; split); apply N.eqb_neq; lia.
Qed.

Lemma Number_toString_head x :
  exists c s, Number_toString x = c :: s /\
              is_json_ws c = false /\ (c =? 93)%N = false.
Proof.
  destruct x as [sg|sg| |sg m e];
    try (destruct sg; eexists; eexists; repeat split; reflexivity);
    try (eexists; eexists; repeat split; reflexivity).
  unfold Number_toString.
  destruct (shortest_from _ _ _ _) as [[[n k] sd]|];
    [|eexists; eexists; repeat split; reflexivity].
  destruct sg; [eexists; eexists; repeat split; reflexivity|].
  destruct (NumberToString_head sd) as (c & s & E & Hc).
  apply numeral_head in Hc. rewrite E.
  destruct ((k <=? n) && (n <=? 21));
    [exists c; eexists; split; [reflexivity|exact Hc]|].
  destruct ((0 <? n) && (n <=? 21)).
  { destruct (Z.to_nat n); cbn [firstn app].
    - eexists; eexists; repeat split; reflexivity.
    - exists c; eexists; split; [reflexivity|exact Hc]. }
  destruct ((-6 <? n) && (n <=? 0));
    [eexists; eexists; repeat split; reflexivity|].
  destruct (k =? 1); exists c; eexists; (split; [reflexivity|exact Hc]).
Qed.

Lemma stringify_head v :
  exists c s, JSON_stringify v = c :: s /\
              is_json_ws c = false /\ (c =? 93)%N = false.
Proof.
  destruct v as [|[|]|z|x|s|l|l]; try (eexists; eexists; repeat split; reflexivity).
  - destruct (NumberToString_head z) as (c & s & E & Hc).
    exists c, s. split; [exact E|]. now apply numeral_head.
  - cbn [JSON_stringify]. destruct x as [sg|sg| |sg m e];
      try (eexists; eexists; repeat split; reflexivity);
      apply Number_toString_head.
Qed.

Lemma join_comma_cons p q rest :
  join_comma (p :: q :: rest) = p ++ 44%N :: join_comma (q :: rest).
Proof. reflexivity. Qed.

Lemma parse_value_number f z rest :
  - Z.of_N max_safe_integer <= z <= Z.of_N max_safe_integer ->
  ends_numeral rest ->
  parse_value (S f) (NumberToString z ++ rest) = Parsed (JNum z, rest).
Proof.
  intros Hz Hend. rewrite <- (parse_number_NumberToString z rest Hz Hend).
  destruct (NumberToString_head z) as (c & s & E & Hc). rewrite E.
  assert (H : is_json_ws c = false /\ (c =? 123)%N = false /\
              (c =? 91)%N = false /\ (c =? 34)%N = false /\
              (c =? 116)%N = false /\ (c =? 102)%N = false /\
              (c =? 110)%N = false).
  { destruct Hc as [Hc| ->]; [|now repeat split].
    unfold is_digit in Hc. apply andb_true_iff in Hc as [H1 H2].
    apply N.leb_le in H1, H2. unfold is_json_ws.
    repeat split; try (apply N.eqb_neq; lia).
    repeat (apply orb_false_iff; split); apply N.eqb_neq; lia. }
  destruct H as (H0 & H1 & H2 & H3 & H4 & H5 & H6).
  cbn [parse_value app skip_ws]. now rewrite H0, H1, H2, H3, H4, H5, H6.
Qed.

Lemma parse_value_string f s rest :
  str_wf s ->
  parse_value (S f) (QuoteJSONString s ++ rest) = Parsed (JStr s, rest).
Proof.
  intros Hs. unfold QuoteJSONString. cbn [parse_value app skip_ws].
  change (is_json_ws 34%N) with false. cbv iota.
  change (34 =? 123)%N with false. change (34 =? 91)%N with false.
  change (34 =? 34)%N with true. cbv iota.
  rewrite <- app_assoc. cbn [app]. now rewrite parse_chars_quoted.
Qed.

Lemma skip_ws_head c s : is_json_ws c = false -> skip_ws (c :: s) = c :: s.
Proof. intros H. cbn [skip_ws]. now rewrite H. Qed.

Lemma parse_value_array f c s :
  is_json_ws c = false -> (c =? 93)%N = false ->
  parse_value (S f) (91%N :: c :: s) =
  ('(vs, r') <- parse_elements f (c :: s) ;; Parsed (JArr vs, r')).
Proof.
  intros H1 H2. cbn [parse_value skip_ws].
  change (is_json_ws 91%N) with false. cbv iota.
  change (91 =? 123)%N with false. change (91 =? 91)%N with true. cbv iota.
  rewrite (skip_ws_head c s H1). cbn [is_char]. now rewrite H2.
Qed.

Lemma parse_value_object f s :
  parse_value (S f) (123%N :: 34%N :: s) =
  ('(ms, r') <- parse_members f (34%N :: s) ;;
   Parsed (JObj (obj_of_members ms), r')).
Proof. reflexivity. Qed.

Lemma parse_elements_step f v r text vs rest :
  parse_value f text = Parsed (v, r) ->
  (r = 93%N :: rest /\ vs = [] \/
   exists r', r = 44%N :: r' /\ vs <> [] /\ parse_elements f r' = Parsed (vs, rest)) ->
  parse_elements (S f) text = Parsed (v :: vs, rest).
Proof.
  intros Hv H. cbn [parse_elements]. rewrite Hv. cbn [bind].
  destruct H as [[-> ->]|(r' & -> & _ & Hr)].
  - reflexivity.
  - cbn [skip_ws]. change (is_json_ws 44%N) with false. cbv iota.
    cbn [is_char tl]. change (44 =? 44)%N with true. cbv iota.
    now rewrite Hr.
Qed.

Lemma parse_members_step f k v r s ms rest :
  str_wf k ->
  parse_value f s = Parsed (v, r) ->
  (r = 125%N :: rest /\ ms = [] \/
   exists r', r = 44%N :: r' /\ parse_members f r' = Parsed (ms, rest)) ->
  parse_members (S f) (QuoteJSONString k ++ 58%N :: s) =
  Parsed ((k, v) :: ms, rest).
Proof.
  intros Hk Hv H. unfold QuoteJSONString. cbn [parse_members app skip_ws].
  change (is_json_ws 34%N) with false. cbv iota. cbn [is_char tl].
  change (34 =? 34)%N with true. cbv iota.
  rewrite <- app_assoc. cbn [app]. rewrite (parse_chars_quoted k _ Hk).
  cbn [bind skip_ws]. change (is_json_ws 58%N) with false. cbv iota.
  cbn [is_char tl]. change (58 =? 58)%N with true. cbv iota.
  rewrite Hv. cbn [bind].
  destruct H as [[-> ->]|(r' & -> & Hr)].
  - reflexivity.
  - cbn [skip_ws]. change (is_json_ws 44%N) with false. cbv iota.
    cbn [is_char tl]. change (44 =? 44)%N with true. cbv iota.
    now rewrite Hr.
Qed.

Lemma bind_parsed {A B} (m : outcome A) (k : A -> outcome B) a :
  m = Parsed a -> bind m k = k a.
Proof. now intros ->. Qed.

Lemma JSON_stringify_array l :
  JSON_stringify (JArr l) = 91%N :: join_comma (map JSON_stringify l) ++ [93%N].
Proof. reflexivity. Qed.

Lemma JSON_stringify_object l :
  JSON_stringify (JObj l) = 123%N :: join_comma (map member_text l) ++ [125%N].
Proof. reflexivity. Qed.

Lemma size_pos v : (1 <= size v)%nat.
Proof. destruct v; simpl; lia. Qed.

Lemma join_values_head x xs :
  exists c s, join_comma (map JSON_stringify (x :: xs)) = c :: s /\
              is_json_ws c = false /\ (c =? 93)%N = false.
Proof.
  destruct (stringify_head x) as (c & s & E & H1 & H2).
  destruct xs as [|y ys]; cbn [map].
  - exists c, s. cbn [join_comma]. now rewrite E.
  - rewrite join_comma_cons, E. eexists; eexists. split; [reflexivity|].
    now split.
Qed.

Lemma join_members_head kv ms :
  exists s, join_comma (map member_text (kv :: ms)) = 34%N :: s.
Proof.
  destruct ms as [|kv' ms']; cbn [map].
  - eexists. reflexivity.
  - rewrite join_comma_cons. eexists. reflexivity.
Qed.

(** Reading back what JSON.stringify wrote: the value, and the text that
    followed it. *)
Lemma parse_stringify f :
  (forall v rest, json_wf v -> (size v <= f)%nat -> ends_numeral rest ->
     parse_value f (JSON_stringify v ++ rest) = Parsed (v, rest)) /\
  (forall v vs rest, all_wf (v :: vs) -> (sizes (v :: vs) <= f)%nat ->
     parse_elements f (join_comma (map JSON_stringify (v :: vs)) ++ 93%N :: rest) =
     Parsed (v :: vs, rest)) /\
  (forall kv ms rest, members_wf (kv :: ms) ->
     (member_sizes (kv :: ms) <= f)%nat ->
     parse_members f (join_comma (map member_text (kv :: ms)) ++ 125%N :: rest) =
     Parsed (kv :: ms, rest)).
Proof.
  induction f as [|f (IH1 & IH2 & IH3)].
  { split; [|split].
    - intros v rest _ Hs. pose proof (size_pos v). lia.
    - intros v vs rest _ Hs. simpl in Hs. lia.
    - intros kv ms rest _ Hs. simpl in Hs. lia. }
  split; [|split].
  - intros v rest Hwf Hsize Hend.
    destruct v as [|[|]|z|x|s|l|l]; try reflexivity.
    + now apply parse_value_number.
    + contradiction.
    + now apply parse_value_string.
    + destruct l as [|x xs]; [reflexivity|].
      destruct (join_values_head x xs) as (c & s & E & H1 & H2).
      rewrite JSON_stringify_array, <- app_comm_cons, <- app_assoc.
      cbn [app]. rewrite E. rewrite <- app_comm_cons.
      rewrite (parse_value_array f c _ H1 H2).
      rewrite app_comm_cons, <- E.
      cbn [size] in Hsize. fold (sizes (x :: xs)) in Hsize.
      erewrite bind_parsed by (apply IH2; [exact Hwf|lia]).
      reflexivity.
    + destruct l as [|kv ms]; [reflexivity|].
      destruct Hwf as [Hobj Hwf].
      destruct (join_members_head kv ms) as (s & E).
      rewrite JSON_stringify_object.
      rewrite <- app_comm_cons, <- app_assoc. cbn [app]. rewrite E.
      rewrite <- app_comm_cons. rewrite parse_value_object.
      rewrite app_comm_cons, <- E.
      cbn [size] in Hsize. fold (member_sizes (kv :: ms)) in Hsize.
      erewrite bind_parsed by (apply IH3; [exact Hwf|lia]).
      cbv beta iota. now rewrite (obj_of_members_listed _ Hobj).
  - intros v vs rest [Hv Hvs] Hsize.
    cbn [sizes fold_right] in Hsize. fold (sizes vs) in Hsize.
    destruct vs as [|v' vs']; cbn [map].
    + cbn [join_comma].
      apply parse_elements_step with (r := 93%N :: rest).
      * apply IH1; [exact Hv|lia|simpl; tauto].
      * now left.
    + rewrite join_comma_cons, <- app_assoc. cbn [app].
      apply parse_elements_step
        with (r := 44%N :: join_comma (map JSON_stringify (v' :: vs')) ++ 93%N :: rest).
      * apply IH1; [exact Hv|lia|simpl; tauto].
      * right. eexists. split; [reflexivity|]. split; [discriminate|].
        apply IH2; [exact Hvs|lia].
  - intros [k v] ms rest (Hk & Hv & Hms) Hsize.
    cbn [member_sizes fold_right snd] in Hsize. fold (member_sizes ms) in Hsize.
    cbn [fst snd] in Hk, Hv.
    destruct ms as [|kv' ms']; cbn [map].
    + cbn [join_comma]. unfold member_text at 1. cbn [fst snd].
      rewrite <- app_assoc. cbn [app].
      apply parse_members_step with (r := 125%N :: rest); [exact Hk| |now left].
      apply IH1; [exact Hv|lia|simpl; tauto].
    + rewrite join_comma_cons. unfold member_text at 1. cbn [fst snd].
      rewrite <- !app_assoc. cbn [app].
      apply parse_members_step
        with (r := 44%N :: join_comma (map member_text (kv' :: ms')) ++ 125%N :: rest);
        [exact Hk| |].
      * apply IH1; [exact Hv|lia|simpl; tauto].
      * right. eexists. split; [reflexivity|]. apply IH3; [exact Hms|lia].
Qed.

Lemma sizes_le_length (l : list json) :
  Forall (fun x => (size x <= List.length (JSON_stringify x))%nat) l ->
  (sizes l <= List.length (join_comma (map JSON_stringify l)) + 1)%nat.
Proof.
  induction 1 as [|x l Hx Hl IH]; [simpl; lia|].
  cbn [sizes fold_right]. fold (sizes l).
  destruct l as [|y l'].
  - cbn [map join_comma sizes fold_right]. lia.
  - cbn [map]. rewrite join_comma_cons, length_app. cbn [List.length].
    cbn [map] in IH. lia.
Qed.

Lemma member_sizes_le_length (l : list (jsstring * json)) :
  Forall (fun kv => (size (snd kv) <= List.length (JSON_stringify (snd kv)))%nat) l ->
  (member_sizes l <= List.length (join_comma (map member_text l)) + 1)%nat.
Proof.
  assert (Hm : forall kv,
    (List.length (JSON_stringify (snd kv)) <= List.length (member_text kv))%nat).
  { intros kv. unfold member_text. rewrite length_app. cbn [List.length]. lia. }
  induction 1 as [|x l Hx Hl IH]; [simpl; lia|].
  cbn [member_sizes fold_right]. fold (member_sizes l).
  specialize (Hm x).
  destruct l as [|y l'].
  - cbn [map join_comma member_sizes fold_right]. lia.
  - cbn [map]. rewrite join_comma_cons, length_app. cbn [List.length].
    cbn [map] in IH. lia.
Qed.

Lemma size_le_length v : (size v <= List.length (JSON_stringify v))%nat.
Proof.
  induction v as [|b|z|x|s|l IH|l IH] using json_nested_ind.
  - simpl; lia.
  - destruct b; simpl; lia.
  - destruct (NumberToString_head z) as (c & s & E & _).
    cbn [size JSON_stringify]. rewrite E. simpl. lia.
  - destruct (stringify_head (JDbl x)) as (c & s & E & _).
    cbn [size]. rewrite E. simpl. lia.
  - cbn [size JSON_stringify]. unfold QuoteJSONString. simpl. lia.
  - rewrite JSON_stringify_array. cbn [size]. fold (sizes l).
    cbn [List.length]. rewrite length_app. cbn [List.length].
    pose proof (sizes_le_length l IH). lia.
  - rewrite JSON_stringify_object. cbn [size]. fold (member_sizes l).
    cbn [List.length]. rewrite length_app. cbn [List.length].
    pose proof (member_sizes_le_length l IH). lia.
Qed.

(** JSON.parse reads back what JSON.stringify wrote. *)
Lemma JSON_parse_stringify v :
  json_wf v -> JSON_parse (JSON_stringify v) = Parsed v.
Proof.
  intros Hwf. unfold JSON_parse.
  pose proof (size_le_length v) as Hsize.
  assert (H : parse_value (2 * List.length (JSON_stringify v) + 1)
                          (JSON_stringify v ++ []) = Parsed (v, [])).
  { apply parse_stringify; [exact Hwf|lia|exact I]. }
  rewrite app_nil_r in H. now rewrite H.
Qed.

Lemma stringify_nonempty v : JSON_stringify v <> [].
Proof.
  destruct (stringify_head v) as (c & s & E & _). rewrite E. discriminate.
Qed.

Lemma load_save v :
  json_wf v -> load (ReadString (save v)) = Returns v.
Proof.
  intros Hwf. unfold load, load_try, save.
  pose proof (stringify_nonempty v) as Hne.
  rewrite (JSON_parse_stringify v Hwf).
  destruct (JSON_stringify v); [contradiction|reflexivity].
Qed.

Lemma json_of_note_wf n : note_wf n -> json_wf (json_of_note n).
Proof.
  intros (H1 & H2 & H3 & H4). unfold json_of_note.
  split.
  - cbn. repeat split; repeat constructor; try reflexivity; discriminate.
  - cbn [fold_right fst snd json_wf].
    repeat split; try assumption; try (now repeat constructor); lia.
Qed.

Lemma json_of_notes_wf ns : Forall note_wf ns -> json_wf (json_of_notes ns).
Proof.
  unfold json_of_notes. induction 1 as [|n ns Hn Hns IH]; [exact I|].
  cbn [map json_wf fold_right]. split; [now apply json_of_note_wf|exact IH].
Qed.

(** ** JSON texts: fuel *)

Lemma skip_ws_length s : (List.length (skip_ws s) <= List.length s)%nat.
Proof.
  induction s as [|c s IH]; simpl; [lia|].
  destruct (is_json_ws c); simpl; lia.
Qed.

Lemma bind_inv {A B} (m : outcome A) (k : A -> outcome B) b :
  bind m k = Parsed b -> exists a, m = Parsed a /\ k a = Parsed b.
Proof. destruct m; simpl; try discriminate. intros H. now exists a. Qed.

Lemma parse_chars_shorter n : forall s t r,
  (List.length s <= n)%nat ->
  parse_chars s = Parsed (t, r) -> (List.length r < List.length s)%nat.
Proof.
  induction n as [|n IH]; intros s t r Hn H;
    destruct s as [|c s]; try discriminate; simpl in Hn; try lia.
  cbn [parse_chars] in H.
  destruct (c =? 34)%N.
  { injection H as <- <-. simpl. lia. }
  destruct (c =? 92)%N.
  { destruct s as [|e s]; [discriminate|].
    destruct (e =? 117)%N.
    - destruct s as [|h1 [|h2 [|h3 [|h4 s]]]]; try discriminate.
      destruct (hex_value h1), (hex_value h2), (hex_value h3), (hex_value h4);
        try discriminate.
      apply bind_inv in H as ([t' r'] & H & Hk). injection Hk as <- <-.
      apply IH in H; simpl in *; lia.
    - destruct (unescape e); [|discriminate].
      apply bind_inv in H as ([t' r'] & H & Hk). injection Hk as <- <-.
      apply IH in H; simpl in *; lia. }
  destruct (c <? 32)%N; [discriminate|].
  apply bind_inv in H as ([t' r'] & H & Hk). injection Hk as <- <-.
  apply IH in H; simpl in *; lia.
Qed.

Lemma span_digits_length s :
  (List.length (fst (span_digits s)) + List.length (snd (span_digits s)) =
   List.length s)%nat.
Proof.
  induction s as [|c s IH]; [reflexivity|]. cbn [span_digits].
  destruct (is_digit c); [|reflexivity].
  destruct (span_digits s) as [ds r]. simpl in *. lia.
Qed.

Lemma parse_fraction_cases r :
  parse_fraction r = SyntaxError \/
  exists fs r1, parse_fraction r = Parsed (fs, r1) /\
                (List.length r1 <= List.length r)%nat.
Proof.
  unfold parse_fraction. destruct r as [|c r0].
  - right. exists [], []. split; [reflexivity|lia].
  - destruct (c =? 46)%N.
    + pose proof (span_digits_length r0) as Hs.
      destruct (span_digits r0) as [[|f fs] r1]; [now left|].
      right. exists (f :: fs), r1. split; [reflexivity|]. simpl in *. lia.
    + right. exists [], (c :: r0). split; [reflexivity|lia].
Qed.

Lemma parse_exponent_cases r :
  parse_exponent r = SyntaxError \/
  exists x r1, parse_exponent r = Parsed (x, r1) /\
               (List.length r1 <= List.length r)%nat.
Proof.
  unfold parse_exponent. destruct r as [|c r0].
  - right. exists 0, []. split; [reflexivity|lia].
  - destruct ((c =? 101) || (c =? 69))%N.
    + set (p := match r0 with
                | sg :: r2 =>
                    if (sg =? 45)%N then (true, r2)
                    else if (sg =? 43)%N then (false, r2) else (false, r0)
                | [] => (false, r0)
                end).
      assert (Hp : (List.length (snd p) <= List.length r0)%nat).
      { subst p. destruct r0 as [|sg r2]; [simpl; lia|].
        destruct (sg =? 45)%N; [simpl; lia|].
        destruct (sg =? 43)%N; simpl; lia. }
      destruct p as [minus r2]. cbn [snd] in Hp.
      pose proof (span_digits_length r2) as Hs.
      destruct (span_digits r2) as [[|d es] r3]; [now left|].
      right. eexists; exists r3. split; [reflexivity|]. simpl in *. lia.
    + right. exists 0, (c :: r0). split; [reflexivity|lia].
Qed.

Lemma parse_number_shorter s v r :
  parse_number s = Parsed (v, r) -> (List.length r < List.length s)%nat.
Proof.
  unfold parse_number.
  set (p := match s with
            | c :: r0 => if (c =? 45)%N then (true, r0) else (false, s)
            | [] => (false, s)
            end).
  assert (Hp : (List.length (snd p) <= List.length s)%nat).
  { subst p. destruct s as [|c s']; [simpl; lia|].
    destruct (c =? 45)%N; simpl; lia. }
  destruct p as [negative s1]. cbn [snd] in Hp.
  pose proof (span_digits_length s1) as Hs.
  destruct (span_digits s1) as [ds r0]. cbn [fst snd] in Hs.
  destruct ds as [|d ds']; [discriminate|].
  destruct ((d =? 48)%N && negb match ds' with [] => true | _ => false end);
    [discriminate|].
  destruct (parse_fraction_cases r0) as [Ef|(fs & r1 & Ef & Hf)]; rewrite Ef;
    [discriminate|]. cbn [bind].
  destruct (parse_exponent_cases r1) as [Ee|(x & r2 & Ee & He)]; rewrite Ee;
    [discriminate|]. cbn [bind].
  intros [= <- <-]. simpl in Hs. lia.
Qed.

Lemma expect_shorter name s v v' r :
  expect name s v = Parsed (v', r) -> (List.length r <= List.length s)%nat.
Proof.
  unfold expect. destruct (starts_with name s); [|discriminate].
  intros [= <- <-]. rewrite length_skipn. lia.
Qed.

Lemma is_char_length k s :
  is_char k s = true -> (List.length (tl s) < List.length s)%nat.
Proof. destruct s; simpl; [discriminate|lia]. Qed.

Lemma tl_length (s : jsstring) : (List.length (tl s) <= List.length s)%nat.
Proof. destruct s; simpl; lia. Qed.

Lemma parse_shorter f :
  (forall s v r, parse_value f s = Parsed (v, r) ->
     (List.length r < List.length s)%nat) /\
  (forall s vs r, parse_elements f s = Parsed (vs, r) ->
     (List.length r < List.length s)%nat) /\
  (forall s ms r, parse_members f s = Parsed (ms, r) ->
     (List.length r < List.length s)%nat).
Proof.
  induction f as [|f (IH1 & IH2 & IH3)]; [repeat split; discriminate|].
  split; [|split].
  - intros s v r H. cbn [parse_value] in H.
    pose proof (skip_ws_length s) as Hs.
    destruct (skip_ws s) as [|c s1]; [discriminate|]. simpl in Hs.
    pose proof (skip_ws_length s1) as Hs1.
    pose proof (tl_length (skip_ws s1)) as Ht1.
    destruct (c =? 123)%N.
    { destruct (is_char 125 (skip_ws s1)).
      - injection H as <- <-. lia.
      - apply bind_inv in H as ([ms r'] & H & Hk). injection Hk as <- <-.
        apply IH3 in H. lia. }
    destruct (c =? 91)%N.
    { destruct (is_char 93 (skip_ws s1)).
      - injection H as <- <-. lia.
      - apply bind_inv in H as ([vs r'] & H & Hk). injection Hk as <- <-.
        apply IH2 in H. lia. }
    destruct (c =? 34)%N.
    { apply bind_inv in H as ([str r'] & H & Hk). injection Hk as <- <-.
      apply (parse_chars_shorter _ _ _ _ (le_n _)) in H. lia. }
    destruct (c =? 116)%N; [apply expect_shorter in H; lia|].
    destruct (c =? 102)%N; [apply expect_shorter in H; lia|].
    destruct (c =? 110)%N; [apply expect_shorter in H; lia|].
    apply parse_number_shorter in H. simpl in H. lia.
  - intros s vs r H. cbn [parse_elements] in H.
    apply bind_inv in H as ([v r1] & H & Hk). apply IH1 in H.
    pose proof (skip_ws_length r1) as Hs1.
    pose proof (tl_length (skip_ws r1)) as Ht1.
    destruct (is_char 44 (skip_ws r1)).
    + apply bind_inv in Hk as ([vs' r'] & Hk & Hk'). injection Hk' as <- <-.
      apply IH2 in Hk. lia.
    + destruct (is_char 93 (skip_ws r1)); [|discriminate].
      injection Hk as <- <-. lia.
  - intros s ms r H. cbn [parse_members] in H.
    pose proof (skip_ws_length s) as Hs.
    pose proof (tl_length (skip_ws s)) as Ht.
    destruct (is_char 34 (skip_ws s)); [|discriminate].
    apply bind_inv in H as ([k r1] & H & Hk).
    apply (parse_chars_shorter _ _ _ _ (le_n _)) in H.
    pose proof (skip_ws_length r1) as Hs1.
    pose proof (tl_length (skip_ws r1)) as Ht1.
    destruct (is_char 58 (skip_ws r1)); [|discriminate].
    apply bind_inv in Hk as ([v r2] & Hk & Hk'). apply IH1 in Hk.
    pose proof (skip_ws_length r2) as Hs2.
    pose proof (tl_length (skip_ws r2)) as Ht2.
    destruct (is_char 44 (skip_ws r2)).
    + apply bind_inv in Hk' as ([ms' r'] & Hk' & Hk''). injection Hk'' as <- <-.
      apply IH3 in Hk'. lia.
    + destruct (is_char 125 (skip_ws r2)); [|discriminate].
      injection Hk' as <- <-. lia.
Qed.

Lemma bind_fuel {A B} (m : outcome A) (k : A -> outcome B) :
  bind m k = OutOfFuel ->
  m = OutOfFuel \/ exists a, m = Parsed a /\ k a = OutOfFuel.
Proof. destruct m; simpl; try discriminate; eauto. Qed.

Lemma parse_chars_fuel n : forall s,
  (List.length s <= n)%nat -> parse_chars s <> OutOfFuel.
Proof.
  induction n as [|n IH]; intros s Hn H;
    destruct s as [|c s]; try discriminate; simpl in Hn; try lia.
  cbn [parse_chars] in H.
  destruct (c =? 34)%N; [discriminate|].
  destruct (c =? 92)%N.
  { destruct s as [|e s]; [discriminate|].
    destruct (e =? 117)%N.
    - destruct s as [|h1 [|h2 [|h3 [|h4 s]]]]; try discriminate.
      destruct (hex_value h1), (hex_value h2), (hex_value h3), (hex_value h4);
        try discriminate.
      apply bind_fuel in H as [H|([t' r'] & _ & H)]; [|discriminate].
      apply IH in H; [assumption|simpl in *; lia].
    - destruct (unescape e); [|discriminate].
      apply bind_fuel in H as [H|([t' r'] & _ & H)]; [|discriminate].
      apply IH in H; [assumption|simpl in *; lia]. }
  destruct (c <? 32)%N; [discriminate|].
  apply bind_fuel in H as [H|([t' r'] & _ & H)]; [|discriminate].
  apply IH in H; [assumption|simpl in *; lia].
Qed.

Lemma parse_number_fuel s : parse_number s <> OutOfFuel.
Proof.
  unfold parse_number.
  destruct (match s with
            | c :: r0 => if (c =? 45)%N then (true, r0) else (false, s)
            | [] => (false, s)
            end) as [negative s1].
  destruct (span_digits s1) as [ds r0].
  destruct ds as [|d ds']; [discriminate|].
  destruct ((d =? 48)%N && negb match ds' with [] => true | _ => false end);
    [discriminate|].
  destruct (parse_fraction_cases r0) as [Ef|(fs & r1 & Ef & Hf)]; rewrite Ef;
    [discriminate|]. cbn [bind].
  destruct (parse_exponent_cases r1) as [Ee|(x & r2 & Ee & He)]; rewrite Ee;
    discriminate.
Qed.

Lemma expect_fuel name s v : expect name s v <> OutOfFuel.
Proof. unfold expect. destruct (starts_with name s); discriminate. Qed.

Lemma parse_fuel f :
  (forall s, (2 * List.length s + 1 <= f)%nat -> parse_value f s <> OutOfFuel) /\
  (forall s, (2 * List.length s + 2 <= f)%nat -> parse_elements f s <> OutOfFuel) /\
  (forall s, (2 * List.length s + 2 <= f)%nat -> parse_members f s <> OutOfFuel).
Proof.
  induction f as [|f (IH1 & IH2 & IH3)]; [repeat split; intros; lia|].
  destruct (parse_shorter f) as (S1 & S2 & S3).
  split; [|split].
  - intros s Hf H. cbn [parse_value] in H.
    pose proof (skip_ws_length s) as Hs.
    destruct (skip_ws s) as [|c s1]; [discriminate|]. simpl in Hs.
    destruct (c =? 123)%N.
    { destruct (is_char 125 (skip_ws s1)); [discriminate|].
      apply bind_fuel in H as [H|([ms r'] & _ & H)]; [|discriminate].
      apply IH3 in H; [assumption|lia]. }
    destruct (c =? 91)%N.
    { destruct (is_char 93 (skip_ws s1)); [discriminate|].
      apply bind_fuel in H as [H|([vs r'] & _ & H)]; [|discriminate].
      apply IH2 in H; [assumption|lia]. }
    destruct (c =? 34)%N.
    { apply bind_fuel in H as [H|([str r'] & _ & H)]; [|discriminate].
      now apply (parse_chars_fuel _ _ (le_n _)) in H. }
    destruct (c =? 116)%N; [now apply expect_fuel in H|].
    destruct (c =? 102)%N; [now apply expect_fuel in H|].
    destruct (c =? 110)%N; [now apply expect_fuel in H|].
    now apply parse_number_fuel in H.
  - intros s Hf H. cbn [parse_elements] in H.
    apply bind_fuel in H as [H|([v r1] & Hv & H)].
    { apply IH1 in H; [assumption|lia]. }
    apply S1 in Hv.
    pose proof (skip_ws_length r1) as Hs1.
    pose proof (tl_length (skip_ws r1)) as Ht1.
    destruct (is_char 44 (skip_ws r1)).
    + apply bind_fuel in H as [H|([vs' r'] & _ & H)]; [|discriminate].
      apply IH2 in H; [assumption|lia].
    + destruct (is_char 93 (skip_ws r1)); discriminate.
  - intros s Hf H. cbn [parse_members] in H.
    pose proof (skip_ws_length s) as Hs.
    pose proof (tl_length (skip_ws s)) as Ht.
    destruct (is_char 34 (skip_ws s)); [|discriminate].
    apply bind_fuel in H as [H|([k r1] & Hk & H)].
    { now apply (parse_chars_fuel _ _ (le_n _)) in H. }
    apply (parse_chars_shorter _ _ _ _ (le_n _)) in Hk.
    pose proof (skip_ws_length r1) as Hs1.
    pose proof (tl_length (skip_ws r1)) as Ht1.
    destruct (is_char 58 (skip_ws r1)); [|discriminate].
    apply bind_fuel in H as [H|([v r2] & Hv & H)].
    { apply IH1 in H; [assumption|lia]. }
    apply S1 in Hv.
    pose proof (skip_ws_length r2) as Hs2.
    pose proof (tl_length (skip_ws r2)) as Ht2.
    destruct (is_char 44 (skip_ws r2)).
    + apply bind_fuel in H as [H|([ms' r'] & _ & H)]; [|discriminate].
      apply IH3 in H; [assumption|lia].
    + destruct (is_char 125 (skip_ws r2)); discriminate.
Qed.

(** [JSON_parse] never runs out of fuel: it answers a value, a syntax error,
    or that a numeral is outside the embedding. *)
Lemma JSON_parse_fuel text : JSON_parse text <> OutOfFuel.
Proof.
  unfold JSON_parse. intros H.
  apply bind_fuel in H as [H|([v r] & _ & H)].
  - apply (proj1 (parse_fuel _)) in H; [assumption|lia].
  - destruct (skip_ws r); discriminate.
Qed.

(** ** load and save *)

(** C3 (as amended): for every outcome of the read, and so for every stored
    text, [load] returns a value: it never raises and never lacks an answer.
    It returns the empty collection when the read itself fails, when there is
    no blob or an empty one, and when the blob is not a JSON text; a blob
    that is a JSON text is returned as [JSON.parse] reads it, whatever its
    shape. *)
Theorem load_fails_soft (r : storage_read) :
  (exists v, load r = Returns v) /\
  (r = ReadThrows \/ r = ReadNull \/ r = ReadString [] ->
     load r = Returns (JArr [])) /\
  (forall raw, r = ReadString raw ->
     (JSON_parse raw = SyntaxError /\ load r = Returns (JArr [])) \/
     (exists v, JSON_parse raw = Parsed v /\ load r = Returns v)).
Proof.
  assert (Hraw : forall raw,
            (JSON_parse raw = SyntaxError /\
             load (ReadString raw) = Returns (JArr [])) \/
            (exists v, JSON_parse raw = Parsed v /\
                       load (ReadString raw) = Returns v)).
  { intros raw. unfold load, load_try.
    pose proof (JSON_parse_fuel raw) as Hfuel.
    destruct raw as [|c raw']; [left; now split|].
    destruct (JSON_parse (c :: raw')) as [v| |].
    - right. now exists v.
    - left. now split.
    - now elim Hfuel. }
  split; [|split].
  - destruct r as [| |raw]; [now exists (JArr [])|now exists (JArr [])|].
    destruct (Hraw raw) as [[_ H]|(v & _ & H)]; eexists; exact H.
  - intros [-> | [-> | ->]]; reflexivity.
  - intros raw ->. apply Hraw.
Qed.

(** A text cut short is no JSON text and gives the empty collection; numerals
    with a fraction or an exponent are read, as the Numbers nearest to them;
    an integer numeral beyond 2^53 is read as the Number nearest to it. *)
Lemma load_numerals :
  load (ReadString (lit "[1.5")) = Returns (JArr []) /\
  load (ReadString (lit "[1.5]")) =
    Returns (JArr [JDbl (S754_finite false 6755399441055744 (-52))]) /\
  load (ReadString (lit "[15e-1, 1.50, -0, 2e3, 0.1e1]")) =
    Returns (JArr [JDbl (S754_finite false 6755399441055744 (-52));
                   JDbl (S754_finite false 6755399441055744 (-52));
                   JDbl (S754_zero true); JNum 2000; JNum 1]) /\
  load (ReadString (lit "9007199254740993")) =
    Returns (JDbl (S754_finite false 4503599627370496 1)) /\
  load (ReadString (lit "[1e]")) = Returns (JArr []) /\
  load (ReadString (lit "[1.]")) = Returns (JArr []) /\
  load (ReadString (lit "[01]")) = Returns (JArr []).
Proof. repeat split; vm_compute; reflexivity. Qed.

(** What [JSON.stringify] writes for Numbers that are not safe integers. *)
Lemma stringify_numbers :
  JSON_stringify
    (JArr [JDbl (S754_finite false 6755399441055744 (-52));
           JDbl (S754_zero true);
           JDbl (S754_finite false 4503599627370496 1);
           JDbl (S754_infinity false)]) =
  lit "[1.5,0,9007199254740992,null]".
Proof. vm_compute. reflexivity. Qed.

(** C3 as stated does not hold: the blobs [{}] and [[1]] parse, neither
    is an array of Note objects, and [load] returns them as they are, not an
    empty collection. *)
Lemma load_keeps_other_shapes :
  (JSON_parse (lit "{}") = Parsed (JObj []) /\
   has_collection_shape (JObj []) = false /\
   load (ReadString (lit "{}")) = Returns (JObj [])) /\
  (JSON_parse (lit "[1]") = Parsed (JArr [JNum 1]) /\
   has_collection_shape (JArr [JNum 1]) = false /\
   load (ReadString (lit "[1]")) = Returns (JArr [JNum 1])) /\
  JObj [] <> JArr [] /\ JArr [JNum 1] <> JArr [].
Proof.
  repeat split; try reflexivity; discriminate.
Qed.

(** C7: for a value [v] the store can hold (a collection of Notes is one),
    [load] of the blob that [save] wrote returns [v], and whatever [load]
    returns from that blob, [save] writes it as the very same blob. *)
Theorem save_load_save (v : json) :
  json_wf v ->
  load (ReadString (save v)) = Returns v /\
  (forall v', load (ReadString (save v)) = Returns v' -> save v' = save v).
Proof.
  intros Hwf. pose proof (load_save v Hwf) as H. split; [exact H|].
  intros v' H'. rewrite H in H'. now injection H' as <-.
Qed.

Lemma sample_notes_wf : json_wf (json_of_notes sample_notes).
Proof.
  apply json_of_notes_wf.
  repeat constructor; simpl; lia.
Defined.

Lemma save_load_save_witness :
  load (ReadString (save (json_of_notes sample_notes))) =
    Returns (json_of_notes sample_notes) /\
  (forall v',
     load (ReadString (save (json_of_notes sample_notes))) = Returns v' ->
     save v' = save (json_of_notes sample_notes)).
Proof.
  apply (save_load_save (json_of_notes sample_notes)).
  exact sample_notes_wf.
Defined.

Lemma notes_of_json_of_notes ns : notes_of_json (json_of_notes ns) = Some ns.
Proof.
  unfold notes_of_json, json_of_notes.
  induction ns as [|n ns IH]; [reflexivity|].
  cbn [map notes_of_list]. rewrite IH. now destruct n.
Qed.

(** The same for a collection of Notes, as the store holds it. *)
Corollary save_load_notes (ns : list Note) :
  Forall note_wf ns ->
  load (ReadString (save (json_of_notes ns))) = Returns (json_of_notes ns) /\
  notes_of_json (json_of_notes ns) = Some ns /\
  has_collection_shape (json_of_notes ns) = true.
Proof.
  intros Hwf. split; [now apply load_save, json_of_notes_wf|].
  split; [apply notes_of_json_of_notes|].
  unfold json_of_notes. clear Hwf. induction ns as [|n ns IH]; [reflexivity|].
  cbn [map has_collection_shape forallb]. cbn [has_collection_shape] in IH.
  now rewrite IH.
Qed.

(** ** Editor session *)

Lemma or_empty_id x : or_empty x = x.
Proof. now destruct x. Qed.

Lemma render_app_due t st prev e :
  render_app t st prev = Some e -> due (e_timer e) = t + 200.
Proof.
  unfold render_app. destruct (selectedNote st) as [n|]; [|discriminate].
  destruct prev as [e0|].
  - destruct (str_eq_dec (e_key e0) (id n)); intros [= <-]; reflexivity.
  - intros [= <-]; reflexivity.
Qed.

(** Fuel: [elapse_fuel] stops only when no timer is due by [t]. *)
Lemma elapse_fuel_complete t fuel : forall w,
  (forall e, editor w = Some e -> t < due (e_timer e) + 200 * Z.of_nat fuel) ->
  forall e', editor (elapse_fuel fuel t w) = Some e' -> t < due (e_timer e').
Proof.
  induction fuel as [|fuel IH]; intros w Hw e' He'.
  - simpl in He'. specialize (Hw e' He'). lia.
  - cbn [elapse_fuel] in He'. destruct (editor w) as [e|] eqn:Ee; [|congruence].
    destruct (due (e_timer e) <=? t) eqn:Hd.
    + apply (IH (fire e w)); [|exact He'].
      intros e1 He1. unfold fire in He1. cbn [editor] in He1.
      apply render_app_due in He1. specialize (Hw e eq_refl). lia.
    + apply Z.leb_gt in Hd. rewrite Ee in He'. now injection He' as <-.
Qed.

Lemma elapse_complete t0 t w :
  (forall e, editor w = Some e -> t0 <= due (e_timer e)) ->
  forall e', editor (elapse t0 t w) = Some e' -> t < due (e_timer e').
Proof.
  intros Hw. apply elapse_fuel_complete. intros e He. specialize (Hw e He). lia.
Qed.

Lemma elapse_fuel_idle fuel t w :
  (forall e, editor w = Some e -> t < due (e_timer e)) ->
  elapse_fuel fuel t w = w.
Proof.
  intros Hw. destruct fuel as [|fuel]; [reflexivity|]. cbn [elapse_fuel].
  destruct (editor w) as [e|]; [|reflexivity].
  specialize (Hw e eq_refl). apply Z.leb_gt in Hw. now rewrite Hw.
Qed.

Lemma elapse_fuel_step fuel t w e :
  editor w = Some e -> due (e_timer e) <= t ->
  elapse_fuel (S fuel) t w = elapse_fuel fuel t (fire e w).
Proof.
  intros He Hd. cbn [elapse_fuel]. rewrite He.
  apply Z.leb_le in Hd. now rewrite Hd.
Qed.

Lemma find_id_update now i patch (l : list Note) j :
  find (id_is j) (map (fun n => if id_is i n then merge n patch now else n) l) =
  option_map (fun n => if id_is i n then merge n patch now else n)
             (find (id_is j) l).
Proof.
  induction l as [|a l IH]; [reflexivity|]. cbn [map find].
  assert (E : id_is j (if id_is i a then merge a patch now else a) = id_is j a).
  { destruct (id_is i a); reflexivity. }
  rewrite E. destruct (id_is j a); [reflexivity|exact IH].
Qed.

Lemma selectedNote_updateNote now i patch st :
  selectedNote (updateNote now i patch st) =
  option_map (fun n => if id_is i n then merge n patch now else n)
             (selectedNote st).
Proof.
  unfold selectedNote, updateNote. cbn [selectedId notes].
  destruct (selectedId st) as [s|]; [|reflexivity]. apply find_id_update.
Qed.

Lemma selectedNote_id st n : selectedNote st = Some n -> selectedId st = Some (id n).
Proof.
  unfold selectedNote. destruct (selectedId st) as [s|]; [|discriminate].
  intros H. apply find_some in H as [_ H]. apply id_is_true in H. now subst.
Qed.

(** The timer of an editor bound to the selected Note fires: the store is
    updated with the buffer the timer closed over, the commit is recorded,
    and the editor, kept, has a new timer 200 later with the same buffer. *)
Lemma fire_bound e w n :
  editor w = Some e ->
  selectedNote (appState w) = Some n ->
  e_key e = id n ->
  t_target (e_timer e) = e_key e ->
  let tm := e_timer e in
  let patch := mkPatch (Some (t_title tm)) (Some (t_content tm)) in
  fire e w =
    {| appState := updateNote (due tm) (id n) patch (appState w);
       editor := Some (rearm (due tm) e);
       commits := commits w ++ [mkCommit (due tm) (id n) (t_title tm) (t_content tm)] |} /\
  selectedNote (updateNote (due tm) (id n) patch (appState w)) =
    Some (mkNote (id n) (t_title tm) (t_content tm) (due tm)).
Proof.
  intros He Hn Hk Ht tm patch. subst tm patch.
  assert (Hsel : selectedNote
                   (updateNote (due (e_timer e)) (id n)
                      (mkPatch (Some (t_title (e_timer e)))
                               (Some (t_content (e_timer e)))) (appState w)) =
                 Some (mkNote (id n) (t_title (e_timer e))
                              (t_content (e_timer e)) (due (e_timer e)))).
  { rewrite selectedNote_updateNote, Hn. cbn [option_map].
    assert (Hi : id_is (id n) n = true) by now apply id_is_true.
    now rewrite Hi. }
  split; [|exact Hsel].
  unfold fire. cbv zeta. rewrite Ht, Hk. f_equal.
  unfold render_app. rewrite Hsel, He. cbn [id].
  destruct (str_eq_dec (e_key e) (id n)); [reflexivity|contradiction].
Qed.

Lemma fire_keeps_bound w e n :
  bound w e n ->
  bound (fire e w) (rearm (due (e_timer e)) e)
        (mkNote (id n) (e_title e) (e_content e) (due (e_timer e))) /\
  commits (fire e w) =
    commits w ++ [mkCommit (due (e_timer e)) (id n) (e_title e) (e_content e)] /\
  appState (fire e w) =
    updateNote (due (e_timer e)) (id n)
      (mkPatch (Some (e_title e)) (Some (e_content e))) (appState w).
Proof.
  intros (He & Hn & Hk & Ht).
  assert (Htg : t_target (e_timer e) = e_key e) by now rewrite Ht.
  assert (Hti : t_title (e_timer e) = e_title e) by now rewrite Ht.
  assert (Hco : t_content (e_timer e) = e_content e) by now rewrite Ht.
  destruct (fire_bound e w n He Hn Hk Htg) as [Hf Hs].
  cbv zeta in Hf, Hs. rewrite Hti, Hco in Hf, Hs.
  rewrite Hf. cbn [commits appState editor]. repeat split; try assumption.
  unfold rearm, debounce_effect. cbn [e_timer due e_key e_title e_content].
  do 2 f_equal. lia.
Qed.

(** An editor left alone keeps committing: of the timers of a bound editor,
    the first due at [d], exactly [k] have fired by any time in
    [d + 200 (k - 1), d + 200 k), each with the same buffer. *)
Lemma elapse_fuel_periodic k : forall fuel w e n t,
  bound w e n ->
  (k <= fuel)%nat ->
  due (e_timer e) + 200 * Z.of_nat k - 200 <= t < due (e_timer e) + 200 * Z.of_nat k ->
  commits (elapse_fuel fuel t w) =
  commits w ++ periodic_commits (due (e_timer e)) (id n) (e_title e) (e_content e) k.
Proof.
  induction k as [|k IH]; intros fuel w e n t Hb Hfuel Ht.
  - rewrite elapse_fuel_idle; [now rewrite app_nil_r|].
    intros e' He'. destruct Hb as (He & _). rewrite He in He'.
    injection He' as <-. lia.
  - destruct fuel as [|fuel]; [lia|]. cbn [elapse_fuel].
    pose proof Hb as (He & _). rewrite He.
    assert (Hd : (due (e_timer e) <=? t) = true) by (apply Z.leb_le; lia).
    rewrite Hd.
    destruct (fire_keeps_bound w e n Hb) as (Hb' & Hc & _).
    rewrite (IH fuel _ _ _ t Hb'); [| lia |].
    + rewrite Hc, <- app_assoc. f_equal.
      unfold periodic_commits. cbn [rearm e_timer debounce_effect due id e_title e_content].
      cbn [seq map app]. f_equal; [do 2 f_equal; lia|].
      rewrite <- seq_shift, map_map. apply map_ext. intros j. f_equal. lia.
    + cbn [rearm e_timer debounce_effect due]. lia.
Qed.

Lemma mount_bound t st prev log n :
  selectedNote st = Some n ->
  (forall e, prev = Some e -> e_key e <> id n) ->
  render_app t st prev = Some (mount t n) /\
  bound {| appState := st; editor := render_app t st prev; commits := log |}
        (mount t n) n.
Proof.
  intros Hn Hprev.
  assert (E : render_app t st prev = Some (mount t n)).
  { unfold render_app. rewrite Hn. destruct prev as [e|]; [|reflexivity].
    destruct (str_eq_dec (e_key e) (id n)) as [Heq|]; [|reflexivity].
    now elim (Hprev e eq_refl). }
  split; [exact E|]. unfold bound. cbn [editor appState]. rewrite E.
  repeat split; try assumption.
  unfold mount, debounce_effect. cbn [e_timer due e_key e_title e_content].
  do 2 f_equal. lia.
Qed.

(** C10: [App] renders at [t] with [n] selected, and the editor of the
    render before, if there was one, was bound to another Note.  Then an
    editor is mounted for [n] with a timer pending for [t + 200]; with no
    event, nothing is committed before [t + 200], and at [t + 200] the
    store's update is called once for [n] with the title and content [n]
    already has, after which the Note is the same except for its
    [updatedAt], now [t + 200]. *)
Theorem binding_schedules_commit (t : Z) (st : AppState) (prev : option Editor)
  (log : list Commit) (n : Note) :
  selectedNote st = Some n ->
  (forall e, prev = Some e -> e_key e <> id n) ->
  let w := {| appState := st; editor := render_app t st prev; commits := log |} in
  editor w = Some (mount t n) /\
  due (e_timer (mount t n)) = t + 200 /\
  (forall t', t <= t' < t + 200 -> elapse t t' w = w) /\
  commits (elapse t (t + 200) w) =
    log ++ [mkCommit (t + 200) (id n) (title n) (content n)] /\
  appState (elapse t (t + 200) w) =
    updateNote (t + 200) (id n) (mkPatch (Some (title n)) (Some (content n))) st /\
  selectedNote (appState (elapse t (t + 200) w)) =
    Some (mkNote (id n) (title n) (content n) (t + 200)).
Proof.
  intros Hn Hprev w.
  destruct (mount_bound t st prev log n Hn Hprev) as [E Hb]. fold w in Hb.
  split; [exact E|]. split; [reflexivity|]. split.
  { intros t' Ht'. unfold elapse. apply elapse_fuel_idle.
    intros e He. change (editor w) with (render_app t st prev) in He.
    rewrite E in He. injection He as <-. cbn. lia. }
  assert (Hfuel : elapse t (t + 200) w = fire (mount t n) w).
  { unfold elapse. replace (Z.to_nat (t + 200 - t) + 1)%nat with (S 200) by lia.
    rewrite (elapse_fuel_step _ _ w (mount t n)); [|exact E|cbn; lia].
    apply elapse_fuel_idle. intros e He.
    destruct (fire_keeps_bound w (mount t n) n Hb) as ((He' & _) & _).
    rewrite He' in He. injection He as <-. cbn. lia. }
  destruct (fire_keeps_bound w (mount t n) n Hb) as ((_ & Hs & _) & Hc & Ha).
  cbn [mount e_timer debounce_effect due e_title e_content] in Hs, Hc, Ha.
  rewrite !or_empty_id in Hs, Hc, Ha.
  rewrite Hfuel.
  split; [exact Hc|]. split; [exact Ha|exact Hs].
Qed.

Lemma binding_schedules_commit_witness :
  let n := mkNote (lit "a") (lit "Shopping") [] 100 in
  let w := {| appState := selecting_a;
              editor := render_app 1000 selecting_a None;
              commits := [] |} in
  editor w = Some (mount 1000 n) /\
  due (e_timer (mount 1000 n)) = 1000 + 200 /\
  (forall t', 1000 <= t' < 1000 + 200 -> elapse 1000 t' w = w) /\
  commits (elapse 1000 (1000 + 200) w) =
    [] ++ [mkCommit (1000 + 200) (id n) (title n) (content n)] /\
  appState (elapse 1000 (1000 + 200) w) =
    updateNote (1000 + 200) (id n)
      (mkPatch (Some (title n)) (Some (content n))) selecting_a /\
  selectedNote (appState (elapse 1000 (1000 + 200) w)) =
    Some (mkNote (id n) (title n) (content n) (1000 + 200)).
Proof.
  apply (binding_schedules_commit 1000 selecting_a None []
           (mkNote (lit "a") (lit "Shopping") [] 100)).
  - reflexivity.
  - discriminate.
Defined.

(** ** The editor follows the selection *)

Lemma render_app_ok t st prev log :
  world_ok {| appState := st; editor := render_app t st prev; commits := log |}.
Proof.
  unfold world_ok, render_app. cbn [editor appState].
  destruct (selectedNote st) as [n|] eqn:Hn; [|reflexivity].
  assert (Hm : bound {| appState := st; editor := Some (mount t n); commits := log |}
                     (mount t n) n).
  { repeat split; try assumption. unfold mount, debounce_effect.
    cbn [e_timer due e_key e_title e_content]. do 2 f_equal. lia. }
  destruct prev as [e|]; [|now exists n].
  destruct (str_eq_dec (e_key e) (id n)) as [Hk|]; [|now exists n].
  exists n. repeat split; try assumption.
  unfold rearm, debounce_effect. cbn [e_timer due e_key e_title e_content].
  do 2 f_equal. lia.
Qed.

Lemma edit_keeps_bound t f value w e n :
  bound w e n ->
  bound {| appState := appState w; editor := Some (edit t f value e);
           commits := commits w |} (edit t f value e) n.
Proof.
  intros (He & Hn & Hk & Ht). unfold bound. cbn [editor appState].
  split; [reflexivity|]. split; [exact Hn|].
  unfold edit.
  destruct f;
    [destruct (str_eq_dec (e_title e) value)
    |destruct (str_eq_dec (e_content e) value)];
    try (split; assumption);
    (split; [exact Hk|]);
    unfold rearm, debounce_effect;
    cbn [e_timer due e_key e_title e_content]; do 2 f_equal; lia.
Qed.

Lemma handle_ok t ev w : world_ok w -> world_ok (handle t ev w).
Proof.
  intros Hw. destruct ev as [f value|i|fresh|i|q]; cbn [handle].
  - unfold world_ok in *. cbn [editor appState].
    destruct (editor w) as [e|] eqn:He; cbn [option_map]; [|exact Hw].
    destruct Hw as (n & Hb). exists n. now apply edit_keeps_bound.
  - destruct (sel_eq_dec (selectedId (appState w)) (Some i)); [exact Hw|].
    apply render_app_ok.
  - apply render_app_ok.
  - apply render_app_ok.
  - destruct (str_eq_dec (query (appState w)) q); [exact Hw|].
    apply render_app_ok.
Qed.

Lemma fire_ok e w : world_ok (fire e w).
Proof. unfold fire. apply render_app_ok. Qed.

Lemma elapse_fuel_ok fuel t : forall w, world_ok w -> world_ok (elapse_fuel fuel t w).
Proof.
  induction fuel as [|fuel IH]; intros w Hw; [exact Hw|]. cbn [elapse_fuel].
  destruct (editor w) as [e|]; [|exact Hw].
  destruct (due (e_timer e) <=? t); [|exact Hw].
  apply IH, fire_ok.
Qed.

Lemma session_ok evs : forall t0 w, world_ok w -> world_ok (session t0 evs w).
Proof.
  induction evs as [|[t ev] evs IH]; intros t0 w Hw; [exact Hw|].
  cbn [session]. apply IH, handle_ok, elapse_fuel_ok, Hw.
Qed.

Lemma editor_key_selected w e :
  world_ok w -> editor w = Some e -> selectedId (appState w) = Some (e_key e).
Proof.
  unfold world_ok. intros Hw He. rewrite He in Hw.
  destruct Hw as (n & _ & Hn & Hk & _). rewrite Hk. now apply selectedNote_id.
Qed.

(** Selecting another Note in the sidebar, and creating a Note, bind the
    editor in this way. *)
Lemma select_binds t i w n :
  world_ok w ->
  selectedId (appState w) <> Some i ->
  find (id_is i) (notes (appState w)) = Some n ->
  handle t (Select i) w =
    {| appState := selectNote (Some i) (appState w);
       editor := Some (mount t n);
       commits := commits w |} /\
  selectedNote (selectNote (Some i) (appState w)) = Some n.
Proof.
  intros Hw Hsel Hfind.
  assert (Hn : selectedNote (selectNote (Some i) (appState w)) = Some n)
    by exact Hfind.
  split; [|exact Hn].
  unfold handle. destruct (sel_eq_dec (selectedId (appState w)) (Some i));
    [contradiction|].
  cbv zeta. f_equal.
  apply (mount_bound t _ (editor w) [] n Hn).
  intros e He Hk. apply Hsel.
  rewrite (editor_key_selected w e Hw He), Hk.
  apply find_some in Hfind as [_ Hi]. apply id_is_true in Hi. now rewrite Hi.
Qed.

Lemma create_binds t fresh w :
  world_ok w ->
  ~ In fresh (ids (appState w)) ->
  handle t (Create fresh) w =
    {| appState := snd (createNote fresh t (appState w));
       editor := Some (mount t (newNote fresh t));
       commits := commits w |}.
Proof.
  intros Hw Hfresh. unfold handle. cbv zeta. f_equal.
  apply (mount_bound t _ (editor w) [] (newNote fresh t)).
  - apply selectedNote_createNote.
  - intros e He Hk. apply Hfresh.
    unfold world_ok in Hw. rewrite He in Hw.
    destruct Hw as (n & _ & Hn & Hkn & _).
    unfold selectedNote in Hn.
    destruct (selectedId (appState w)) as [s0|]; [|discriminate].
    apply find_some in Hn as [Hin _].
    unfold ids. apply in_map_iff. exists n. split; [|exact Hin].
    cbn [newNote id] in Hk. congruence.
Qed.

Lemma elapse_periodic w e n t0 t k :
  bound w e n ->
  t0 <= due (e_timer e) ->
  due (e_timer e) + 200 * Z.of_nat k - 200 <= t < due (e_timer e) + 200 * Z.of_nat k ->
  commits (elapse t0 t w) =
  commits w ++ periodic_commits (due (e_timer e)) (id n) (e_title e) (e_content e) k.
Proof.
  intros Hb H0 Ht. unfold elapse. apply elapse_fuel_periodic; [exact Hb| |exact Ht].
  lia.
Qed.

(** C1, the code on the scenario of the debounce property: a Note is bound
    at -100, E1 types "A" at 0 and E2 types "AB" at 100, and nothing happens
    afterwards.  Nothing is committed before 300; at 300 E2's values are
    committed; at 500 they are committed again, and again every 200 time
    units: by any time in [300 + 200 (k - 1), 300 + 200 k) the store's update
    has been called [k] times.  E1's values are never committed. *)
Theorem two_edits_commit_repeatedly :
  let w := session (-100) two_edits empty_world in
  let c := fun t => mkCommit t (lit "n1") (lit "AB") [] in
  commits (elapse 100 299 w) = [] /\
  commits (elapse 100 300 w) = [c 300] /\
  commits (elapse 100 499 w) = [c 300] /\
  commits (elapse 100 500 w) = [c 300; c 500] /\
  (forall (k : nat) (t : Z),
     300 + 200 * Z.of_nat k - 200 <= t < 300 + 200 * Z.of_nat k ->
     commits (elapse 100 t w) = map c (map (fun j => 300 + 200 * Z.of_nat j) (seq 0 k))).
Proof.
  cbv zeta. repeat split; try (vm_compute; reflexivity).
  intros k t Ht.
  set (w := session (-100) two_edits empty_world).
  assert (Hb : bound w (mkEditor (lit "n1") (lit "AB") []
                          (mkTimer 300 (lit "n1") (lit "AB") []))
                     (mkNote (lit "n1") (lit "Untitled note") [] (-100))).
  { repeat split. }
  rewrite (elapse_periodic w _ _ 100 t k Hb); [|cbn; lia|cbn; exact Ht].
  rewrite map_map. reflexivity.
Qed.

(** * Further properties *)

(** ** Selection *)

Lemma find_id_first i (l : list Note) n :
  find (id_is i) l = Some n ->
  exists l1 l2, l = l1 ++ n :: l2 /\ id n = i /\ ~ In i (map id l1).
Proof.
  induction l as [|a l IH]; [discriminate|]. cbn [find].
  destruct (id_is i a) eqn:E.
  - intros [= <-]. exists [], l. apply id_is_true in E. now repeat split.
  - intros H. destruct (IH H) as (l1 & l2 & -> & Hn & Hl1).
    exists (a :: l1), l2. repeat split; [assumption|].
    apply id_is_false in E. cbn [map In]. tauto.
Qed.

Lemma find_id_none i (l : list Note) :
  find (id_is i) l = None <-> ~ In i (map id l).
Proof.
  split.
  - intros H Hin. apply in_map_iff in Hin as (n & Hn & Hin).
    apply (find_none _ _ H) in Hin. apply id_is_false in Hin. contradiction.
  - intros H. apply find_id_absent. intros n Hn E. apply H.
    rewrite <- E. now apply in_map.
Qed.

(** X1: [selectNote] stores the id it is given without looking at the
    collection, which it leaves as it is.  [selectedNote] is then the first
    Note of the collection that has this id, and [null] exactly when no Note
    has it; after [selectNote(null)] it is [null]. *)
Theorem selectNote_spec (i : jsstring) (st : AppState) :
  selectedId (selectNote (Some i) st) = Some i /\
  notes (selectNote (Some i) st) = notes st /\
  query (selectNote (Some i) st) = query st /\
  (selectedNote (selectNote (Some i) st) = None <-> ~ In i (ids st)) /\
  (forall n, selectedNote (selectNote (Some i) st) = Some n ->
     exists l1 l2, notes st = l1 ++ n :: l2 /\ id n = i /\ ~ In i (map id l1)) /\
  selectedNote (selectNote None st) = None.
Proof.
  repeat split; try apply find_id_none.
  intros n H. now apply find_id_first.
Qed.

(** ** Deleting *)

Lemma deleteNote_selectedId i st :
  selectedId (deleteNote i st) =
  if strict_eq_sel (selectedId st) i then None else selectedId st.
Proof. reflexivity. Qed.

Lemma AppState_eq a b :
  notes a = notes b -> selectedId a = selectedId b -> query a = query b -> a = b.
Proof. destruct a, b; simpl; congruence. Qed.

(** X2: deleting the same id twice is deleting it once, and two deletions
    give the same state in either order. *)
Theorem deleteNote_idempotent_commutes (i j : jsstring) (st : AppState) :
  deleteNote i (deleteNote i st) = deleteNote i st /\
  deleteNote i (deleteNote j st) = deleteNote j (deleteNote i st).
Proof.
  split.
  - apply AppState_eq; cbn [deleteNote notes selectedId query]; trivial.
    + induction (notes st) as [|a l IH]; [reflexivity|]. cbn [filter].
      destruct (negb (id_is i a)) eqn:E; [|exact IH].
      cbn [filter]. rewrite E. now f_equal.
    + destruct (strict_eq_sel (selectedId st) i) eqn:E; [reflexivity|].
      now rewrite E.
  - apply AppState_eq; cbn [deleteNote notes selectedId query]; trivial.
    + induction (notes st) as [|a l IH]; [reflexivity|]. cbn [filter].
      destruct (negb (id_is j a)) eqn:Ej, (negb (id_is i a)) eqn:Ei;
        cbn [filter]; rewrite ?Ej, ?Ei; try exact IH. now f_equal.
    + destruct (selectedId st) as [s|]; [|reflexivity]. cbn [strict_eq_sel].
      destruct (str_eq_dec s j), (str_eq_dec s i); cbn [strict_eq_sel];
        repeat match goal with
               | |- context [str_eq_dec ?a ?b] => destruct (str_eq_dec a b)
               end; congruence.
Qed.

(** X3: creating a Note and deleting it at once gives back the collection as
    it was, with nothing selected: the selection held before the creation is
    not restored. *)
Theorem create_then_delete (fresh : jsstring) (now : Z) (st : AppState) :
  ~ In fresh (ids st) ->
  deleteNote fresh (snd (createNote fresh now st)) =
  {| notes := notes st; selectedId := None; query := query st |}.
Proof.
  intros Hf. apply AppState_eq; cbn [deleteNote createNote snd notes selectedId query];
    trivial.
  - cbn [filter].
    assert (E : id_is fresh (newNote fresh now) = true) by now apply id_is_true.
    rewrite E. cbn [negb]. apply filter_absent.
    intros n Hn Hid. apply Hf. rewrite <- Hid. unfold ids. now apply in_map.
  - assert (E : strict_eq_sel (Some fresh) fresh = true)
      by now apply strict_eq_sel_true.
    now rewrite E.
Qed.

Lemma create_then_delete_witness :
  deleteNote (lit "c") (snd (createNote (lit "c") 300 selecting_a)) =
  {| notes := notes selecting_a; selectedId := None; query := query selecting_a |}.
Proof.
  apply (create_then_delete (lit "c") 300 selecting_a).
  vm_compute. intros [H|[H|[]]]; discriminate.
Defined.

(** ** Updating *)

Lemma merge_merge n p1 t1 p2 t2 :
  merge (merge n p1 t1) p2 t2 = merge n (patch_over p1 p2) t2.
Proof.
  unfold merge, patch_over. cbn [id title content p_title p_content].
  destruct (p_title p2), (p_content p2); reflexivity.
Qed.

Lemma id_is_merge i n p t : id_is i (merge n p t) = id_is i n.
Proof. reflexivity. Qed.

(** X4: two updates of one Note in a row are one update: by the two patches
    spread one over the other, field by field, with the later reading of the
    clock. *)
Theorem updateNote_twice (t1 t2 : Z) (i : jsstring) (p1 p2 : Patch) (st : AppState) :
  updateNote t2 i p2 (updateNote t1 i p1 st) = updateNote t2 i (patch_over p1 p2) st.
Proof.
  apply AppState_eq; cbn [updateNote notes selectedId query]; trivial.
  rewrite map_map. apply map_ext. intros n.
  destruct (id_is i n) eqn:E.
  - rewrite id_is_merge, E. apply merge_merge.
  - now rewrite E.
Qed.

(** X5: updates of Notes with different ids give the same state in either
    order; an update followed by the deletion of its Note is that deletion;
    and an update changes neither the ids, in their order, nor the
    selection. *)
Theorem updateNote_composes (t t' : Z) (i j : jsstring) (p q : Patch) (st : AppState) :
  (i <> j ->
   updateNote t i p (updateNote t' j q st) = updateNote t' j q (updateNote t i p st)) /\
  deleteNote i (updateNote t i p st) = deleteNote i st /\
  (i <> j ->
   deleteNote i (updateNote t j q st) = updateNote t j q (deleteNote i st)) /\
  ids (updateNote t i p st) = ids st /\
  selectedId (updateNote t i p st) = selectedId st.
Proof.
  split; [|split; [|split; [|split]]].
  - intros Hij. apply AppState_eq; cbn [updateNote notes selectedId query]; trivial.
    rewrite !map_map. apply map_ext. intros n.
    destruct (id_is i n) eqn:Ei, (id_is j n) eqn:Ej;
      rewrite ?id_is_merge, ?Ei, ?Ej; try reflexivity.
    apply id_is_true in Ei, Ej. congruence.
  - apply AppState_eq; cbn [deleteNote updateNote notes selectedId query]; trivial.
    induction (notes st) as [|a l IH]; [reflexivity|]. cbn [map filter].
    destruct (id_is i a) eqn:E.
    + rewrite id_is_merge, E. exact IH.
    + rewrite E. cbn [negb]. now f_equal.
  - intros Hij. apply AppState_eq;
      cbn [deleteNote updateNote notes selectedId query]; trivial.
    induction (notes st) as [|a l IH]; [reflexivity|]. cbn [map filter].
    destruct (id_is j a) eqn:Ej.
    + rewrite id_is_merge. destruct (id_is i a) eqn:Ei.
      * apply id_is_true in Ei, Ej. congruence.
      * cbn [negb map]. rewrite Ej. now f_equal.
    + destruct (negb (id_is i a)); [|exact IH]. cbn [map]. rewrite Ej. now f_equal.
  - apply ids_updateNote.
  - reflexivity.
Qed.

(** ** The view after a mutation *)

Lemma Array_sort_cons_newest (x : Note) (l : list Note) :
  (forall y, In y l -> updatedAt y <= updatedAt x) ->
  Array_sort by_recency (x :: l) = x :: Array_sort by_recency l.
Proof.
  intros H. cbn [Array_sort fold_right]. fold (Array_sort by_recency l).
  apply insert_head. apply Forall_forall. intros y Hy.
  unfold before, by_recency.
  assert (Hin : In y l) by (eapply Permutation_in; [apply Array_sort_perm|exact Hy]).
  specialize (H y Hin). lia.
Qed.

Section ViewAfter.

Variable toLowerCase : jsstring -> jsstring.

(** X6: a Note created when the clock is not behind any stored timestamp
    comes first in the list, in front of the list as it was, when the query
    is blank or the default title matches it; otherwise the list is as it was,
    and the new Note, although selected, is not in it. *)
Theorem created_note_in_view (fresh : jsstring) (now : Z) (st : AppState) :
  stamped_by now st ->
  let q := toLowerCase (trim (query st)) in
  filteredNotes toLowerCase (snd (createNote fresh now st)) =
  if (match q with [] => true | _ => false end) ||
     matches toLowerCase q (newNote fresh now)
  then newNote fresh now :: filteredNotes toLowerCase st
  else filteredNotes toLowerCase st.
Proof.
  intros Hs q. unfold filteredNotes. cbn [createNote snd query notes]. fold q.
  destruct q as [|c q'].
  - cbn [List.length Nat.ltb Nat.leb orb]. apply Array_sort_cons_newest.
    intros y Hy. apply Hs in Hy. cbn [newNote updatedAt]. lia.
  - cbn [List.length Nat.ltb Nat.leb orb filter].
    destruct (matches toLowerCase (c :: q') (newNote fresh now)); [|reflexivity].
    apply Array_sort_cons_newest.
    intros y Hy. apply filter_In in Hy as [Hy _]. apply Hs in Hy.
    cbn [newNote updatedAt]. lia.
Qed.

Lemma filter_id_none i (l : list Note) :
  ~ In i (map id l) -> filter (id_is i) l = [].
Proof.
  induction l as [|b l IH]; [reflexivity|]. cbn [map filter In]. intros H.
  assert (Eb : id_is i b = false) by (apply id_is_false; tauto).
  rewrite Eb. apply IH. tauto.
Qed.

Lemma filter_id_unique i (l : list Note) n :
  NoDup (map id l) -> In n l -> id n = i -> filter (id_is i) l = [n].
Proof.
  induction l as [|a l IH]; [contradiction|]. cbn [map filter].
  intros Hnd Hin Hid. inversion Hnd as [|x xs Hnin Hnd']; subst.
  destruct Hin as [->|Hin].
  - assert (E : id_is (id n) n = true) by now apply id_is_true.
    rewrite E. f_equal. now apply filter_id_none.
  - assert (E : id_is (id n) a = false).
    { apply id_is_false. intros Ha. apply Hnin. rewrite Ha. now apply in_map. }
    rewrite E. now apply IH.
Qed.

Lemma filter_others_update i p now (l : list Note) :
  filter (fun m => negb (id_is i m))
         (map (fun m => if id_is i m then merge m p now else m) l) =
  filter (fun m => negb (id_is i m)) l.
Proof.
  induction l as [|a l IH]; [reflexivity|]. cbn [map filter].
  destruct (id_is i a) eqn:E.
  - rewrite id_is_merge, E. exact IH.
  - rewrite E. cbn [negb]. now f_equal.
Qed.

Lemma sorted_newest_first (S : list Note) (i : jsstring) (x : Note) :
  StronglySorted newer_first S ->
  filter (id_is i) S = [x] ->
  (forall m, In m S -> id m <> i -> updatedAt m < updatedAt x) ->
  S = x :: filter (fun m => negb (id_is i m)) S.
Proof.
  intros Hs Hf Hlt. destruct S as [|y S']; [discriminate|].
  inversion Hs as [|y' l' Hs' Hall]; subst.
  cbn [filter] in Hf |- *. destruct (id_is i y) eqn:Ey.
  - injection Hf as -> Hf'. cbn [negb]. f_equal.
    symmetry. clear - Hf'. induction S' as [|b l IH]; [reflexivity|].
    cbn [filter] in *. destruct (id_is i b); [discriminate|].
    cbn [negb]. f_equal. now apply IH.
  - exfalso. apply id_is_false in Ey.
    assert (Hx : In x S').
    { assert (H : In x (filter (id_is i) S')) by (rewrite Hf; now left).
      apply filter_In in H. tauto. }
    rewrite Forall_forall in Hall. specialize (Hall x Hx).
    unfold newer_first in Hall.
    specialize (Hlt y (or_introl eq_refl) Ey). lia.
Qed.

(** X7: with a blank query and distinct ids, updating a Note when the clock
    is ahead of the timestamp of every other Note brings it to the top of the
    list; the other Notes keep the order they had. *)
Theorem updated_note_first (now : Z) (i : jsstring) (p : Patch) (st : AppState)
  (n : Note) :
  NoDup (ids st) ->
  In n (notes st) -> id n = i ->
  (forall m, In m (notes st) -> id m <> i -> updatedAt m < now) ->
  toLowerCase (trim (query st)) = [] ->
  filteredNotes toLowerCase (updateNote now i p st) =
  merge n p now :: filter (fun m => negb (id_is i m)) (filteredNotes toLowerCase st).
Proof.
  intros Hnd Hin Hid Hlt Hq. unfold filteredNotes.
  cbn [updateNote query notes]. rewrite Hq. cbn [List.length Nat.ltb Nat.leb].
  set (upd := fun m => if id_is i m then merge m p now else m).
  set (S := Array_sort by_recency (map upd (notes st))).
  assert (Hupd_id : forall m, id (upd m) = id m).
  { intros m. unfold upd. now destruct (id_is i m). }
  assert (Hf : filter (id_is i) S = [merge n p now]).
  { unfold S. rewrite (filter_Array_sort by_recency by_recency_trans by_recency_total).
    rewrite (filter_id_unique i (map upd (notes st)) (upd n)).
    - unfold upd.
      assert (E : id_is i n = true) by now apply id_is_true.
      now rewrite E.
    - rewrite map_map. erewrite map_ext; [exact Hnd|]. apply Hupd_id.
    - now apply in_map.
    - now rewrite Hupd_id. }
  assert (Hrest : filter (fun m => negb (id_is i m)) S =
                  filter (fun m => negb (id_is i m)) (Array_sort by_recency (notes st))).
  { unfold S.
    rewrite !(filter_Array_sort by_recency by_recency_trans by_recency_total).
    f_equal. apply filter_others_update. }
  rewrite <- Hrest. apply sorted_newest_first; [apply sorted_by_recency|exact Hf|].
  intros m Hm Hmi. cbn [merge updatedAt].
  assert (Hm' : In m (map upd (notes st)))
    by (eapply Permutation_in; [apply Array_sort_perm|exact Hm]).
  apply in_map_iff in Hm' as (m0 & <- & Hm0).
  rewrite Hupd_id in Hmi. unfold upd.
  assert (E : id_is i m0 = false) by now apply id_is_false.
  rewrite E. now apply Hlt.
Qed.

End ViewAfter.

Lemma created_note_in_view_witness :
  stamped_by 300 two_notes /\
  filteredNotes ascii_lower (snd (createNote (lit "c") 300 two_notes)) =
  newNote (lit "c") 300 :: filteredNotes ascii_lower two_notes.
Proof.
  assert (H : stamped_by 300 two_notes).
  { intros n [<- | [<- | []]]; cbn; lia. }
  split; [exact H|].
  exact (created_note_in_view ascii_lower (lit "c") 300 two_notes H).
Defined.

Lemma updated_note_first_witness :
  filteredNotes ascii_lower
    (updateNote 300 (lit "a") (mkPatch (Some (lit "Groceries")) None) two_notes) =
  [mkNote (lit "a") (lit "Groceries") [] 300; mkNote (lit "b") (lit "Work") [] 200].
Proof.
  apply (updated_note_first ascii_lower 300 (lit "a")
           (mkPatch (Some (lit "Groceries")) None) two_notes
           (mkNote (lit "a") (lit "Shopping") [] 100)).
  - repeat constructor; cbn; intuition discriminate.
  - cbn. tauto.
  - reflexivity.
  - intros m [<- | [<- | []]] Hm; cbn in *; [lia | congruence].
  - reflexivity.
Defined.

(** ** Sidebar *)

(** X9: the title shown in a list item is the title without the white
    space at its two ends, and "Untitled" when nothing else is left of it; it
    is never empty, and neither starts nor ends with white space. *)
Theorem display_title_spec (n : Note) :
  exists ws1 ws2,
    title n = ws1 ++ trim (title n) ++ ws2 /\ blank ws1 /\ blank ws2 /\
    (trim (title n) = [] -> display_title n = lit "Untitled") /\
    (trim (title n) <> [] -> display_title n = trim (title n)) /\
    display_title n <> [] /\
    is_white_space (hd 0%N (display_title n)) = false /\
    is_white_space (last (display_title n) 0%N) = false.
Proof.
  destruct (trim_split (title n)) as (ws1 & ws2 & E & H1 & H2 & Hends).
  exists ws1, ws2. split; [exact E|]. split; [exact H1|]. split; [exact H2|].
  unfold display_title. destruct (trim (title n)) as [|c t].
  - repeat split; try reflexivity; try discriminate. intros H. now elim H.
  - destruct Hends as [Ha Hb]; [discriminate|].
    repeat split; try assumption; discriminate.
Qed.

(** X10: the snippet of a list item is the first 80 code units of the
    content, the whole content when it is shorter, and "No content" for an
    empty content; it is never empty and never longer than 80. *)
Theorem snippet_spec (n : Note) :
  (content n = [] -> snippet n = lit "No content") /\
  (content n <> [] -> snippet n = firstn 80 (content n)) /\
  ((List.length (content n) <= 80)%nat -> content n <> [] -> snippet n = content n) /\
  (1 <= List.length (snippet n) <= 80)%nat.
Proof.
  unfold snippet. destruct (content n) as [|c s] eqn:E.
  - cbn [firstn]. repeat split; try reflexivity; try (intros H; now elim H);
      cbn; lia.
  - split; [discriminate|]. split; [reflexivity|]. split.
    + intros Hlen _. rewrite firstn_all2 by exact Hlen. reflexivity.
    + change (firstn 80 (c :: s)) with (c :: firstn 79 s).
      cbn [List.length]. pose proof (firstn_le_length 79 s) as H1.
      pose proof (length_firstn 79 s) as H2. lia.
Qed.

(** ** timeAgo *)

Lemma plural_spec k : plural k = if 2 <=? k then lit "s" else [].
Proof.
  unfold plural. destruct (1 <? k) eqn:E1, (2 <=? k) eqn:E2; try reflexivity.
  - apply Z.ltb_lt in E1. apply Z.leb_gt in E2. lia.
  - apply Z.ltb_ge in E1. apply Z.leb_le in E2. lia.
Qed.

(** X11: where the clock, the timestamp and their difference are of
    magnitude up to 2^53 - 1, the range in which the code's binary64
    arithmetic is exact, [timeAgo] depends on the age [now - ts] only.  Below
    one minute, or for a timestamp ahead of the clock, it is "just now"; from
    one minute it counts whole minutes (1 to 59), from one hour whole hours
    (1 to 23), from one day whole days; the unit takes its "s" exactly when
    the count is 2 or more. *)
Theorem timeAgo_spec (now ts : Z) :
  safe_time now -> safe_time ts -> safe_time (now - ts) ->
  let age := now - ts in
  let shown (k : Z) (unit : jsstring) :=
    NumberToString k ++ unit ++ (if 2 <=? k then lit "s" else []) ++ lit " ago" in
  (age < 60000 -> timeAgo now ts = lit "just now") /\
  (60000 <= age < 3600000 ->
     timeAgo now ts = shown (age / 60000) (lit " min") /\ 1 <= age / 60000 <= 59) /\
  (3600000 <= age < 86400000 ->
     timeAgo now ts = shown (age / 3600000) (lit " hour") /\
     1 <= age / 3600000 <= 23) /\
  (86400000 <= age ->
     timeAgo now ts = shown (age / 86400000) (lit " day") /\ 1 <= age / 86400000).
Proof.
  intros _ _ _ age shown. unfold timeAgo. fold age.
  assert (Em : age / 1000 / 60 = age / 60000)
    by (rewrite Z.div_div by lia; reflexivity).
  assert (Eh : age / 1000 / 60 / 60 = age / 3600000)
    by (rewrite Em, Z.div_div by lia; reflexivity).
  assert (Ed : age / 1000 / 60 / 60 / 24 = age / 86400000)
    by (rewrite Eh, Z.div_div by lia; reflexivity).
  rewrite Ed, Eh, Em. subst shown. cbv beta. rewrite !plural_spec.
  pose proof (Z.div_lt_upper_bound age 1000 60 ltac:(lia)) as U1.
  pose proof (Z.div_le_lower_bound age 1000 60 ltac:(lia)) as L1.
  pose proof (Z.div_lt_upper_bound age 60000 60 ltac:(lia)) as U2.
  pose proof (Z.div_le_lower_bound age 60000 60 ltac:(lia)) as L2.
  pose proof (Z.div_lt_upper_bound age 3600000 24 ltac:(lia)) as U3.
  pose proof (Z.div_le_lower_bound age 3600000 24 ltac:(lia)) as L3.
  pose proof (Z.div_le_lower_bound age 60000 1 ltac:(lia)) as L4.
  pose proof (Z.div_le_lower_bound age 3600000 1 ltac:(lia)) as L5.
  pose proof (Z.div_le_lower_bound age 86400000 1 ltac:(lia)) as L6.
  repeat split; intros;
    repeat match goal with
    | |- context [?a <? ?b] =>
        let E := fresh "E" in
        destruct (a <? b) eqn:E;
        [apply Z.ltb_lt in E | apply Z.ltb_ge in E]
    end; try reflexivity; try lia.
Qed.

(** ** The list of the sidebar *)

Lemma one_active_row (s : jsstring) (rows : list Row) :
  NoDup (map row_key rows) ->
  (forall r, In r rows -> row_active r = true -> row_key r = s) ->
  (List.length (filter row_active rows) <= 1)%nat.
Proof.
  induction rows as [|r rows IH]; intros Hnd Hact; [cbn; lia|].
  cbn [map] in Hnd. inversion Hnd as [|x xs Hnin Hnd']; subst.
  cbn [filter]. destruct (row_active r) eqn:Er.
  - assert (E : filter row_active rows = []).
    { destruct (filter row_active rows) as [|r' l] eqn:Ef; [reflexivity|].
      assert (Hr' : In r' (filter row_active rows)) by (rewrite Ef; now left).
      apply filter_In in Hr' as [Hin Ha]. elim Hnin.
      rewrite (Hact r (or_introl eq_refl) Er).
      rewrite <- (Hact r' (or_intror Hin) Ha). now apply in_map. }
    rewrite E. cbn. lia.
  - apply IH; [exact Hnd'|]. intros r' Hin. apply Hact. now right.
Qed.

(** [YearFromDay] computes YearFromTime: the year whose first day is the
    last first day of a year not after [d]. *)
Lemma YearFromDay_spec d :
  DayFromYear (YearFromDay d) <= d < DayFromYear (YearFromDay d + 1).
Proof.
  unfold YearFromDay.
  set (y := 1970 + 400 * d / 146097).
  destruct (DayFromYear (y + 1) <=? d) eqn:E1;
    [|destruct (DayFromYear y <=? d) eqn:E2];
    rewrite ?Z.leb_le, ?Z.leb_gt in *.
  - split; [exact E1|]. subst y. unfold DayFromYear in *.
    Z.to_euclidean_division_equations. lia.
  - split; [exact E2|]. replace (y + 1) with (y + 1) by lia. exact E1.
  - split; [|replace (y - 1 + 1) with y by lia; exact E2].
    subst y. unfold DayFromYear in *.
    Z.to_euclidean_division_equations. lia.
Qed.

(** What [toISOString] writes at the epoch, at a present-day reading of the
    clock, on a leap day, just before the epoch, and at the two ends of the
    range of dates. *)
Example toISOString_values :
  toISOString 0 = lit "1970-01-01T00:00:00.000Z" /\
  toISOString 1730000000000 = lit "2024-10-27T03:33:20.000Z" /\
  toISOString 951782400000 = lit "2000-02-29T00:00:00.000Z" /\
  toISOString (-1) = lit "1969-12-31T23:59:59.999Z" /\
  toISOString 8640000000000000 = lit "+275760-09-13T00:00:00.000Z" /\
  toISOString (-8640000000000000) = lit "-271821-04-20T00:00:00.000Z".
Proof. vm_compute. repeat split; reflexivity. Qed.

Lemma render_all_rows now sel (l : list Note) :
  render_all (Sidebar_row now sel) l =
  if forallb (fun n => valid_time (updatedAt n)) l
  then Some (map (row_of now sel) l) else None.
Proof.
  induction l as [|n l IH]; [reflexivity|]. cbn [render_all forallb map].
  unfold Sidebar_row at 1. destruct (valid_time (updatedAt n)); [|reflexivity].
  rewrite IH. cbn [andb].
  now destruct (forallb (fun n0 => valid_time (updatedAt n0)) l).
Qed.

Section SidebarProperties.

Variable toLowerCase : jsstring -> jsstring.

Lemma filteredNotes_kept (st : AppState) :
  exists keep, Permutation (filteredNotes toLowerCase st) (filter keep (notes st)).
Proof.
  unfold filteredNotes.
  destruct (0 <? List.length (toLowerCase (trim (query st))))%nat.
  - eexists. apply Array_sort_perm.
  - exists (fun _ => true).
    assert (E : forall l : list Note, filter (fun _ => true) l = l).
    { induction l as [|a l IH]; [reflexivity|]. cbn [filter]. now rewrite IH. }
    rewrite E. apply Array_sort_perm.
Qed.

(** X8: the sidebar cannot be rendered (a RangeError is thrown) exactly
    when a Note the view retains has an [updatedAt] that is no valid date,
    beyond 8.64e15 milliseconds from the epoch.  Otherwise it shows one row
    for each Note the view retains, in the order of the view, keyed by the
    Note's id; it never has more rows than the total shown in the top bar,
    and shows the "No notes yet" item exactly when it has no row.  A row is
    highlighted exactly when its key is the selection; no row has an empty
    title, snippet or tool tip.  With distinct ids in the collection the keys
    are distinct and at most one row is highlighted. *)
Theorem Sidebar_rows_spec (now : Z) (st : AppState) :
  (Sidebar_rows toLowerCase now st = None <->
   exists n, In n (filteredNotes toLowerCase st) /\ valid_time (updatedAt n) = false) /\
  forall rows, Sidebar_rows toLowerCase now st = Some rows ->
  map row_key rows = map id (filteredNotes toLowerCase st) /\
  (List.length rows <= TopBar_total st)%nat /\
  (Sidebar_empty toLowerCase st = true <-> rows = []) /\
  (forall r, In r rows ->
     (row_active r = true <-> selectedId st = Some (row_key r)) /\
     row_title r <> [] /\ row_snippet r <> [] /\ row_tooltip r <> []) /\
  (NoDup (ids st) ->
     NoDup (map row_key rows) /\
     (List.length (filter row_active rows) <= 1)%nat).
Proof.
  unfold Sidebar_rows.
  set (F := filteredNotes toLowerCase st).
  set (g := row_of now (selectedId st)).
  pose proof (render_all_rows now (selectedId st) F) as Hr. fold g in Hr.
  split.
  { rewrite Hr. destruct (forallb (fun n => valid_time (updatedAt n)) F) eqn:E.
    - split; [discriminate|]. intros (n & Hn & Hv).
      rewrite forallb_forall in E. rewrite (E n Hn) in Hv. discriminate.
    - split; [|reflexivity]. intros _.
      apply not_true_iff_false in E. rewrite forallb_forall in E.
      destruct (existsb (fun n => negb (valid_time (updatedAt n))) F) eqn:Ex.
      + apply existsb_exists in Ex as (n & Hn & Hv).
        exists n. split; [exact Hn|]. now apply negb_true_iff.
      + elim E. intros n Hn.
        apply not_true_iff_false in Ex. rewrite existsb_exists in Ex.
        destruct (valid_time (updatedAt n)) eqn:Ev; [reflexivity|].
        elim Ex. exists n. now rewrite Ev. }
  intros rows Hrows. rewrite Hr in Hrows.
  destruct (forallb (fun n => valid_time (updatedAt n)) F); [|discriminate].
  injection Hrows as <-.
  destruct (filteredNotes_kept st) as [keep Hp]. fold F in Hp.
  assert (Hkeys : forall l : list Note, map row_key (map g l) = map id l).
  { intros l. rewrite map_map. reflexivity. }
  assert (Hact : forall r,
            In r (map g F) ->
            (row_active r = true <-> selectedId st = Some (row_key r))).
  { intros r Hin. apply in_map_iff in Hin as (n & <- & _).
    cbn [g row_of row_active row_key]. apply strict_eq_sel_true. }
  split; [apply Hkeys|]. split.
  { rewrite length_map. unfold TopBar_total.
    rewrite (Permutation_length Hp). apply filter_length_le. }
  split.
  { unfold Sidebar_empty. fold F. destruct F as [|a l]; cbn; split;
      (reflexivity || discriminate). }
  split.
  { intros r Hin. split; [now apply Hact|].
    apply in_map_iff in Hin as (n & <- & _).
    cbn [g row_of row_title row_snippet row_tooltip].
    split; [|split].
    - unfold display_title. destruct (trim (title n)); discriminate.
    - unfold snippet. destruct (content n) as [|c s]; [discriminate|].
      change (firstn 80 (c :: s)) with (c :: firstn 79 s). discriminate.
    - unfold tooltip. destruct (title n); discriminate. }
  intros Hnd.
  assert (Hk : NoDup (map id F)).
  { apply (Permutation_NoDup (l := map id (filter keep (notes st)))).
    - apply Permutation_map. symmetry. exact Hp.
    - apply unique_ids_filter. exact Hnd. }
  rewrite Hkeys. split; [exact Hk|].
  destruct (selectedId st) as [s|] eqn:Es.
  - apply (one_active_row s); [now rewrite Hkeys|].
    intros r Hin Ha. apply (Hact r Hin) in Ha. congruence.
  - apply (one_active_row []); [now rewrite Hkeys|].
    intros r Hin Ha. apply (Hact r Hin) in Ha. discriminate.
Qed.

End SidebarProperties.

(** ** Typing, and what happens to the buffer *)

Lemma bound_idle_then_fires w e n t :
  bound w e n -> due (e_timer e) = t + 200 ->
  (forall t', t <= t' < t + 200 -> elapse t t' w = w) /\
  elapse t (t + 200) w = fire e w.
Proof.
  intros Hb Hd. pose proof Hb as (He & _). split.
  - intros t' Ht'. unfold elapse. apply elapse_fuel_idle.
    intros e0 He0. rewrite He in He0. injection He0 as <-. lia.
  - unfold elapse. replace (Z.to_nat (t + 200 - t) + 1)%nat with (S 200) by lia.
    rewrite (elapse_fuel_step _ _ w e He); [|lia].
    apply elapse_fuel_idle. intros e0 He0.
    destruct (fire_keeps_bound w e n Hb) as ((He' & _) & _).
    rewrite He' in He0. injection He0 as <-.
    cbn [rearm e_timer debounce_effect due]. lia.
Qed.

Lemma bound_commits_at_due w e n t :
  bound w e n -> due (e_timer e) = t + 200 ->
  (forall t', t <= t' < t + 200 -> elapse t t' w = w) /\
  commits (elapse t (t + 200) w) =
    commits w ++ [mkCommit (t + 200) (id n) (e_title e) (e_content e)] /\
  selectedNote (appState (elapse t (t + 200) w)) =
    Some (mkNote (id n) (e_title e) (e_content e) (t + 200)).
Proof.
  intros Hb Hd. destruct (bound_idle_then_fires w e n t Hb Hd) as [Hidle Hfire].
  split; [exact Hidle|]. rewrite Hfire.
  destruct (fire_keeps_bound w e n Hb) as ((_ & Hs & _) & Hc & _).
  rewrite Hd in Hs, Hc. split; [exact Hc|exact Hs].
Qed.

Lemma world_eta (w : World) :
  {| appState := appState w; editor := editor w; commits := commits w |} = w.
Proof. now destruct w. Qed.

(** X12: typing into an editor bound to the selected Note.  A value equal
    to the buffer's changes nothing, the pending timer included.  Any other
    value is stored in the buffer and replaces the pending timer by one due 200
    later; the store is not touched by the keystroke; with no further event
    nothing is committed before then, and then the store's update is called
    once, for the selected Note, with the whole buffer: the field typed into
    and the other one. *)
Theorem edit_schedules_commit (t : Z) (f : Field) (value : jsstring)
  (w : World) (e : Editor) (n : Note) :
  bound w e n ->
  let old := match f with FTitle => e_title e | FContent => e_content e end in
  let ti := match f with FTitle => value | FContent => e_title e end in
  let co := match f with FTitle => e_content e | FContent => value end in
  let w' := handle t (Edit f value) w in
  (old = value -> w' = w) /\
  (old <> value ->
     w' = {| appState := appState w;
             editor := Some (mkEditor (e_key e) ti co
                               (debounce_effect t (e_key e) ti co));
             commits := commits w |} /\
     (forall t', t <= t' < t + 200 -> elapse t t' w' = w') /\
     commits (elapse t (t + 200) w') =
       commits w ++ [mkCommit (t + 200) (id n) ti co] /\
     selectedNote (appState (elapse t (t + 200) w')) =
       Some (mkNote (id n) ti co (t + 200))).
Proof.
  intros Hb old ti co w'.
  pose proof Hb as (He & _).
  assert (Hw' : w' = {| appState := appState w;
                        editor := Some (edit t f value e);
                        commits := commits w |}).
  { subst w'. cbn [handle]. now rewrite He. }
  split.
  - intros Hold.
    assert (Ee : edit t f value e = e).
    { subst old. unfold edit.
      destruct f;
        [destruct (str_eq_dec (e_title e) value)
        |destruct (str_eq_dec (e_content e) value)];
        (reflexivity || contradiction). }
    rewrite Hw', Ee, <- He. apply world_eta.
  - intros Hold.
    assert (Ee : edit t f value e =
                 mkEditor (e_key e) ti co (debounce_effect t (e_key e) ti co)).
    { subst old ti co. unfold edit.
      destruct f;
        [destruct (str_eq_dec (e_title e) value)
        |destruct (str_eq_dec (e_content e) value)];
        (contradiction || reflexivity). }
    pose proof (edit_keeps_bound t f value w e n Hb) as Hb'.
    rewrite <- Hw' in Hb'. rewrite Ee in Hb'.
    split; [now rewrite Hw', Ee|].
    apply (bound_commits_at_due w' _ n t Hb'). reflexivity.
Qed.

Lemma elapse_no_editor t0 t w : editor w = None -> elapse t0 t w = w.
Proof.
  intros He. unfold elapse. apply elapse_fuel_idle. intros e He'. congruence.
Qed.

(** X13: deleting the Note the editor is bound to, from the editor or from
    the sidebar, unmounts the editor and clears its timer: the selection is
    empty, no Note with that id is left, and however much time passes nothing
    is committed: what was typed less than 200 earlier is dropped with the
    Note. *)
Theorem deleting_bound_note_unmounts (t : Z) (w : World) (e : Editor) (n : Note) :
  bound w e n ->
  let w' := handle t (Delete (id n)) w in
  editor w' = None /\
  selectedId (appState w') = None /\
  (forall m, In m (notes (appState w')) -> id m <> id n) /\
  commits w' = commits w /\
  (forall t0 t', elapse t0 t' w' = w').
Proof.
  intros (He & Hn & Hk & Ht) w'. subst w'. cbn [handle].
  assert (Hsel : selectedId (deleteNote (id n) (appState w)) = None).
  { unfold deleteNote. cbn [selectedId].
    rewrite (selectedNote_id _ _ Hn).
    assert (E : strict_eq_sel (Some (id n)) (id n) = true)
      by now apply strict_eq_sel_true.
    now rewrite E. }
  assert (Hed : render_app t (deleteNote (id n) (appState w)) (editor w) = None).
  { unfold render_app. now rewrite (selectedNote_cleared _ Hsel). }
  cbn [editor appState commits]. rewrite Hed.
  split; [reflexivity|]. split; [exact Hsel|]. split.
  { intros m Hm. apply deleteNote_In in Hm. tauto. }
  split; [reflexivity|].
  intros t0 t'. now apply elapse_no_editor.
Qed.

Lemma bound_world_ok w e n : bound w e n -> world_ok w.
Proof. intros Hb. unfold world_ok. pose proof Hb as (He & _). rewrite He. now exists n. Qed.

Lemma mounted_commits t st prev log m k t' :
  selectedNote st = Some m ->
  (forall e, prev = Some e -> e_key e <> id m) ->
  t + 200 * Z.of_nat k <= t' < t + 200 * Z.of_nat k + 200 ->
  commits (elapse t t' {| appState := st; editor := render_app t st prev;
                          commits := log |}) =
  log ++ periodic_commits (t + 200) (id m) (title m) (content m) k.
Proof.
  intros Hm Hprev Ht'.
  destruct (mount_bound t st prev log m Hm Hprev) as [_ Hb].
  rewrite (elapse_periodic _ _ _ t t' k Hb).
  - cbn [commits mount e_timer debounce_effect due e_title e_content].
    now rewrite !or_empty_id.
  - cbn [mount e_timer debounce_effect due]. lia.
  - cbn [mount e_timer debounce_effect due]. lia.
Qed.

(** X14: selecting another Note, or creating one, while the editor is
    bound to a Note: the editor is replaced by one mounted for the other Note
    and the timer of the old one is cleared.  The collection is not touched by
    a selection, and the Notes already there are not touched by a creation; of
    all the commits made afterwards, with no further event, every one is for
    the newly bound Note with that Note's own title and content.  What the old
    buffer held and had not yet committed never reaches the store. *)
Theorem rebinding_drops_buffer (t : Z) (w : World) (e : Editor) (n : Note) :
  bound w e n ->
  (forall i m,
     i <> id n -> find (id_is i) (notes (appState w)) = Some m ->
     let w' := handle t (Select i) w in
     notes (appState w') = notes (appState w) /\
     editor w' = Some (mount t m) /\
     forall (k : nat) (t' : Z),
       t + 200 * Z.of_nat k <= t' < t + 200 * Z.of_nat k + 200 ->
       commits (elapse t t' w') =
       commits w ++ periodic_commits (t + 200) (id m) (title m) (content m) k) /\
  (forall fresh,
     ~ In fresh (ids (appState w)) ->
     let w' := handle t (Create fresh) w in
     notes (appState w') = newNote fresh t :: notes (appState w) /\
     editor w' = Some (mount t (newNote fresh t)) /\
     forall (k : nat) (t' : Z),
       t + 200 * Z.of_nat k <= t' < t + 200 * Z.of_nat k + 200 ->
       commits (elapse t t' w') =
       commits w ++ periodic_commits (t + 200) fresh (lit "Untitled note") [] k).
Proof.
  intros Hb. pose proof (bound_world_ok w e n Hb) as Hok.
  pose proof Hb as (He & Hn & Hk & _).
  pose proof (selectedNote_id _ _ Hn) as Hsid.
  split.
  - intros i m Hi Hfind w'.
    assert (Hsel : selectedId (appState w) <> Some i) by congruence.
    assert (Hm : selectedNote (selectNote (Some i) (appState w)) = Some m)
      by exact Hfind.
    assert (Hid : id m = i).
    { apply find_some in Hfind as [_ H]. now apply id_is_true in H. }
    assert (Hprev : forall e0, editor w = Some e0 -> e_key e0 <> id m).
    { intros e0 He0. rewrite He in He0. injection He0 as <-. congruence. }
    assert (Hw' : w' = {| appState := selectNote (Some i) (appState w);
                          editor := render_app t (selectNote (Some i) (appState w))
                                      (editor w);
                          commits := commits w |}).
    { subst w'. cbn [handle].
      destruct (sel_eq_dec (selectedId (appState w)) (Some i)); [contradiction|].
      reflexivity. }
    rewrite Hw'. cbn [appState editor selectNote notes].
    split; [reflexivity|]. split.
    + apply (mount_bound t _ (editor w) [] m Hm Hprev).
    + intros k t' Ht'. now apply mounted_commits.
  - intros fresh Hfresh w'. subst w'. cbn [handle].
    assert (Hm : selectedNote (snd (createNote fresh t (appState w))) =
                 Some (newNote fresh t)) by apply selectedNote_createNote.
    assert (Hprev : forall e0, editor w = Some e0 -> e_key e0 <> id (newNote fresh t)).
    { intros e0 He0. rewrite He in He0. injection He0 as <-. cbn [newNote id].
      intros Hke. apply Hfresh. unfold ids. rewrite <- Hke, Hk.
      apply in_map. unfold selectedNote in Hn. rewrite Hsid in Hn.
      now apply find_some in Hn as [Hin _]. }
    cbn [appState editor].
    split; [reflexivity|]. split.
    + apply (mount_bound t _ (editor w) [] _ Hm Hprev).
    + intros k t' Ht'.
      apply (mounted_commits t _ (editor w) (commits w) (newNote fresh t) k t' Hm Hprev Ht').
Qed.

Lemma find_id_other_filter (s j : jsstring) (l : list Note) :
  s <> j ->
  find (id_is s) (filter (fun m => negb (id_is j m)) l) = find (id_is s) l.
Proof.
  intros Hsj. induction l as [|a l IH]; [reflexivity|]. cbn [filter find].
  destruct (id_is j a) eqn:Ej; cbn [negb].
  - assert (Es : id_is s a = false).
    { apply id_is_false. apply id_is_true in Ej. congruence. }
    now rewrite Es.
  - cbn [find]. now rewrite IH.
Qed.

Lemma rearm_bound t st e n log :
  selectedNote st = Some n -> e_key e = id n ->
  render_app t st (Some e) = Some (rearm t e) /\
  bound {| appState := st; editor := render_app t st (Some e); commits := log |}
        (rearm t e) n.
Proof.
  intros Hn Hk.
  assert (E : render_app t st (Some e) = Some (rearm t e)).
  { unfold render_app. rewrite Hn.
    destruct (str_eq_dec (e_key e) (id n)); [reflexivity|contradiction]. }
  split; [exact E|]. unfold bound. cbn [editor appState]. rewrite E.
  repeat split; try assumption.
  unfold rearm, debounce_effect. cbn [e_timer due e_key e_title e_content].
  do 2 f_equal. lia.
Qed.

(** X15: an event that makes [App] render again without changing the
    selection postpones the pending commit: after a change of the search text,
    or the deletion of another Note, at [t], the editor keeps its buffer, its
    timer is replaced by one due at [t + 200], nothing is committed before
    then, and then the buffer is committed. *)
Theorem rerender_postpones_commit (t : Z) (w : World) (e : Editor) (n : Note) :
  bound w e n ->
  let postponed (w' : World) :=
    editor w' = Some (rearm t e) /\
    commits w' = commits w /\
    selectedNote (appState w') = Some n /\
    (forall t', t <= t' < t + 200 -> elapse t t' w' = w') /\
    commits (elapse t (t + 200) w') =
      commits w ++ [mkCommit (t + 200) (id n) (e_title e) (e_content e)] in
  (forall q, query (appState w) <> q -> postponed (handle t (SetQuery q) w)) /\
  (forall j, j <> id n -> postponed (handle t (Delete j) w)).
Proof.
  intros Hb postponed. pose proof Hb as (He & Hn & Hk & _).
  assert (Hgen : forall st,
            selectedNote st = Some n ->
            postponed {| appState := st; editor := render_app t st (editor w);
                         commits := commits w |}).
  { intros st Hst. rewrite He.
    destruct (rearm_bound t st e n (commits w) Hst Hk) as [E Hb'].
    destruct (bound_commits_at_due _ _ n t Hb' eq_refl) as (Hidle & Hc & _).
    unfold postponed. cbn [editor commits appState].
    split; [exact E|]. split; [reflexivity|]. split; [exact Hst|].
    split; [exact Hidle|exact Hc]. }
  split.
  - intros q Hq. cbn [handle].
    destruct (str_eq_dec (query (appState w)) q); [contradiction|].
    apply Hgen. exact Hn.
  - intros j Hj. cbn [handle]. apply Hgen.
    pose proof (selectedNote_id _ _ Hn) as Hsid.
    unfold selectedNote, deleteNote. cbn [selectedId notes]. rewrite Hsid.
    assert (E : strict_eq_sel (Some (id n)) j = false).
    { destruct (strict_eq_sel (Some (id n)) j) eqn:E; [|reflexivity].
      apply strict_eq_sel_true in E. congruence. }
    rewrite E. rewrite find_id_other_filter by congruence.
    unfold selectedNote in Hn. now rewrite Hsid in Hn.
Qed.

(** ** Invariants of sessions *)

Lemma start_ok ns : world_ok (start ns).
Proof. reflexivity. Qed.

(** X16: at every point of a session that starts from any collection, and
    after any time has passed since, an editor is mounted exactly when the
    selection names a Note of the collection; it is the editor of that Note,
    and its pending timer is for that Note and holds the buffer as it is. *)
Theorem editor_follows_selection (ns : list Note) (t0 : Z) (evs : list (Z * Event))
  (t1 t : Z) :
  let w := elapse t1 t (session t0 evs (start ns)) in
  match editor w with
  | Some e =>
      exists n, selectedNote (appState w) = Some n /\ In n (notes (appState w)) /\
                selectedId (appState w) = Some (e_key e) /\
                e_key e = id n /\
                t_target (e_timer e) = id n /\
                t_title (e_timer e) = e_title e /\
                t_content (e_timer e) = e_content e
  | None => selectedNote (appState w) = None
  end.
Proof.
  intros w.
  assert (Hok : world_ok w).
  { subst w. unfold elapse. apply elapse_fuel_ok, session_ok, start_ok. }
  unfold world_ok in Hok. destruct (editor w) as [e|]; [|exact Hok].
  destruct Hok as (n & _ & Hn & Hk & Ht). exists n.
  split; [exact Hn|]. split.
  { unfold selectedNote in Hn. destruct (selectedId (appState w)); [|discriminate].
    now apply find_some in Hn as [Hin _]. }
  split; [rewrite Hk; now apply selectedNote_id|].
  split; [exact Hk|]. rewrite Ht. cbn [debounce_effect t_target t_title t_content].
  repeat split. exact Hk.
Qed.

(** ** Rate of commits *)

Lemma apart_snoc (l : list Commit) (c : Commit) :
  StronglySorted apart l -> (forall x, In x l -> apart x c) ->
  StronglySorted apart (l ++ [c]).
Proof.
  induction 1 as [|a l Hs IH Ha]; intros Hc; cbn [app].
  - repeat constructor.
  - constructor.
    + apply IH. intros x Hx. apply Hc. now right.
    + apply Forall_app. split; [exact Ha|]. constructor; [|constructor].
      apply Hc. now left.
Qed.

Lemma paced_later t t' w : t <= t' -> paced t w -> paced t' w.
Proof.
  intros Ht (Hs & Hb & Hd). split; [exact Hs|]. split; [|exact Hd].
  intros c Hc. specialize (Hb c Hc). lia.
Qed.

Lemma fire_paced t w e :
  paced t w -> editor w = Some e -> due (e_timer e) <= t -> paced t (fire e w).
Proof.
  intros (Hs & Hb & Hd) He Hdue. unfold fire, paced. cbn [commits editor].
  split; [|split].
  - apply apart_snoc; [exact Hs|]. intros x Hx. unfold apart. cbn [c_time].
    exact (Hd e He x Hx).
  - intros c Hc. apply in_app_iff in Hc as [Hc|[<-|[]]]; [now apply Hb|exact Hdue].
  - intros e' He' c Hc. apply render_app_due in He'. rewrite He'.
    apply in_app_iff in Hc as [Hc|[<-|[]]].
    + specialize (Hd e He c Hc). lia.
    + cbn [c_time]. lia.
Qed.

Lemma elapse_fuel_paced fuel t : forall w, paced t w -> paced t (elapse_fuel fuel t w).
Proof.
  induction fuel as [|fuel IH]; intros w Hp; [exact Hp|]. cbn [elapse_fuel].
  destruct (editor w) as [e|] eqn:He; [|exact Hp].
  destruct (due (e_timer e) <=? t) eqn:Hd; [|exact Hp].
  apply IH, fire_paced; [exact Hp|exact He|now apply Z.leb_le].
Qed.

Lemma render_paced t st prev w :
  paced t w ->
  paced t {| appState := st; editor := render_app t st prev; commits := commits w |}.
Proof.
  intros (Hs & Hb & Hd). unfold paced. cbn [commits editor].
  split; [exact Hs|]. split; [exact Hb|].
  intros e He c Hc. apply render_app_due in He. specialize (Hb c Hc). lia.
Qed.

Lemma handle_paced t ev w : paced t w -> paced t (handle t ev w).
Proof.
  intros Hp. destruct ev as [f value|i|fresh|i|q]; cbn [handle].
  - destruct Hp as (Hs & Hb & Hd). unfold paced. cbn [commits editor].
    split; [exact Hs|]. split; [exact Hb|].
    intros e' He' c Hc. destruct (editor w) as [e|]; [|discriminate].
    cbn [option_map] in He'. injection He' as <-.
    specialize (Hb c Hc). specialize (Hd e eq_refl c Hc). unfold edit.
    destruct f;
      [destruct (str_eq_dec (e_title e) value)
      |destruct (str_eq_dec (e_content e) value)];
      try exact Hd; cbn [rearm e_timer debounce_effect due]; lia.
  - destruct (sel_eq_dec (selectedId (appState w)) (Some i)); [exact Hp|].
    now apply render_paced.
  - now apply render_paced.
  - now apply render_paced.
  - destruct (str_eq_dec (query (appState w)) q); [exact Hp|].
    now apply render_paced.
Qed.

Lemma session_paced evs : forall t0 w,
  paced t0 w -> nondecreasing_from t0 (map fst evs) ->
  exists t, paced t (session t0 evs w).
Proof.
  induction evs as [|[t ev] evs IH]; intros t0 w Hp Hnd; [now exists t0|].
  cbn [map fst nondecreasing_from] in Hnd. destruct Hnd as [Ht Hnd].
  cbn [session]. apply IH; [|exact Hnd].
  apply handle_paced. unfold elapse. apply elapse_fuel_paced.
  now apply (paced_later t0).
Qed.

(** X17: in a session whose events come in the order of their times, the
    store's update is never called twice within 200 time units: any two
    commits of the log, at any point of the session and after any time has
    passed since, are 200 or more apart. *)
Theorem commits_spaced (ns : list Note) (t0 : Z) (evs : list (Z * Event)) :
  nondecreasing_from t0 (map fst evs) ->
  StronglySorted apart (commits (session t0 evs (start ns))) /\
  (forall t1 t, StronglySorted apart (commits (elapse t1 t (session t0 evs (start ns))))).
Proof.
  intros Hnd.
  assert (H0 : paced t0 (start ns)).
  { unfold paced, start. cbn [commits editor]. split; [constructor|].
    split; [intros c []|discriminate]. }
  destruct (session_paced evs t0 (start ns) H0 Hnd) as [tc Hp].
  split; [exact (proj1 Hp)|].
  intros t1 t. unfold elapse.
  apply (paced_later tc (Z.max tc t)) in Hp; [|lia].
  set (w := session t0 evs (start ns)) in *.
  assert (Hgen : forall fuel w0 c, paced c w0 -> exists c', paced c' (elapse_fuel fuel t w0)).
  { induction fuel as [|fuel IH]; intros w0 c Hw0; [now exists c|]. cbn [elapse_fuel].
    destruct (editor w0) as [e|] eqn:He; [|now exists c].
    destruct (due (e_timer e) <=? t) eqn:Hd; [|now exists c].
    apply Z.leb_le in Hd. apply (IH _ (Z.max c t)).
    apply fire_paced; [apply (paced_later c); [lia|exact Hw0]|exact He|lia]. }
  destruct (Hgen (Z.to_nat (t - t1) + 1)%nat w _ Hp) as [c' Hc']. exact (proj1 Hc').
Qed.

(** ** The selected Note while its editor is open *)

Lemma elapse_fuel_bound fuel t : forall w e n,
  bound w e n ->
  exists e' n',
    bound (elapse_fuel fuel t w) e' n' /\
    e_title e' = e_title e /\ e_content e' = e_content e /\
    ((e' = e /\ n' = n) \/
     (n' = mkNote (id n) (e_title e) (e_content e) (due (e_timer e') - 200) /\
      due (e_timer e') - 200 <= t)).
Proof.
  induction fuel as [|fuel IH]; intros w e n Hb.
  - exists e, n. cbn [elapse_fuel].
    split; [exact Hb|]. split; [reflexivity|]. split; [reflexivity|]. now left.
  - cbn [elapse_fuel]. pose proof Hb as (He & _). rewrite He.
    destruct (due (e_timer e) <=? t) eqn:Hd.
    + apply Z.leb_le in Hd.
      destruct (fire_keeps_bound w e n Hb) as (Hb' & _).
      destruct (IH _ _ _ Hb') as (e' & n' & Hb'' & Hti & Hco & Hcase).
      exists e', n'. split; [exact Hb''|].
      cbn [rearm e_title e_content] in Hti, Hco.
      split; [exact Hti|]. split; [exact Hco|]. right.
      destruct Hcase as [[-> ->]|[-> Hle]].
      * cbn [rearm e_timer debounce_effect due]. split; [|lia].
        f_equal. lia.
      * cbn [id rearm e_title e_content]. split; [reflexivity|exact Hle].
    + exists e, n.
      split; [exact Hb|]. split; [reflexivity|]. split; [reflexivity|]. now left.
Qed.

(** X18: while a Note stays selected with no event, its editor keeps
    committing its buffer; so from the first commit on, at any time [t] the
    selected Note has the buffer's title and content and an [updatedAt] less
    than 200 before [t], and its "last edited" label reads "just now". *)
Theorem open_note_stays_fresh (w : World) (e : Editor) (n : Note) (t0 t : Z) :
  bound w e n ->
  t0 <= due (e_timer e) <= t ->
  exists n',
    selectedNote (appState (elapse t0 t w)) = Some n' /\
    id n' = id n /\ title n' = e_title e /\ content n' = e_content e /\
    t - 200 < updatedAt n' <= t /\
    timeAgo t (updatedAt n') = lit "just now".
Proof.
  intros Hb Ht. unfold elapse.
  destruct (elapse_fuel_bound (Z.to_nat (t - t0) + 1) t w e n Hb)
    as (e' & n' & Hb' & Hti & Hco & Hcase).
  pose proof Hb as (He & _). pose proof Hb' as (He' & Hn' & _).
  assert (Hlt : t < due (e_timer e')).
  { apply (elapse_complete t0 t w); [|exact He'].
    intros e0 He0. rewrite He in He0. injection He0 as <-. lia. }
  destruct Hcase as [[-> ->]|[-> Hle]]; [lia|].
  eexists. split; [exact Hn'|]. cbn [id title content updatedAt].
  repeat split; try lia.
  unfold timeAgo.
  assert (E : (t - (due (e_timer e') - 200)) / 1000 = 0)
    by (apply Z.div_small; lia).
  rewrite E. reflexivity.
Qed.

(** ** Persistence over a run *)

Lemma apply_op_wf op st :
  op_wf op -> Forall note_wf (notes st) -> Forall note_wf (notes (apply_op op st)).
Proof.
  destruct op as [fresh now|now i p|i]; cbn [apply_op op_wf]; intros Hop Hst.
  - cbn [createNote snd notes]. constructor; [|exact Hst].
    destruct Hop as [Hf Hn]. unfold note_wf. cbn [newNote id title content updatedAt].
    split; [exact Hf|]. split; [|split; [constructor|exact Hn]].
    repeat constructor.
  - cbn [updateNote notes]. apply Forall_forall. intros m Hm.
    apply in_map_iff in Hm as (m0 & <- & Hm0).
    rewrite Forall_forall in Hst. specialize (Hst m0 Hm0).
    destruct (id_is i m0); [|exact Hst].
    destruct Hst as (H1 & H2 & H3 & H4). destruct Hop as [[Hpt Hpc] Hn].
    unfold note_wf. cbn [merge id title content updatedAt].
    split; [exact H1|]. split; [|split; [|exact Hn]].
    + destruct (p_title p); assumption.
    + destruct (p_content p); assumption.
  - cbn [deleteNote notes]. apply Forall_forall. intros m Hm.
    apply filter_In in Hm as [Hm _]. rewrite Forall_forall in Hst. now apply Hst.
Qed.

Lemma run_ops_wf ops : forall st,
  Forall op_wf ops -> Forall note_wf (notes st) ->
  Forall note_wf (notes (run_ops ops st)).
Proof.
  induction ops as [|op ops IH]; intros st Hops Hst; [exact Hst|].
  inversion Hops as [|x xs Hop Hops']; subst.
  cbn [run_ops fold_left]. apply IH; [exact Hops'|]. now apply apply_op_wf.
Qed.

(** X19: the application starts from what [load] returned, a collection
    [ns0] of Note objects as this code writes them: the properties [id],
    [title], [content], [updatedAt], in this order and no other (the empty
    collection of a first start is one).  Then, whatever run of creations,
    updates and deletions the store goes through, the text the persistence
    effect writes for the resulting collection is read back by [load] as that
    very collection: the same Notes, in the same order, with the same fields;
    the next start is from a collection of the same kind.  (Strings are
    sequences of 16-bit code units and the clock reads safe integers.) *)
Theorem run_persists (r : storage_read) (ns0 : list Note) (ops : list Op) :
  load r = Returns (json_of_notes ns0) ->
  Forall note_wf ns0 -> Forall op_wf ops ->
  let ns := notes (run_ops ops (appState (start ns0))) in
  Forall note_wf ns /\
  load (ReadString (save (json_of_notes ns))) = Returns (json_of_notes ns) /\
  notes_of_json (json_of_notes ns) = Some ns.
Proof.
  intros _ Hst Hops ns.
  assert (Hwf : Forall note_wf ns).
  { subst ns. apply run_ops_wf; [exact Hops|exact Hst]. }
  split; [exact Hwf|]. split.
  - apply load_save, json_of_notes_wf. exact Hwf.
  - apply notes_of_json_of_notes.
Qed.

(** ** Examples *)

Lemma typing_bound : bound typing_world typing_editor typing_note.
Proof. repeat split. Defined.

Lemma edit_schedules_commit_witness :
  commits (elapse 150 (150 + 200)
             (handle 150 (Edit FContent (lit "milk")) typing_world)) =
  commits typing_world ++
  [mkCommit (150 + 200) (id typing_note) (e_title typing_editor) (lit "milk")].
Proof.
  pose proof (edit_schedules_commit 150 FContent (lit "milk")
                typing_world typing_editor typing_note typing_bound) as H.
  cbv zeta in H. destruct H as [_ H].
  destruct H as (_ & _ & H & _); [cbn; discriminate|]. exact H.
Defined.

Lemma deleting_bound_note_unmounts_witness :
  let w' := handle 150 (Delete (id typing_note)) typing_world in
  editor w' = None /\
  selectedId (appState w') = None /\
  (forall m, In m (notes (appState w')) -> id m <> id typing_note) /\
  commits w' = commits typing_world /\
  (forall t0 t', elapse t0 t' w' = w').
Proof.
  exact (deleting_bound_note_unmounts 150 typing_world typing_editor typing_note
           typing_bound).
Defined.

Lemma rebinding_drops_buffer_witness :
  notes (appState (handle 150 (Create (lit "n2")) typing_world)) =
    newNote (lit "n2") 150 :: notes (appState typing_world) /\
  editor (handle 150 (Create (lit "n2")) typing_world) =
    Some (mount 150 (newNote (lit "n2") 150)).
Proof.
  pose proof (rebinding_drops_buffer 150 typing_world typing_editor typing_note
                typing_bound) as [_ H].
  assert (Hfresh : ~ In (lit "n2") (ids (appState typing_world))).
  { intros [E|[]]. discriminate E. }
  destruct (H (lit "n2") Hfresh) as (H1 & H2 & _). split; [exact H1|exact H2].
Defined.

Lemma rerender_postpones_commit_witness :
  editor (handle 150 (SetQuery (lit "x")) typing_world) =
    Some (rearm 150 typing_editor) /\
  commits (elapse 150 (150 + 200) (handle 150 (SetQuery (lit "x")) typing_world)) =
    commits typing_world ++
    [mkCommit (150 + 200) (id typing_note) (e_title typing_editor)
       (e_content typing_editor)].
Proof.
  pose proof (rerender_postpones_commit 150 typing_world typing_editor typing_note
                typing_bound) as H.
  cbv zeta in H. destruct H as [H _].
  assert (Hq : query (appState typing_world) <> lit "x") by (cbn; discriminate).
  destruct (H (lit "x") Hq) as (H1 & _ & _ & _ & H5). split; [exact H1|exact H5].
Defined.

Lemma commits_spaced_witness :
  StronglySorted apart (commits (session (-100) paused_session (start []))) /\
  (forall t1 t,
     StronglySorted apart
       (commits (elapse t1 t (session (-100) paused_session (start []))))).
Proof.
  apply (commits_spaced [] (-100) paused_session). cbn. lia.
Defined.

Lemma open_note_stays_fresh_witness :
  exists n',
    selectedNote (appState (elapse 100 100000 typing_world)) = Some n' /\
    id n' = id typing_note /\ title n' = e_title typing_editor /\
    content n' = e_content typing_editor /\
    100000 - 200 < updatedAt n' <= 100000 /\
    timeAgo 100000 (updatedAt n') = lit "just now".
Proof.
  apply (open_note_stays_fresh typing_world typing_editor typing_note 100 100000
           typing_bound).
  cbn. lia.
Defined.

Lemma run_persists_witness :
  let ns := notes (run_ops first_run (appState (start []))) in
  Forall note_wf ns /\
  load (ReadString (save (json_of_notes ns))) = Returns (json_of_notes ns) /\
  notes_of_json (json_of_notes ns) = Some ns.
Proof.
  apply (run_persists ReadNull [] first_run).
  - reflexivity.
  - constructor.
  - repeat constructor; cbn; lia.
Defined.

Lemma timeAgo_spec_witness :
  timeAgo 1730000123456 1730000000000 = lit "2 mins ago" /\
  timeAgo 1730000000000 1730000123456 = lit "just now".
Proof.
  assert (H1 : safe_time 1730000123456) by (unfold safe_time; cbn; lia).
  assert (H2 : safe_time 1730000000000) by (unfold safe_time; cbn; lia).
  assert (H3 : safe_time (1730000123456 - 1730000000000))
    by (unfold safe_time; cbn; lia).
  assert (H4 : safe_time (1730000000000 - 1730000123456))
    by (unfold safe_time; cbn; lia).
  split.
  - pose proof (timeAgo_spec 1730000123456 1730000000000 H1 H2 H3) as H.
    cbv zeta in H. destruct H as (_ & H & _).
    destruct H as [H _]; [lia|]. exact H.
  - pose proof (timeAgo_spec 1730000000000 1730000123456 H2 H1 H4) as H.
    cbv zeta in H. destruct H as (H & _). apply H. lia.
Defined.
